(** * SBic: Bayesian-Information-Criterion audio segmentation

    A shallow embedding of [src/algorithms/highlevel/sbic.cpp]
    (Essentia's [SBic] algorithm) and the properties of it that the
    specification states.

    Conventions of the embedding.

    - C++ [int] is [Z].  Signed overflow is undefined behaviour in C++; the
      development covers the executions in which no [int] overflows.
    - [Real] is Essentia's scalar type.  Its declaration is not part of the
      source file, so the program is written once over an abstract scalar
      (class [Scalar]); what is proved over it holds for any arithmetic.
      The source has [Real] a floating-point type that rounds
      ([numeric_limits<Real>::max()], the comments of [logDet]): the
      instance [float_scalar] is an IEEE binary format with every operation
      rounded to nearest, and is where rounding decides.  The instance
      [real_scalar] is the arithmetic without rounding; the runs on small
      matrices of integers are made in it, none of their comparisons being
      close enough for rounding to decide it.
    - [std::vector] is [list]; an index outside the vector is undefined
      behaviour in C++ and is the outcome [Undefined] here.
    - [TNT::Array2D<Real>] is its two dimensions and its element accessor.
    - Loops are iterated with a bound on the number of iterations.  For
      windows and scan steps of at least one frame the bounds are shown to
      be sufficient ([bicChangeSearch_total], [compute_within_bound]), so
      the outcome [OutOfFuel] is not that of any run with such parameters. *)

From Stdlib Require Import ZArith List Lia Bool Reals Lra.
From Stdlib Require Import Floats.SpecFloat.
From stdpp Require Import base list sorting.
Import ListNotations.

#[local] Open Scope Z_scope.

(** ** The scalar type *)

(** The operations [sbic.cpp] uses on [Real].  [a > b] in the source is
    [rlt b a]. *)
Class Scalar (Real : Type) : Type := {
  of_int : Z -> Real;              (* Real(n) and the implicit int -> Real *)
  to_int : Real -> Z;              (* int(x) *)
  radd : Real -> Real -> Real;
  rsub : Real -> Real -> Real;
  rmul : Real -> Real -> Real;
  rdiv : Real -> Real -> Real;
  rlt : Real -> Real -> bool;      (* a < b *)
  rlog : Real -> Real;             (* log *)
  real_max : Real;                 (* numeric_limits<Real>::max() *)
  one_half : Real;                 (* the literal 0.5 *)
  cov_floor : Real                 (* the literal 1e-5 *)
}.

Declare Scope real_scope.
Delimit Scope real_scope with real.
Infix "+" := radd : real_scope.
Infix "-" := rsub : real_scope.
Infix "*" := rmul : real_scope.
Infix "/" := rdiv : real_scope.

(** ** Vectors and the outcome of a run *)

Section Program.

Context {Real : Type} {scalar : Scalar Real}.

(** The three output vectors of [compute]. *)
Record outputs : Type := mkOutputs {
  segmentation : list Real;
  segValues : list Real;
  bicValues : list Real
}.

Definition no_outputs : outputs := mkOutputs [] [] [].

(** What running a piece of the program gives: a value; the
    [EssentiaException] of [compute], with the output vectors as they are
    when it is thrown; undefined behaviour (an access outside a vector or an
    array); or a loop that does not exit. *)
Inductive outcome (A : Type) : Type :=
| Ok (a : A)
| Throw (o : outputs)
| Undefined
| OutOfFuel.

Arguments Ok {A} a.
Arguments Throw {A} o.
Arguments Undefined {A}.
Arguments OutOfFuel {A}.

Definition bind {A B : Type} (x : outcome A) (f : A -> outcome B) : outcome B :=
  match x with
  | Ok a => f a
  | Throw o => Throw o
  | Undefined => Undefined
  | OutOfFuel => OutOfFuel
  end.

Notation "'let*' p ':=' e1 'in' e2" := (bind e1 (fun p => e2))
  (at level 10, p pattern, e1 at level 200, e2 at level 200).

(** [v[i]]. *)
Definition vec_at {A : Type} (v : list A) (i : Z) : outcome A :=
  if i <? 0 then Undefined
  else match v !! Z.to_nat i with
       | Some x => Ok x
       | None => Undefined
       end.

(** [v[i] = x]. *)
Definition vec_set {A : Type} (v : list A) (i : Z) (x : A) : outcome (list A) :=
  if (i <? 0) || (Z.of_nat (length v) <=? i) then Undefined
  else Ok (<[Z.to_nat i := x]> v).

(** [v.erase(v.begin() + i)]. *)
Definition vec_erase {A : Type} (v : list A) (i : Z) : outcome (list A) :=
  if (i <? 0) || (Z.of_nat (length v) <=? i) then Undefined
  else Ok (delete (Z.to_nat i) v).

(** [v.push_back(x)]. *)
Definition push_back {A : Type} (v : list A) (x : A) : list A := v ++ [x].

(** [int(v.size())]. *)
Definition size {A : Type} (v : list A) : Z := Z.of_nat (length v).

(** [while (cond) body], at most [fuel] iterations. *)
Fixpoint while {St : Type} (fuel : nat) (cond : St -> bool)
    (body : St -> outcome St) (st : St) : outcome St :=
  if cond st then
    match fuel with
    | O => OutOfFuel
    | S fuel' => let* st' := body st in while fuel' cond body st'
    end
  else Ok st.

(** ** Arrays *)

Record Array2D : Type := mkArray2D {
  dim1 : Z;                      (* number of features *)
  dim2 : Z;                      (* number of frames *)
  elem : Z -> Z -> Real          (* matrix[i][j] *)
}.

(** [Array2D<Real>()]. *)
Definition null_array : Array2D := mkArray2D 0 0 (fun _ _ => of_int 0).

(** The indices [0, 1, ..., n-1] a [for] loop runs through. *)
Definition upto (n : Z) : list Z := map Z.of_nat (seq 0 (Z.to_nat n)).

Definition subarray (matrix : Array2D) (i0 i1 j0 j1 : Z) : outcome Array2D :=
  let d1 := i1 - i0 + 1 in
  let d2 := j1 - j0 + 1 in
  if (d1 <? 1) || (d2 <? 1) then Ok null_array
  else if (0 <=? i0) && (i1 <? dim1 matrix) && (0 <=? j0) && (j1 <? dim2 matrix)
  then Ok (mkArray2D d1 d2 (fun i j => elem matrix (i + i0) (j + j0)))
  else Undefined.

(** ** The log-determinant of the diagonal covariance *)

Definition logDet (matrix : Array2D) : Real :=
  let d1 := dim1 matrix in
  let d2 := dim2 matrix in
  let z := (of_int 1 / of_int d2)%real in
  let zz := (z * z)%real in
  let mp i := fold_left (fun acc j => (acc + elem matrix i j)%real) (upto d2) (of_int 0) in
  let vp i :=
    fold_left (fun acc j => (acc + elem matrix i j * elem matrix i j)%real)
      (upto d2) (of_int 0) in
  fold_left
    (fun logd j =>
       let diag_cov := (vp j * z - mp j * mp j * zz)%real in
       (logd + (if rlt cov_floor diag_cov then rlog diag_cov else of_int (-5)))%real)
    (upto d1) (of_int 0).

(** ** The algorithm's parameters

    [configure] reads [size1], [inc1], [size2], [inc2] and [cpw]; [compute]
    sets the member [_cp], which is passed explicitly below. *)

Record config : Type := mkConfig {
  size1 : Z;
  inc1 : Z;
  size2 : Z;
  inc2 : Z;
  cpw : Real
}.

Context (cfg : config).

(** ** Finding the next change in a window *)

(** The local variables the loop of [bicChangeSearch] updates. *)
Record search_state : Type := mkSearch {
  shift : Z;
  seg : Z;
  dmin : Real;
  d : list Real
}.

(** [_cpw * _cp * log(Real(nFrames))] *)
Definition penalty (cp : Real) (nFrames : Z) : Real :=
  (cpw cfg * cp * rlog (of_int nFrames))%real.

(** The value [dBicValue] of one iteration: the window split after frame
    [shift]. *)
Definition dBicValue (cp : Real) (matrix : Array2D) (shift : Z) : outcome Real :=
  let nFeatures := dim1 matrix in
  let nFrames := dim2 matrix in
  let s := logDet matrix in
  let n1 := shift + 1 in
  let* half := subarray matrix 0 (nFeatures - 1) 0 shift in
  let s1 := logDet half in
  let n2 := nFrames - n1 in
  let* half := subarray matrix 0 (nFeatures - 1) (shift + 1) (nFrames - 1) in
  let s2 := logDet half in
  Ok (one_half * (of_int n1 * s1 + of_int n2 * s2 - of_int nFrames * s
                  + penalty cp nFrames))%real.

Definition search_cond (matrix : Array2D) (inc : Z) (st : search_state) : bool :=
  shift st <? dim2 matrix - inc.

Definition search_body (cp : Real) (matrix : Array2D) (inc : Z)
    (st : search_state) : outcome search_state :=
  let* v := dBicValue cp matrix (shift st) in
  let d' := push_back (d st) v in
  if rlt v (dmin st)
  then Ok (mkSearch (shift st + inc) (shift st) v d')
  else Ok (mkSearch (shift st + inc) (seg st) (dmin st) d').

(** The result is the pair the source returns and the value left in the
    reference parameter [dmin]. *)
Definition bicChangeSearch (cp : Real) (matrix : Array2D) (inc current : Z)
    : outcome (Z * list Real * Real) :=
  let nFrames := dim2 matrix in
  let* st := while (Z.to_nat nFrames) (search_cond matrix inc)
               (search_body cp matrix inc)
               (mkSearch (inc - 1) 0 real_max []) in
  let first := current + seg st in
  let first := if rlt (of_int 0) (dmin st) then 0 else first in
  Ok (first, d st, dmin st).

(** ** The differential at a given split *)

Definition delta_bic (cp : Real) (matrix : Array2D) (segPoint : Real) : outcome Real :=
  let nFeatures := dim1 matrix in
  let nFrames := dim2 matrix in
  let s := logDet matrix in
  let* half := subarray matrix 0 (nFeatures - 1) 0 (to_int segPoint) in
  let s1 := logDet half in
  let* half := subarray matrix 0 (nFeatures - 1)
                 (to_int (segPoint + of_int 1)%real) (nFrames - 1) in
  let s2 := logDet half in
  Ok (one_half * (segPoint * s1 + (of_int nFrames - segPoint) * s2
                  - of_int nFrames * s
                  + cpw cfg * cp * rlog (of_int nFrames)))%real.

(** ** The three passes of [compute] *)

Section Compute.

Variable features : Array2D.

Let nFeatures : Z := dim1 features.
Let nFrames : Z := dim2 features.

(** [for (int j=0; j<n; ++j) bicValues.push_back(tmpBicValues[j+offset]);] *)
Definition append_samples (tmpBicValues : list Real) (offset n : Z)
    (bicValues : list Real) : outcome (list Real) :=
  fold_left
    (fun acc j =>
       let* b := acc in
       let* x := vec_at tmpBicValues (j + offset) in
       Ok (push_back b x))
    (upto n) (Ok bicValues).

(** *** First pass: coarse segmentation *)

(** The variables of [compute] the first loop reads and writes. *)
Record coarse_state : Type := mkCoarse {
  c_currSeg : Z;
  c_endSeg : Z;
  c_i : Z;
  c_dmin : Real;
  c_out : outputs
}.

Definition coarse_cond (st : coarse_state) : bool := c_endSeg st <? nFrames - 1.

Definition coarse_body (cp : Real) (st : coarse_state) : outcome coarse_state :=
  let currSeg := c_currSeg st in
  let o := c_out st in
  let endSeg := c_endSeg st + size1 cfg in
  let endSeg := if endSeg >=? nFrames then nFrames - 1 else endSeg in
  let* window := subarray features 0 (nFeatures - 1) currSeg endSeg in
  let* (i, tmpBicValues, dmin) := bicChangeSearch cp window (inc1 cfg) currSeg in
  let* (currSeg, endSeg, o) :=
    if negb (i =? 0) then
      let prevCurrSeg := currSeg in
      let segmentation' := push_back (segmentation o) (of_int i) in
      let segValues' := push_back (segValues o) dmin in
      let currSeg := i + inc1 cfg in
      let endSeg := currSeg - 1 in
      let nToAdd := i - prevCurrSeg + 1 in
      let* bicValues' := append_samples tmpBicValues 0 nToAdd (bicValues o) in
      Ok (currSeg, endSeg, mkOutputs segmentation' segValues' bicValues')
    else Ok (currSeg, endSeg, o) in
  let* bicValues' :=
    if endSeg =? nFrames - 1
    then append_samples tmpBicValues currSeg (size tmpBicValues) (bicValues o)
    else Ok (bicValues o) in
  Ok (mkCoarse currSeg endSeg i dmin
        (mkOutputs (segmentation o) (segValues o) bicValues')).

(** [currSeg = 0], [endSeg = -1]; [i] and [dmin] are assigned by the first
    iteration before they are read. *)
Definition coarse_init (o : outputs) : coarse_state :=
  mkCoarse 0 (-1) 0 (of_int 0) o.

Definition coarse_fuel : nat := Z.to_nat ((nFrames + 1) * (nFrames + 1)).

Definition coarse_pass (cp : Real) (o : outputs) : outcome coarse_state :=
  while coarse_fuel coarse_cond (coarse_body cp) (coarse_init o).

(** *** Second pass: fine segmentation *)

(** [i] is the variable the first pass assigned last; this loop never
    assigns it. *)
Record fine_state : Type := mkFine {
  f_currIdx : Z;
  f_dmin : Real;
  f_out : outputs
}.

Definition fine_cond (st : fine_state) : bool :=
  f_currIdx st <? size (segmentation (f_out st)).

Definition fine_body (cp : Real) (i : Z) (st : fine_state) : outcome fine_state :=
  let currIdx := f_currIdx st in
  let o := f_out st in
  let halfSize := Z.quot (size2 cfg) 2 in
  let* cur := vec_at (segmentation o) currIdx in
  let currSeg := to_int (cur - of_int halfSize)%real in
  let currSeg := if currSeg <? 0 then 0 else currSeg in
  let endSeg := currSeg + size2 cfg - 1 in
  let endSeg := if endSeg >=? nFrames then nFrames - 1 else endSeg in
  let* window := subarray features 0 (nFeatures - 1) currSeg endSeg in
  let* (_, _, dmin) := bicChangeSearch cp window (inc1 cfg) currSeg in
  if negb (i =? 0) then
    let* prevSeg :=
      if currIdx =? 0 then Ok 0
      else let* p := vec_at (segmentation o) (currIdx - 1) in Ok (to_int p) in
    let* nextSeg :=
      if currIdx + 1 >=? size (segmentation o) then Ok (nFrames - 1)
      else let* n := vec_at (segmentation o) (currIdx + 1) in Ok (to_int n) in
    if (prevSeg <=? i) && (i <=? nextSeg) then
      if negb (i =? to_int cur) then
        let* segmentation' := vec_set (segmentation o) currIdx (of_int i) in
        let* segValues' := vec_set (segValues o) currIdx dmin in
        Ok (mkFine (currIdx + 1) dmin
              (mkOutputs segmentation' segValues' (bicValues o)))
      else Ok (mkFine (currIdx + 1) dmin o)
    else
      if currIdx <? size (segmentation o) then
        let* segmentation' := vec_erase (segmentation o) currIdx in
        let* segValues' := vec_erase (segValues o) currIdx in
        Ok (mkFine (currIdx - 1 + 1) dmin
              (mkOutputs segmentation' segValues' (bicValues o)))
      else Ok (mkFine (currIdx + 1) dmin o)
  else Ok (mkFine (currIdx + 1) dmin o).

Definition fine_pass (cp : Real) (i : Z) (dmin : Real) (o : outputs)
    : outcome fine_state :=
  while (length (segmentation o)) fine_cond (fine_body cp i) (mkFine 0 dmin o).

(** *** Third pass: segment validation *)

Record validate_state : Type := mkValidate {
  v_i : Z;
  v_currSeg : Z;
  v_out : outputs
}.

Definition validate_cond (st : validate_state) : bool :=
  v_i st <? size (segmentation (v_out st)) - 1.

Definition validate_body (cp : Real) (st : validate_state) : outcome validate_state :=
  let i := v_i st in
  let o := v_out st in
  let* next := vec_at (segmentation o) (i + 1) in
  let endSeg := to_int next in
  let* window := subarray features 0 (nFeatures - 1) (v_currSeg st) endSeg in
  let* cur := vec_at (segmentation o) i in
  let* prev := vec_at (segmentation o) (i - 1) in
  let* delta := delta_bic cp window (cur - prev)%real in
  if rlt (of_int 0) delta then
    let* segmentation' := vec_erase (segmentation o) i in
    let* segValues' := vec_erase (segValues o) i in
    Ok (mkValidate (i - 1 + 1) (v_currSeg st)
          (mkOutputs segmentation' segValues' (bicValues o)))
  else
    Ok (mkValidate (i + 1) (to_int (cur + of_int 1)%real) o).

Definition validate_pass (cp : Real) (o : outputs) : outcome outputs :=
  if size (segmentation o) =? 0 then Ok o
  else
    let* st := while (length (segmentation o)) validate_cond (validate_body cp)
                 (mkValidate 1 0 o) in
    Ok (v_out st).

(** *** [compute] *)

Definition compute (o : outputs) : outcome outputs :=
  if nFrames <? 2 then Throw o
  else
    let cp := of_int (2 * nFeatures) in
    let* c := coarse_pass cp o in
    let* f := fine_pass cp (c_i c) (c_dmin c) (c_out c) in
    validate_pass cp (f_out f).

End Compute.

End Program.

Arguments outputs Real : clear implicits.
Arguments outcome Real A : clear implicits.
Arguments Array2D Real : clear implicits.
Arguments config Real : clear implicits.
Arguments search_state Real : clear implicits.
Arguments coarse_state Real : clear implicits.
Arguments fine_state Real : clear implicits.
Arguments validate_state Real : clear implicits.
Arguments Ok {Real A} a.
Arguments Throw {Real A} o.
Arguments Undefined {Real A}.
Arguments OutOfFuel {Real A}.

(** ** Vocabulary of the properties *)

Section Vocabulary.

Context {Real : Type} {scalar : Scalar Real}.

(** A piece of the program that does not throw. *)
Definition no_throw {A : Type} (x : outcome Real A) : Prop :=
  forall o, x <> Throw o.

(** The states a loop goes through, starting from a given one. *)
Inductive reaches {St : Type} (cond : St -> bool) (body : St -> outcome Real St)
    : St -> St -> Prop :=
| reaches_here st : reaches cond body st st
| reaches_step st st' st'' :
    cond st = true -> body st = Ok st' ->
    reaches cond body st' st'' -> reaches cond body st st''.

(** [0 < numeric_limits<Real>::max()]: what the search relies on to report
    "no change" when it has gone through no position. *)
Definition real_max_positive : Prop := rlt (of_int 0) (real_max (Real:=Real)) = true.

(** What the loop of [bicChangeSearch] keeps true: the differentials stored
    so far are those of the positions [inc-1], [2*inc-1], ...; [seg] is
    still [0] with [dmin] at its initial value, or it is one of the
    positions gone through. *)
Definition search_inv (m : Array2D Real) (inc : Z) (st : search_state Real) : Prop :=
  shift st = inc - 1 + Z.of_nat (length (d st)) * inc /\
  ((seg st = 0 /\ dmin st = real_max) \/
   (inc - 1 <= seg st < dim2 m - inc)).

(** A piece of the program that returns, throws or is undefined within the
    bound on its loops. *)
Definition within_bound {A : Type} (x : outcome Real A) : Prop :=
  x <> OutOfFuel.

(** What the loop of the first pass keeps true of [currSeg], [endSeg] and
    [i]: after an iteration that found a change, [endSeg] is before the last
    frame. *)
Definition coarse_inv (features : Array2D Real) (st : coarse_state Real) : Prop :=
  0 <= c_currSeg st /\ (c_i st <> 0 -> c_endSeg st < dim2 features - 1).

(** The window of the next iteration of the first pass begins at most one
    frame after [endSeg]. *)
Definition coarse_cursor (st : coarse_state Real) : Prop :=
  0 <= c_currSeg st <= c_endSeg st + 1.

(** What is left for the first pass to go through: the frames from
    [currSeg], each of which can begin a window that grows to the last
    frame, and the frames after [endSeg]. *)
Definition coarse_measure (features : Array2D Real) (st : coarse_state Real) : nat :=
  Z.to_nat ((dim2 features - c_currSeg st) * (dim2 features + 1)
            + (dim2 features - 1 - c_endSeg st)).

(** Frame indices in increasing order, each at least [gap] frames after the
    one before. *)
Definition apart (gap : Z) (ks : list Z) : Prop :=
  StronglySorted (fun a b => a + gap <= b) ks.

(** A value of SegValues that is not positive. *)
Definition not_positive (v : Real) : Prop := rlt (of_int 0) v = false.

(** The change points the first pass can store: frame indices in increasing
    order, each at least [2*inc1 - 1] frames after the one before, none of
    them [0], none before frame [inc1 - 1] or less than [inc1] frames before
    the last frame. *)
Definition change_points (cfg : config Real) (features : Array2D Real)
    (seg : list Real) : Prop :=
  exists ks,
    seg = map of_int ks /\
    apart (2 * inc1 cfg - 1) ks /\
    Forall (fun k => Z.max 1 (inc1 cfg - 1) <= k <= dim2 features - 1 - inc1 cfg) ks.

(** The window end of a coarse iteration. *)
Definition coarse_window_end (cfg : config Real) (features : Array2D Real)
    (st : coarse_state Real) : Z :=
  let endSeg := c_endSeg st + size1 cfg in
  if endSeg >=? dim2 features then dim2 features - 1 else endSeg.

(** The window of a matrix that holds its frames [a], ..., [b]: what
    [subarray(matrix, 0, nFeatures-1, a, b)] returns for a range inside the
    matrix. *)
Definition cols (matrix : Array2D Real) (a b : Z) : Array2D Real :=
  mkArray2D (dim1 matrix) (b - a + 1) (fun i j => elem matrix (i + 0) (j + a)).

(** A value of Segmentation that is a frame index of the matrix. *)
Definition valid_frame (features : Array2D Real) (v : Real) : Prop :=
  exists k, v = of_int k /\ 0 <= k <= dim2 features - 1.

(** Segmentation and SegValues have one value per entry. *)
Definition same_size (o : outputs Real) : Prop :=
  length (segmentation o) = length (segValues o).

(** The changes of Segmentation and SegValues that keep them entry by
    entry: none, one value appended to each, the values at one index of
    both replaced, the values at one index of both erased. *)
Inductive lockstep : outputs Real -> outputs Real -> Prop :=
| lockstep_keep o o' :
    segmentation o' = segmentation o -> segValues o' = segValues o ->
    lockstep o o'
| lockstep_push o o' x y :
    segmentation o' = segmentation o ++ [x] ->
    segValues o' = segValues o ++ [y] ->
    lockstep o o'
| lockstep_replace o o' (k : nat) x y :
    (k < length (segmentation o))%nat -> (k < length (segValues o))%nat ->
    segmentation o' = <[k := x]> (segmentation o) ->
    segValues o' = <[k := y]> (segValues o) ->
    lockstep o o'
| lockstep_erase o o' (k : nat) :
    (k < length (segmentation o))%nat -> (k < length (segValues o))%nat ->
    segmentation o' = delete k (segmentation o) ->
    segValues o' = delete k (segValues o) ->
    lockstep o o'.

End Vocabulary.

(** ** The scalar type as the real numbers *)

(** [a < b] on the reals. *)
Definition Rltb (a b : R) : bool := if Rlt_dec a b then true else false.

(** [int(x)]: the conversion to [int] truncates towards zero. *)
Definition Rtrunc (x : R) : Z := if Rle_dec 0 x then Zfloor x else Zceil x.

(** Modelled from the spec: the declaration of [Real] is in Essentia's
    [types.h], which is not among the sources; the specification has the
    matrices and the differentials hold real numbers.  [log] is the natural
    logarithm and [real_max] the largest finite single-precision value.
    Rounding is not part of this instance: an equality that holds in it
    need not hold of the program, whose [Real] rounds (see
    [float_scalar]). *)
#[export] Instance real_scalar : Scalar R := {|
  of_int := IZR;
  to_int := Rtrunc;
  radd := Rplus;
  rsub := Rminus;
  rmul := Rmult;
  rdiv := Rdiv;
  rlt := Rltb;
  rlog := ln;
  real_max := 340282346638528859811704183484516925440%R;
  one_half := 0.5%R;
  cov_floor := 1e-5%R
|}.

(** ** The scalar type as a binary floating-point format *)

Section Floating.

(** The precision and the exponent bound of the format: [24] and [128] for
    single precision, [53] and [1024] for double precision. *)
Variables prec emax : Z.

(** [log]: the source calls the library's. *)
Variable flog : spec_float -> spec_float.

(** [Real(n)]: the nearest value of the format. *)
Definition float_of_int (n : Z) : spec_float :=
  binary_normalize prec emax n 0 false.

(** [int(x)] truncates towards zero; the conversion of an infinity or of a
    NaN is undefined in C++ and is [0] here. *)
Definition float_to_int (x : spec_float) : Z :=
  match x with
  | S754_finite s m e =>
      let v := if 0 <=? e then Z.pos m * 2 ^ e
               else Z.quot (Z.pos m) (2 ^ (- e)) in
      if s then - v else v
  | _ => 0
  end.

(** Modelled from the spec: the declaration of [Real] is in Essentia's
    [types.h], which is not among the sources; the source and the
    specification have it a floating-point type that rounds.  Every
    operation is rounded to nearest, ties to even.  The literal [1e-5] of
    the comparison [diag_cov > 1e-5] is a [double]; in both formats the
    nearest value of the format is not above it, so that [diag_cov] is above
    the one exactly when it is above the other. *)
Definition float_scalar : Scalar spec_float := {|
  of_int := float_of_int;
  to_int := float_to_int;
  radd := SFadd prec emax;
  rsub := SFsub prec emax;
  rmul := SFmul prec emax;
  rdiv := SFdiv prec emax;
  rlt := SFltb;
  rlog := flog;
  real_max := S754_finite false (Z.to_pos (2 ^ prec - 1)) (emax - prec);
  one_half := SFdiv prec emax (float_of_int 1) (float_of_int 2);
  cov_floor := SFdiv prec emax (float_of_int 1) (float_of_int 100000)
|}.

End Floating.

(** Single and double precision. *)
Definition binary32 (flog : spec_float -> spec_float) : Scalar spec_float :=
  float_scalar 24 128 flog.

Definition binary64 (flog : spec_float -> spec_float) : Scalar spec_float :=
  float_scalar 53 1024 flog.

(** One feature over 31 frames, every entry the same. *)
Definition thirty_one (x : Z) : list (list Z) := [repeat x 31].

(** One feature over 7 frames in double precision, every entry
    [310000.5]. *)
Definition seven_halves : Array2D spec_float :=
  mkArray2D 1 7 (fun _ _ => binary_normalize 53 1024 620001 (-1) false).

(** ** The log-determinant as the specification words it *)

(** The sum of [f j] over the indices [j] of [js]. *)
Definition Rsum (f : Z -> R) (js : list Z) : R :=
  fold_right (fun j acc => (f j + acc)%R) 0%R js.

(** [sumSq/d2 - (sum/d2)^2] for feature [i], from the sum and the sum of
    squares across the frames. *)
Definition diagCov (m : Array2D R) (i : Z) : R :=
  let d2 := IZR (dim2 m) in
  let sum := Rsum (fun j => elem m i j) (upto (dim2 m)) in
  let sumSq := Rsum (fun j => (elem m i j * elem m i j)%R) (upto (dim2 m)) in
  (sumSq / d2 - (sum / d2) * (sum / d2))%R.

(** The sum over the features of [log(diagCov)] when [diagCov > 1e-5] and
    of the floor [-5] otherwise. *)
Definition logDet_spec (m : Array2D R) : R :=
  Rsum (fun i => if Rltb 1e-5 (diagCov m i) then ln (diagCov m i) else (-5)%R)
    (upto (dim1 m)).

(** ** The positions a search goes through *)

(** The [k]-th position of a scan with step [inc]: [inc-1], [2*inc-1], ... *)
Definition scan_position (inc : Z) (k : nat) : Z := inc - 1 + Z.of_nat k * inc.

(** What the loop of [bicChangeSearch] keeps true over the real numbers:
    [d] holds the differentials of the positions gone through, in order;
    [dmin] is the least of them and of its initial value; [seg] is the first
    position whose differential is [dmin], when one is below the initial
    value. *)
Definition search_min_inv (cfg : config R) (cp : R) (m : Array2D R) (inc : Z)
    (st : search_state R) : Prop :=
  shift st = scan_position inc (length (d st)) /\
  (forall k v, d st !! k = Some v ->
     scan_position inc k < dim2 m - inc /\
     dBicValue cfg cp m (scan_position inc k) = Ok v) /\
  (forall v, In v (d st) -> (dmin st <= v)%R) /\
  ((seg st = 0 /\ dmin st = real_max) \/
   (exists k, d st !! k = Some (dmin st) /\ seg st = scan_position inc k /\
              (dmin st < real_max)%R /\
              forall j v, (j < k)%nat -> d st !! j = Some v -> (dmin st < v)%R)).

(** ** Matrices of integers

    The inputs the examples run on, and the integer arithmetic that gives
    the log-determinant of their windows. *)

(** A matrix of integers, given by its rows. *)
Definition from_rows {Real : Type} {scalar : Scalar Real} (rows : list (list Z))
    : Array2D Real :=
  mkArray2D (size rows)
    (match rows with [] => 0 | row :: _ => size row end)
    (fun i j => of_int (nth (Z.to_nat j) (nth (Z.to_nat i) rows []) 0)).

(** The entries of a row in the columns [a], ..., [b]. *)
Definition row_cols (row : list Z) (a b : Z) : list Z :=
  firstn (Z.to_nat (b - a + 1)) (skipn (Z.to_nat a) row).

Definition Zsum (xs : list Z) : Z := fold_right Z.add 0 xs.

(** What a feature adds to the log-determinant: the floor, or the logarithm
    of a fraction. *)
Inductive cov_term : Type :=
| Floor
| LogOf (num den : Z).

Definition cov_term_of (xs : list Z) : cov_term :=
  let n := size xs in
  let c := n * Zsum (map (fun x => x * x) xs) - Zsum xs * Zsum xs in
  let d := n * n in
  if d <? 100000 * c
  then let g := Z.gcd c d in LogOf (c / g) (d / g)
  else Floor.

Definition term_value (t : cov_term) : R :=
  match t with
  | Floor => (-5)%R
  | LogOf c d => ln (IZR c / IZR d)
  end.

Definition logDet_terms (rows : list (list Z)) (a b : Z) : list cov_term :=
  map (fun row => cov_term_of (row_cols row a b)) rows.

Definition terms_value (ts : list cov_term) : R :=
  fold_right (fun t acc => (term_value t + acc)%R) 0%R ts.

Definition rows_reach (rows : list (list Z)) (b : Z) : bool :=
  forallb (fun row => b <? size row) rows.

(** ** The inputs of the examples *)

(** [size1 = 3], [inc1 = 1], [size2 = 2], [inc2 = 2], [cpw = 1]. *)
Definition example_cfg : config R := mkConfig 3 1 2 2 1%R.

(** As [example_cfg], with [inc1 = 2] and no penalty ([cpw = 0]). *)
Definition no_penalty_cfg : config R := mkConfig 3 2 2 2 0%R.

(** The parameters of a run with a step of two frames. *)
Definition wide_step_cfg : config R := mkConfig 3 2 2 2 1%R.

(** One feature over four frames: a single frame that stands out. *)
Definition spike : Array2D R := from_rows [[0; 0; 2; 0]].

(** One feature over four frames: a step after the second frame. *)
Definition step_then_flat : Array2D R := from_rows [[0; 0; 2; 2]].

(** One feature over four frames: a step before the last frame. *)
Definition late_step : Array2D R := from_rows [[0; 0; 0; 2]].

(** One feature over four frames, all equal. *)
Definition flat : Array2D R := from_rows [[0; 0; 0; 0]].

(** One feature over eight frames. *)
Definition two_bursts : Array2D R := from_rows [[0; 0; 4; 2; 0; 0; 2; 4]].

(** Two features over three frames, every entry equal. *)
Definition constant_matrix : Array2D R := from_rows [[7; 7; 7]; [7; 7; 7]].

(** Four frames of no feature. *)
Definition no_features : Array2D R := mkArray2D 0 4 (fun _ _ => 0%R).

(** Three entries of Segmentation with their values, as the third pass can
    be given them. *)
Definition three_entries : outputs R :=
  mkOutputs [1%R; 4%R; 7%R] [0%R; 0%R; 0%R] [].

(** * Properties *)

(** ** Outcomes and loops *)

Section Loops.

Context {Real : Type} {scalar : Scalar Real}.

Lemma bind_Ok {A B : Type} (x : outcome Real A) (f : A -> outcome Real B) (b : B) :
  bind x f = Ok b -> exists a, x = Ok a /\ f a = Ok b.
Proof. destruct x; simpl; intros H; try discriminate. eauto. Qed.

Lemma no_throw_Ok {A : Type} (a : A) : no_throw (@Ok Real A a).
Proof. intros o; discriminate. Qed.

Lemma no_throw_Undefined {A : Type} : no_throw (@Undefined Real A).
Proof. intros o; discriminate. Qed.

Lemma no_throw_OutOfFuel {A : Type} : no_throw (@OutOfFuel Real A).
Proof. intros o; discriminate. Qed.

Lemma no_throw_bind {A B : Type} (x : outcome Real A) (f : A -> outcome Real B) :
  no_throw x -> (forall a, no_throw (f a)) -> no_throw (bind x f).
Proof.
  intros Hx Hf o. destruct x as [a| o' | |]; simpl; try discriminate.
  - apply Hf.
  - intros _. exact (Hx o' eq_refl).
Qed.

Lemma within_bound_Ok {A : Type} (a : A) : within_bound (@Ok Real A a).
Proof. discriminate. Qed.

Lemma within_bound_Undefined {A : Type} : within_bound (@Undefined Real A).
Proof. discriminate. Qed.

Lemma within_bound_bind {A B : Type} (x : outcome Real A) (f : A -> outcome Real B) :
  within_bound x -> (forall a, within_bound (f a)) -> within_bound (bind x f).
Proof.
  intros Hx Hf. destruct x as [a| o | |]; simpl; try discriminate.
  - apply Hf.
  - contradiction Hx. reflexivity.
Qed.

Lemma no_throw_while {St : Type} (cond : St -> bool)
    (body : St -> outcome Real St) :
  (forall st, no_throw (body st)) ->
  forall fuel st, no_throw (while fuel cond body st).
Proof.
  intros Hbody fuel. induction fuel as [|fuel IH]; intros st; simpl.
  - destruct (cond st); [apply no_throw_OutOfFuel | apply no_throw_Ok].
  - destruct (cond st); [| apply no_throw_Ok].
    apply no_throw_bind; auto.
Qed.

Lemma reaches_invariant {St : Type} (cond : St -> bool)
    (body : St -> outcome Real St) (P : St -> Prop) :
  (forall st st', P st -> cond st = true -> body st = Ok st' -> P st') ->
  forall st st', reaches cond body st st' -> P st -> P st'.
Proof. intros Hstep st st' Hr. induction Hr; eauto. Qed.

Lemma while_reaches {St : Type} (cond : St -> bool)
    (body : St -> outcome Real St) :
  forall fuel st st',
    while fuel cond body st = Ok st' ->
    reaches cond body st st' /\ cond st' = false.
Proof.
  induction fuel as [|fuel IH]; intros st st'; simpl.
  - destruct (cond st) eqn:Hc; [discriminate|].
    intros [= <-]. split; [constructor | assumption].
  - destruct (cond st) eqn:Hc.
    + intros H. apply bind_Ok in H as (st1 & Hb & Hw).
      apply IH in Hw as [Hr Hc']. split; [| assumption].
      econstructor; eassumption.
    + intros [= <-]. split; [constructor | assumption].
Qed.

Lemma while_invariant {St : Type} (cond : St -> bool)
    (body : St -> outcome Real St) (P : St -> Prop) :
  (forall st st', P st -> cond st = true -> body st = Ok st' -> P st') ->
  forall fuel st st',
    P st -> while fuel cond body st = Ok st' -> P st' /\ cond st' = false.
Proof.
  intros Hstep fuel st st' HP Hw.
  apply while_reaches in Hw as [Hr Hc]. split; [| assumption].
  eapply reaches_invariant; eassumption.
Qed.

(** A loop whose body decreases a measure exits within that many
    iterations. *)
Lemma while_enough_fuel {St : Type} (cond : St -> bool)
    (body : St -> outcome Real St) (P : St -> Prop) (measure : St -> nat) :
  (forall st, P st -> cond st = true ->
              (0 < measure st)%nat /\ body st <> OutOfFuel) ->
  (forall st st', P st -> cond st = true -> body st = Ok st' ->
                  P st' /\ (measure st' < measure st)%nat) ->
  forall fuel st,
    P st -> (measure st <= fuel)%nat -> while fuel cond body st <> OutOfFuel.
Proof.
  intros Hfuel Hstep fuel. induction fuel as [|fuel IH]; intros st HP Hm; simpl.
  - destruct (cond st) eqn:Hc; [| discriminate].
    destruct (Hfuel st HP Hc) as [Hpos _]. lia.
  - destruct (cond st) eqn:Hc; [| discriminate].
    destruct (Hfuel st HP Hc) as [_ Hne].
    destruct (body st) as [st'| | |] eqn:Hb; simpl; try discriminate.
    + destruct (Hstep st st' HP Hc Hb) as [HP' Hlt].
      apply IH; [assumption | lia].
    + congruence.
Qed.

(** Total correctness of a loop: an invariant under which the body returns
    and decreases a measure. *)
Lemma while_total {St : Type} (cond : St -> bool)
    (body : St -> outcome Real St) (P : St -> Prop) (measure : St -> nat) :
  (forall st, P st -> cond st = true ->
     (0 < measure st)%nat /\
     exists st', body st = Ok st' /\ P st' /\ (measure st' < measure st)%nat) ->
  forall fuel st,
    P st -> (measure st <= fuel)%nat ->
    exists st', while fuel cond body st = Ok st' /\ P st' /\ cond st' = false.
Proof.
  intros Hstep fuel. induction fuel as [|fuel IH]; intros st HP Hm; simpl.
  - destruct (cond st) eqn:Hc; [| eauto].
    destruct (Hstep st HP Hc) as [Hpos _]. lia.
  - destruct (cond st) eqn:Hc; [| eauto].
    destruct (Hstep st HP Hc) as (_ & st' & Hb & HP' & Hlt).
    rewrite Hb. simpl. apply IH; [assumption | lia].
Qed.

Lemma while_step {St : Type} (fuel : nat) (cond : St -> bool)
    (body : St -> outcome Real St) (st st' : St) :
  cond st = true -> body st = Ok st' ->
  while (S fuel) cond body st = while fuel cond body st'.
Proof. intros Hc Hb. simpl. rewrite Hc, Hb. reflexivity. Qed.

Lemma while_exit {St : Type} (fuel : nat) (cond : St -> bool)
    (body : St -> outcome Real St) (st : St) :
  cond st = false -> while fuel cond body st = Ok st.
Proof. intros Hc. destruct fuel; simpl; rewrite Hc; reflexivity. Qed.

Lemma while_stuck {St : Type} (fuel : nat) (cond : St -> bool)
    (body : St -> outcome Real St) (st : St) :
  cond st = true -> body st = Undefined ->
  while (S fuel) cond body st = Undefined.
Proof. intros Hc Hb. simpl. rewrite Hc, Hb. reflexivity. Qed.

End Loops.

(** ** Windows and the change search *)

Section Pipeline.

Context {Real : Type} {scalar : Scalar Real} (cfg : config Real).

Lemma subarray_no_throw (m : Array2D Real) (i0 i1 j0 j1 : Z) :
  no_throw (subarray m i0 i1 j0 j1).
Proof.
  unfold subarray.
  repeat match goal with |- context [if ?c then _ else _] => destruct c end;
    auto using @no_throw_Ok, @no_throw_Undefined.
Qed.

(** A window is either the null array or the requested block of columns,
    which then lies inside the matrix. *)
Lemma subarray_Ok (m w : Array2D Real) (i0 i1 j0 j1 : Z) :
  subarray m i0 i1 j0 j1 = Ok w ->
  (w = null_array /\ (i1 < i0 \/ j1 < j0)) \/
  (i0 <= i1 /\ 0 <= j0 <= j1 /\ j1 < dim2 m /\ 0 <= i0 /\ i1 < dim1 m /\
   w = mkArray2D (i1 - i0 + 1) (j1 - j0 + 1)
         (fun i j => elem m (i + i0) (j + j0))).
Proof.
  unfold subarray.
  destruct (_ || _) eqn:Hnull.
  - intros [= <-]. left. split; [reflexivity | lia].
  - destruct (_ && _) eqn:Hin; [| discriminate].
    intros [= <-]. right. repeat split; try reflexivity; lia.
Qed.

(** The columns of the features a window is asked for, when they lie inside
    the matrix, are a window. *)
Lemma subarray_in_range (m : Array2D Real) (j0 j1 : Z) :
  0 <= j0 -> j1 < dim2 m ->
  exists w, subarray m 0 (dim1 m - 1) j0 j1 = Ok w.
Proof.
  intros H0 H1. unfold subarray.
  destruct (_ || _); [eauto |].
  replace (_ && _) with true; [eauto |].
  symmetry. rewrite !andb_true_iff. repeat split; lia.
Qed.

Lemma dBicValue_no_throw (cp : Real) (m : Array2D Real) (s : Z) :
  no_throw (dBicValue cfg cp m s).
Proof.
  unfold dBicValue.
  repeat (apply no_throw_bind; [apply subarray_no_throw | intros ?]).
  apply no_throw_Ok.
Qed.

Lemma dBicValue_in_range (cp : Real) (m : Array2D Real) (s : Z) :
  -1 <= s -> s < dim2 m ->
  exists v, dBicValue cfg cp m s = Ok v.
Proof.
  intros H0 H1. unfold dBicValue.
  destruct (subarray_in_range m 0 s) as [w1 ->]; [lia | lia |].
  destruct (subarray_in_range m (s + 1) (dim2 m - 1)) as [w2 ->]; [lia | lia |].
  simpl. eauto.
Qed.

Lemma search_body_no_throw (cp : Real) (m : Array2D Real) (inc : Z)
    (st : search_state Real) :
  no_throw (search_body cfg cp m inc st).
Proof.
  unfold search_body.
  apply no_throw_bind; [apply dBicValue_no_throw | intros v].
  destruct (rlt _ _); apply no_throw_Ok.
Qed.

Lemma search_inv_init (m : Array2D Real) (inc : Z) :
  search_inv m inc (mkSearch (inc - 1) 0 real_max []).
Proof. split; simpl; [lia | auto]. Qed.

Lemma search_inv_step (cp : Real) (m : Array2D Real) (inc : Z)
    (st st' : search_state Real) :
  1 <= inc ->
  search_inv m inc st -> search_cond m inc st = true ->
  search_body cfg cp m inc st = Ok st' -> search_inv m inc st'.
Proof.
  intros Hinc [Hshift Hseg] Hc Hb.
  unfold search_cond in Hc. apply Z.ltb_lt in Hc.
  unfold search_body in Hb. apply bind_Ok in Hb as (v & _ & Hb).
  assert (inc - 1 <= shift st) by nia.
  destruct (rlt v (dmin st)); injection Hb as <-; unfold search_inv, push_back;
    simpl; rewrite length_app; simpl; (split; [lia |]).
  - right. lia.
  - assumption.
Qed.

(** [logDet] reads the dimensions and the elements inside them. *)
Lemma fold_left_ext_in {A B : Type} (f g : A -> B -> A) (l : list B) (a : A) :
  (forall acc x, In x l -> f acc x = g acc x) ->
  fold_left f l a = fold_left g l a.
Proof.
  revert a. induction l as [|x l IH]; intros a H; simpl; [reflexivity |].
  rewrite (H a x) by (left; reflexivity). apply IH.
  intros acc y Hy. apply H. right. exact Hy.
Qed.

Lemma upto_In (n j : Z) : In j (upto n) -> 0 <= j < n.
Proof.
  unfold upto. rewrite in_map_iff. intros (k & <- & Hk).
  apply in_seq in Hk. lia.
Qed.

Lemma logDet_ext (m m' : Array2D Real) :
  dim1 m = dim1 m' -> dim2 m = dim2 m' ->
  (forall i j, 0 <= i < dim1 m -> 0 <= j < dim2 m -> elem m i j = elem m' i j) ->
  logDet m = logDet m'.
Proof.
  intros H1 H2 He. unfold logDet. cbv zeta. rewrite <- H1, <- H2.
  apply fold_left_ext_in. intros logd i Hi. apply upto_In in Hi.
  assert (Hmp : forall f : Real -> Real,
            fold_left (fun acc j => (acc + f (elem m i j))%real) (upto (dim2 m)) (of_int 0)
            = fold_left (fun acc j => (acc + f (elem m' i j))%real) (upto (dim2 m)) (of_int 0)).
  { intros f. apply fold_left_ext_in. intros acc j Hj. apply upto_In in Hj.
    rewrite He by assumption. reflexivity. }
  pose proof (Hmp (fun x => x)) as Hsum.
  pose proof (Hmp (fun x => (x * x)%real)) as Hsq.
  cbv beta in Hsum, Hsq. rewrite Hsum, Hsq. reflexivity.
Qed.

Lemma subarray_cols (m : Array2D Real) (a b : Z) :
  1 <= dim1 m -> 0 <= a <= b -> b < dim2 m ->
  subarray m 0 (dim1 m - 1) a b = Ok (cols m a b).
Proof.
  intros Hd Hab Hb. unfold subarray, cols. cbv zeta.
  replace (_ || _) with false by (symmetry; apply orb_false_iff; lia).
  replace (_ && _) with true
    by (symmetry; rewrite !andb_true_iff; repeat split; lia).
  do 2 f_equal. lia.
Qed.

(** A range of the frames of a window is a window of the matrix. *)
Lemma subarray_of_cols (m : Array2D Real) (a b c e : Z) :
  1 <= dim1 m -> 0 <= c <= e -> e <= b - a ->
  exists w, subarray (cols m a b) 0 (dim1 (cols m a b) - 1) c e = Ok w /\
            logDet w = logDet (cols m (a + c) (a + e)).
Proof.
  intros Hd Hce He.
  rewrite subarray_cols by (simpl; lia).
  eexists. split; [reflexivity |].
  apply logDet_ext; simpl; try lia.
  intros i j _ _. f_equal; lia.
Qed.

(** The differential of the split after frame [s] of the window of the
    frames [a], ..., [b]. *)
Lemma dBicValue_cols (cp : Real) (m : Array2D Real) (a b s : Z) :
  1 <= dim1 m -> 0 <= s -> s + 1 <= b - a ->
  dBicValue cfg cp (cols m a b) s =
  Ok (one_half *
      (of_int (s + 1) * logDet (cols m a (a + s))
       + of_int (b - a + 1 - (s + 1)) * logDet (cols m (a + s + 1) b)
       - of_int (b - a + 1) * logDet (cols m a b)
       + penalty cfg cp (b - a + 1)))%real.
Proof.
  intros Hd Hs Hsb. unfold dBicValue. cbv zeta.
  destruct (subarray_of_cols m a b 0 s Hd) as (w1 & -> & H1); [lia | lia |].
  change (dim2 (cols m a b)) with (b - a + 1).
  destruct (subarray_of_cols m a b (s + 1) (b - a + 1 - 1) Hd)
    as (w2 & -> & H2); [lia | lia |].
  simpl. rewrite H1, H2.
  replace (a + 0) with a by lia.
  replace (a + (s + 1)) with (a + s + 1) by lia.
  replace (a + (b - a + 1 - 1)) with b by lia.
  reflexivity.
Qed.

Lemma logDet_null_array : logDet (null_array (Real:=Real)) = of_int 0.
Proof. reflexivity. Qed.

(** The differential [delta_bic] gives for the window of the frames [a],
    ..., [b]: the halves are the frames up to [int(segPoint)] and those from
    [int(segPoint + 1)]; the second half is the null array when it would
    begin after the window. *)
Lemma delta_bic_cols (cp : Real) (m : Array2D Real) (a b : Z) (segPoint : Real)
    (p q : Z) :
  1 <= dim1 m ->
  to_int segPoint = p -> to_int (segPoint + of_int 1)%real = q ->
  0 <= p <= b - a -> 0 <= q ->
  delta_bic cfg cp (cols m a b) segPoint =
  Ok (one_half *
      (segPoint * logDet (cols m a (a + p))
       + (of_int (b - a + 1) - segPoint)
         * (if q <=? b - a then logDet (cols m (a + q) b) else of_int 0)
       - of_int (b - a + 1) * logDet (cols m a b)
       + cpw cfg * cp * rlog (of_int (b - a + 1))))%real.
Proof.
  intros Hd Hp Hq Hpr Hq0. unfold delta_bic. cbv zeta. rewrite Hp, Hq.
  destruct (subarray_of_cols m a b 0 p Hd) as (w1 & -> & H1); [lia | lia |].
  change (dim2 (cols m a b)) with (b - a + 1).
  cbn [bind]. rewrite H1. replace (a + 0) with a by lia.
  destruct (q <=? b - a) eqn:Hqb.
  - apply Z.leb_le in Hqb.
    destruct (subarray_of_cols m a b q (b - a + 1 - 1) Hd)
      as (w2 & -> & H2); [lia | lia |].
    cbn [bind]. rewrite H2. replace (a + (b - a + 1 - 1)) with b by lia.
    reflexivity.
  - apply Z.leb_gt in Hqb. unfold subarray. cbv zeta.
    replace (_ || _) with true by (symmetry; apply orb_true_iff; right; lia).
    cbn [bind]. rewrite logDet_null_array. reflexivity.
Qed.

Lemma search_loop_total (cp : Real) (m : Array2D Real) (inc : Z) :
  1 <= inc ->
  exists st,
    while (Z.to_nat (dim2 m)) (search_cond m inc) (search_body cfg cp m inc)
      (mkSearch (inc - 1) 0 real_max []) = Ok st /\
    search_inv m inc st /\ search_cond m inc st = false.
Proof.
  intros Hinc.
  apply (while_total _ _ (search_inv m inc)
           (fun st => Z.to_nat (dim2 m - inc - shift st))).
  - intros st Hinv Hc. pose proof Hc as Hlt.
    unfold search_cond in Hlt. apply Z.ltb_lt in Hlt.
    split; [lia |].
    assert (Hge : inc - 1 <= shift st) by (destruct Hinv as [-> _]; nia).
    destruct (dBicValue_in_range cp m (shift st)) as [v Hv]; [lia | lia |].
    assert (Hb : exists st', search_body cfg cp m inc st = Ok st' /\
                             shift st' = shift st + inc).
    { unfold search_body. rewrite Hv. simpl.
      destruct (rlt v (dmin st)); eexists; split; reflexivity. }
    destruct Hb as (st' & Hb & Hs). exists st'. split; [assumption |].
    split; [eapply search_inv_step; eassumption | lia].
  - apply search_inv_init.
  - simpl. lia.
Qed.

(** With a step of at least one frame the search returns; the position it
    reports is [0] or a position inside the window, at least [inc] frames
    from its end. *)
Lemma bicChangeSearch_total (cp : Real) (m : Array2D Real) (inc current : Z) :
  1 <= inc -> real_max_positive ->
  exists first samples dmin',
    bicChangeSearch cfg cp m inc current = Ok (first, samples, dmin') /\
    (first = 0 \/
     exists s, first = current + s /\ inc - 1 <= s < dim2 m - inc).
Proof.
  intros Hinc Hmax. unfold bicChangeSearch.
  destruct (search_loop_total cp m inc Hinc) as (st & -> & [_ Hseg] & _).
  simpl. do 3 eexists. split; [reflexivity |].
  destruct Hseg as [[_ ->] | Hseg].
  - rewrite Hmax. left. reflexivity.
  - destruct (rlt _ _); [left; reflexivity | right; eauto].
Qed.

Lemma bicChangeSearch_no_throw (cp : Real) (m : Array2D Real) (inc current : Z) :
  no_throw (bicChangeSearch cfg cp m inc current).
Proof.
  unfold bicChangeSearch. apply no_throw_bind.
  - apply no_throw_while. intros st. apply search_body_no_throw.
  - intros st. apply no_throw_Ok.
Qed.

End Pipeline.

(** ** The passes of [compute] *)

Section Passes.

Context {Real : Type} {scalar : Scalar Real} (cfg : config Real).
Variable features : Array2D Real.

Lemma append_samples_no_throw (tmp : list Real) (offset n : Z) (bic : list Real) :
  no_throw (append_samples tmp offset n bic).
Proof.
  unfold append_samples.
  assert (H : forall (js : list Z) (acc : outcome Real (list Real)),
             no_throw acc ->
             no_throw (fold_left
               (fun acc j => bind acc (fun b =>
                  bind (vec_at tmp (j + offset)) (fun x => Ok (push_back b x))))
               js acc)).
  { induction js as [|j js IH]; intros acc Hacc; simpl; [assumption |].
    apply IH. apply no_throw_bind; [assumption | intros b].
    apply no_throw_bind; [| intros x; apply no_throw_Ok].
    unfold vec_at. destruct (_ <? _); [apply no_throw_Undefined |].
    destruct (_ !! _); [apply no_throw_Ok | apply no_throw_Undefined]. }
  apply H, no_throw_Ok.
Qed.

(** One iteration of the first pass that returns has searched the window
    from [currSeg] to the window end, and either found nothing and left the
    segmentation as it was, or appended the position found and its
    differential and restarted [inc1] frames after it. *)
Lemma coarse_body_Ok (cp : Real) (st st' : coarse_state Real) :
  coarse_body cfg features cp st = Ok st' ->
  exists w samples,
    subarray features 0 (dim1 features - 1) (c_currSeg st) (coarse_window_end cfg features st)
      = Ok w /\
    bicChangeSearch cfg cp w (inc1 cfg) (c_currSeg st)
      = Ok (c_i st', samples, c_dmin st') /\
    ((c_i st' = 0 /\
      c_currSeg st' = c_currSeg st /\ c_endSeg st' = coarse_window_end cfg features st /\
      segmentation (c_out st') = segmentation (c_out st) /\
      segValues (c_out st') = segValues (c_out st)) \/
     (c_i st' <> 0 /\
      c_currSeg st' = c_i st' + inc1 cfg /\ c_endSeg st' = c_i st' + inc1 cfg - 1 /\
      segmentation (c_out st') = push_back (segmentation (c_out st)) (of_int (c_i st')) /\
      segValues (c_out st') = push_back (segValues (c_out st)) (c_dmin st'))).
Proof.
  unfold coarse_body, coarse_window_end. cbv zeta. intros H.
  apply bind_Ok in H as (w & Hw & H).
  apply bind_Ok in H as ([[i samples] dm] & Hs & H).
  exists w, samples.
  apply bind_Ok in H as ([[cs es] o] & Hfound & H).
  apply bind_Ok in H as (bic' & _ & H). injection H as <-. simpl.
  split; [assumption |]. split; [assumption |].
  destruct (i =? 0) eqn:Hi; simpl in Hfound.
  - apply Z.eqb_eq in Hi. injection Hfound as <- <- <-. left. auto.
  - apply Z.eqb_neq in Hi.
    apply bind_Ok in Hfound as (bic1 & _ & Hfound).
    injection Hfound as <- <- <-. right. simpl. auto.
Qed.

(** *** Copying samples to BicValues *)

Lemma append_fold_Undefined (tmp : list Real) (offset : Z) (js : list Z) :
  fold_left
    (fun acc j => bind acc (fun b =>
       bind (vec_at tmp (j + offset)) (fun x => Ok (push_back b x))))
    js (@Undefined Real (list Real)) = Undefined.
Proof. induction js as [|j js IH]; simpl; [reflexivity | exact IH]. Qed.

Lemma append_fold_seq (tmp : list Real) (offset : Z) (len s : nat) (b : list Real) :
  0 <= offset ->
  fold_left
    (fun (acc : outcome Real (list Real)) j => bind acc (fun b =>
       bind (vec_at tmp (j + offset)) (fun x => Ok (push_back b x))))
    (map Z.of_nat (seq s len)) (Ok b)
  = if (s + Z.to_nat offset + len <=? length tmp)%nat
    then Ok (b ++ take len (drop (s + Z.to_nat offset) tmp))
    else if (len =? 0)%nat then Ok b else Undefined.
Proof.
  intros Hoff.
  set (step := fun (acc : outcome Real (list Real)) (j : Z) =>
                 bind acc (fun b =>
                   bind (vec_at tmp (j + offset)) (fun x => Ok (push_back b x)))).
  revert s b. induction len as [|len IH]; intros s b.
  - simpl. rewrite take_0, app_nil_r. destruct (_ <=? _)%nat; reflexivity.
  - cbn [seq map fold_left].
    assert (Hstep : step (Ok b) (Z.of_nat s)
                    = match tmp !! (s + Z.to_nat offset)%nat with
                      | Some x => Ok (push_back b x)
                      | None => Undefined
                      end).
    { unfold step, vec_at. cbn [bind].
      replace (Z.of_nat s + offset <? 0) with false
        by (symmetry; apply Z.ltb_ge; lia).
      replace (Z.to_nat (Z.of_nat s + offset)) with (s + Z.to_nat offset)%nat by lia.
      destruct (tmp !! _); reflexivity. }
    rewrite Hstep.
    destruct (tmp !! (s + Z.to_nat offset)%nat) as [x|] eqn:Hx.
    + rewrite IH. pose proof (lookup_lt_Some _ _ _ Hx) as Hlt.
      replace (S s + Z.to_nat offset)%nat with (S (s + Z.to_nat offset)) by lia.
      rewrite (drop_S _ _ _ Hx). unfold push_back. cbn [take]. rewrite <- app_assoc.
      cbn [app].
      destruct (S (s + Z.to_nat offset) + len <=? length tmp)%nat eqn:Hle.
      * replace (s + Z.to_nat offset + S len <=? length tmp)%nat with true
          by (symmetry; apply Nat.leb_le; apply Nat.leb_le in Hle; lia).
        reflexivity.
      * replace (s + Z.to_nat offset + S len <=? length tmp)%nat with false
          by (symmetry; apply Nat.leb_gt; apply Nat.leb_gt in Hle; lia).
        destruct len; [| reflexivity].
        apply Nat.leb_gt in Hle. lia.
    + unfold step. rewrite append_fold_Undefined. apply lookup_ge_None in Hx.
      replace (s + Z.to_nat offset + S len <=? length tmp)%nat with false
        by (symmetry; apply Nat.leb_gt; lia).
      reflexivity.
Qed.

(** The copy returns when all the indices it reads are inside the vector of
    samples, and is undefined when one is not. *)
Lemma append_samples_in_range (tmp : list Real) (offset n : Z) (bic : list Real) :
  0 <= offset -> 0 <= n -> offset + n <= size tmp ->
  append_samples tmp offset n bic
  = Ok (bic ++ take (Z.to_nat n) (drop (Z.to_nat offset) tmp)).
Proof.
  intros Hoff Hn0 Hn. unfold append_samples, upto. rewrite append_fold_seq by assumption.
  unfold size in Hn.
  replace (_ <=? _)%nat with true by (symmetry; apply Nat.leb_le; lia).
  reflexivity.
Qed.

Lemma append_samples_none (tmp : list Real) (offset n : Z) (bic : list Real) :
  n <= 0 -> append_samples tmp offset n bic = Ok bic.
Proof.
  intros Hn. unfold append_samples, upto.
  replace (Z.to_nat n) with 0%nat by lia. reflexivity.
Qed.

Lemma append_samples_out_of_range (tmp : list Real) (offset n : Z) (bic : list Real) :
  0 <= offset -> 1 <= n -> size tmp < offset + n ->
  append_samples tmp offset n bic = Undefined.
Proof.
  intros Hoff Hn Hlen. unfold append_samples, upto.
  rewrite append_fold_seq by assumption. unfold size in Hlen.
  replace (_ <=? _)%nat with false by (symmetry; apply Nat.leb_gt; lia).
  replace (Z.to_nat n =? 0)%nat with false by (symmetry; apply Nat.eqb_neq; lia).
  reflexivity.
Qed.

Lemma vec_at_Ok {A : Type} (v : list A) (i : Z) (x : A) :
  vec_at (Real:=Real) v i = Ok x -> 0 <= i /\ v !! Z.to_nat i = Some x.
Proof.
  unfold vec_at. destruct (i <? 0) eqn:Hi; [discriminate |].
  destruct (v !! Z.to_nat i) eqn:Hl; [| discriminate].
  intros [= <-]. split; [lia | reflexivity].
Qed.

Lemma vec_set_Ok {A : Type} (v v' : list A) (i : Z) (x : A) :
  vec_set (Real:=Real) v i x = Ok v' ->
  0 <= i /\ (Z.to_nat i < length v)%nat /\ v' = <[Z.to_nat i := x]> v.
Proof.
  unfold vec_set. destruct (_ || _) eqn:Hi; [discriminate |].
  intros [= <-]. repeat split; lia.
Qed.

Lemma vec_erase_Ok {A : Type} (v v' : list A) (i : Z) :
  vec_erase (Real:=Real) v i = Ok v' ->
  0 <= i /\ (Z.to_nat i < length v)%nat /\ v' = delete (Z.to_nat i) v.
Proof.
  unfold vec_erase. destruct (_ || _) eqn:Hi; [discriminate |].
  intros [= <-]. repeat split; lia.
Qed.

(** One iteration of the second pass that returns has left the outputs as
    they were, or written the stale [i] and the new [dmin] at [currIdx] of
    both vectors, or erased [currIdx] from both. *)
Lemma fine_body_Ok (cp : Real) (i : Z) (st st' : fine_state Real) :
  fine_body cfg features cp i st = Ok st' ->
  let k := Z.to_nat (f_currIdx st) in
  let o := f_out st in
  let o' := f_out st' in
  0 <= f_currIdx st /\
  ((f_currIdx st' = f_currIdx st + 1 /\ o' = o) \/
   (i <> 0 /\ f_currIdx st' = f_currIdx st + 1 /\
    (k < length (segmentation o))%nat /\ (k < length (segValues o))%nat /\
    segmentation o' = <[k := of_int i]> (segmentation o) /\
    segValues o' = <[k := f_dmin st']> (segValues o) /\
    bicValues o' = bicValues o) \/
   (i <> 0 /\ f_currIdx st' = f_currIdx st /\
    (k < length (segmentation o))%nat /\ (k < length (segValues o))%nat /\
    segmentation o' = delete k (segmentation o) /\
    segValues o' = delete k (segValues o) /\
    bicValues o' = bicValues o)).
Proof.
  unfold fine_body. cbv zeta. intros H.
  apply bind_Ok in H as (cur & Hcur & H). apply vec_at_Ok in Hcur as [Hidx _].
  apply bind_Ok in H as (w & _ & H).
  apply bind_Ok in H as ([[first samples] dm] & _ & H).
  split; [assumption |].
  destruct (i =? 0) eqn:Hi; simpl in H.
  { injection H as <-. left. auto. }
  apply Z.eqb_neq in Hi.
  apply bind_Ok in H as (prevSeg & _ & H).
  apply bind_Ok in H as (nextSeg & _ & H).
  destruct (_ && _).
  - destruct (negb _).
    + apply bind_Ok in H as (seg' & Hseg & H).
      apply bind_Ok in H as (segv' & Hsegv & H).
      apply vec_set_Ok in Hseg as (_ & ? & ->).
      apply vec_set_Ok in Hsegv as (_ & ? & ->).
      injection H as <-. right. left. simpl. auto 10.
    + injection H as <-. left. auto.
  - destruct (_ <? _).
    + apply bind_Ok in H as (seg' & Hseg & H).
      apply bind_Ok in H as (segv' & Hsegv & H).
      apply vec_erase_Ok in Hseg as (_ & ? & ->).
      apply vec_erase_Ok in Hsegv as (_ & ? & ->).
      injection H as <-. right. right. simpl.
      repeat split; try assumption; lia.
    + injection H as <-. left. auto.
Qed.

(** One iteration of the third pass that returns has left the outputs as
    they were and moved to the next entry, or erased entry [i] from both
    vectors and stayed. *)
Lemma validate_body_Ok (cp : Real) (st st' : validate_state Real) :
  validate_body cfg features cp st = Ok st' ->
  let k := Z.to_nat (v_i st) in
  let o := v_out st in
  let o' := v_out st' in
  (v_i st' = v_i st + 1 /\ o' = o) \/
  (v_i st' = v_i st /\ v_currSeg st' = v_currSeg st /\ 0 <= v_i st /\
   (k < length (segmentation o))%nat /\ (k < length (segValues o))%nat /\
   segmentation o' = delete k (segmentation o) /\
   segValues o' = delete k (segValues o) /\
   bicValues o' = bicValues o).
Proof.
  unfold validate_body. cbv zeta. intros H.
  apply bind_Ok in H as (next & _ & H).
  apply bind_Ok in H as (w & _ & H).
  apply bind_Ok in H as (cur & _ & H).
  apply bind_Ok in H as (prev & _ & H).
  apply bind_Ok in H as (delta & _ & H).
  destruct (rlt _ _).
  - apply bind_Ok in H as (seg' & Hseg & H).
    apply bind_Ok in H as (segv' & Hsegv & H).
    apply vec_erase_Ok in Hseg as (? & ? & ->).
    apply vec_erase_Ok in Hsegv as (_ & ? & ->).
    injection H as <-. right. simpl. repeat split; try assumption; lia.
  - injection H as <-. left. auto.
Qed.

Lemma vec_at_no_throw {A : Type} (v : list A) (i : Z) :
  no_throw (vec_at (Real:=Real) v i).
Proof.
  unfold vec_at. destruct (_ <? _); [apply no_throw_Undefined |].
  destruct (_ !! _); [apply no_throw_Ok | apply no_throw_Undefined].
Qed.

Lemma vec_set_no_throw {A : Type} (v : list A) (i : Z) (x : A) :
  no_throw (vec_set (Real:=Real) v i x).
Proof.
  unfold vec_set. destruct (_ || _); [apply no_throw_Undefined | apply no_throw_Ok].
Qed.

Lemma vec_erase_no_throw {A : Type} (v : list A) (i : Z) :
  no_throw (vec_erase (Real:=Real) v i).
Proof.
  unfold vec_erase. destruct (_ || _); [apply no_throw_Undefined | apply no_throw_Ok].
Qed.

Lemma delta_bic_no_throw (cp : Real) (m : Array2D Real) (segPoint : Real) :
  no_throw (delta_bic cfg cp m segPoint).
Proof.
  unfold delta_bic.
  repeat (apply no_throw_bind; [apply subarray_no_throw | intros ?]).
  apply no_throw_Ok.
Qed.

Create HintDb no_throw.

#[local] Hint Resolve no_throw_Ok no_throw_Undefined subarray_no_throw
  bicChangeSearch_no_throw append_samples_no_throw vec_at_no_throw
  vec_set_no_throw vec_erase_no_throw delta_bic_no_throw : no_throw.

Ltac no_throw_steps :=
  repeat first
    [ progress auto with no_throw
    | apply no_throw_bind; [| intros ?]
    | match goal with
      | |- no_throw (match ?x with _ => _ end) => destruct x
      | |- no_throw (let _ := _ in _) => cbv zeta
      end ].

Lemma coarse_body_no_throw (cp : Real) (st : coarse_state Real) :
  no_throw (coarse_body cfg features cp st).
Proof. unfold coarse_body. cbv zeta. no_throw_steps. Qed.

Lemma fine_body_no_throw (cp : Real) (i : Z) (st : fine_state Real) :
  no_throw (fine_body cfg features cp i st).
Proof. unfold fine_body. cbv zeta. no_throw_steps. Qed.

Lemma validate_body_no_throw (cp : Real) (st : validate_state Real) :
  no_throw (validate_body cfg features cp st).
Proof. unfold validate_body. cbv zeta. no_throw_steps. Qed.

Lemma length_delete_lt {A : Type} (l : list A) (k : nat) :
  (k < length l)%nat -> length (delete k l) = (length l - 1)%nat.
Proof. intros Hk. apply length_delete, lookup_lt_is_Some_2, Hk. Qed.

Lemma lockstep_same_size (o o' : outputs Real) :
  lockstep o o' -> same_size o -> same_size o'.
Proof.
  unfold same_size. intros [o1 o2 -> -> | o1 o2 x y -> -> | o1 o2 k x y ? ? -> ->
                           | o1 o2 k ? ? -> ->] Hs.
  - assumption.
  - rewrite !length_app. simpl. lia.
  - rewrite !length_insert. assumption.
  - rewrite !length_delete_lt by assumption. lia.
Qed.

Lemma coarse_body_lockstep (cp : Real) (st st' : coarse_state Real) :
  coarse_body cfg features cp st = Ok st' -> lockstep (c_out st) (c_out st').
Proof.
  intros H. apply coarse_body_Ok in H as (w & samples & _ & _ & H).
  destruct H as [(_ & _ & _ & Hseg & Hsegv) | (_ & _ & _ & Hseg & Hsegv)].
  - apply lockstep_keep; assumption.
  - eapply lockstep_push; eassumption.
Qed.

Lemma fine_body_lockstep (cp : Real) (i : Z) (st st' : fine_state Real) :
  fine_body cfg features cp i st = Ok st' -> lockstep (f_out st) (f_out st').
Proof.
  intros H. apply fine_body_Ok in H as (_ & H). cbv zeta in H.
  destruct H as [[_ ->] | [(_ & _ & ? & ? & ? & ? & _) | (_ & _ & ? & ? & ? & ? & _)]].
  - apply lockstep_keep; reflexivity.
  - eapply lockstep_replace; eassumption.
  - eapply lockstep_erase; eassumption.
Qed.

Lemma validate_body_lockstep (cp : Real) (st st' : validate_state Real) :
  validate_body cfg features cp st = Ok st' -> lockstep (v_out st) (v_out st').
Proof.
  intros H. apply validate_body_Ok in H. cbv zeta in H.
  destruct H as [[_ ->] | (_ & _ & _ & ? & ? & ? & ? & _)].
  - apply lockstep_keep; reflexivity.
  - eapply lockstep_erase; eassumption.
Qed.

(** C6.  Every iteration of the three loops changes Segmentation and
    SegValues together: the first pass appends one value to each, the second
    replaces or erases the values at the same index of both, the third
    erases the values at the same index of both.  Such a change keeps the two
    vectors of equal length, so they are of equal length in every state the
    three loops go through when they are at the start. *)
Theorem segmentation_and_segValues_change_together (cp : Real) :
  (forall st st', coarse_body cfg features cp st = Ok st' ->
                  lockstep (c_out st) (c_out st')) /\
  (forall i st st', fine_body cfg features cp i st = Ok st' ->
                    lockstep (f_out st) (f_out st')) /\
  (forall st st', validate_body cfg features cp st = Ok st' ->
                  lockstep (v_out st) (v_out st')) /\
  (forall o o' : outputs Real, lockstep o o' -> same_size o -> same_size o') /\
  (forall o : outputs Real, same_size o ->
     (forall c, reaches (coarse_cond features) (coarse_body cfg features cp)
                  (coarse_init o) c -> same_size (c_out c)) /\
     (forall i dm f, reaches fine_cond (fine_body cfg features cp i)
                       (mkFine 0 dm o) f -> same_size (f_out f)) /\
     (forall v, reaches validate_cond (validate_body cfg features cp)
                  (mkValidate 1 0 o) v -> same_size (v_out v))).
Proof.
  split; [apply coarse_body_lockstep |].
  split; [intros i; apply fine_body_lockstep |].
  split; [apply validate_body_lockstep |].
  split; [apply lockstep_same_size |].
  intros o Ho. repeat split.
  - intros c Hr.
    refine (reaches_invariant _ _ (fun st : coarse_state Real => same_size (c_out st)) _ _ _ Hr Ho).
    intros st st' Hs _ Hb.
    eapply lockstep_same_size; [eapply coarse_body_lockstep |]; eassumption.
  - intros i dm f Hr.
    refine (reaches_invariant _ _ (fun st : fine_state Real => same_size (f_out st)) _ _ _ Hr Ho).
    intros st st' Hs _ Hb.
    eapply lockstep_same_size; [eapply fine_body_lockstep |]; eassumption.
  - intros v Hr.
    refine (reaches_invariant _ _ (fun st : validate_state Real => same_size (v_out st)) _ _ _ Hr Ho).
    intros st st' Hs _ Hb.
    eapply lockstep_same_size; [eapply validate_body_lockstep |]; eassumption.
Qed.

Lemma fine_body_length (cp : Real) (i : Z) (st st' : fine_state Real) :
  fine_body cfg features cp i st = Ok st' ->
  (length (segmentation (f_out st')) <= length (segmentation (f_out st)))%nat.
Proof.
  intros H. apply fine_body_Ok in H as (_ & H). cbv zeta in H.
  destruct H as [[_ ->] | [(_ & _ & ? & _ & -> & _) | (_ & _ & ? & _ & -> & _)]].
  - lia.
  - rewrite length_insert. lia.
  - rewrite length_delete_lt by assumption. lia.
Qed.

Lemma validate_body_length (cp : Real) (st st' : validate_state Real) :
  validate_body cfg features cp st = Ok st' ->
  (length (segmentation (v_out st')) <= length (segmentation (v_out st)))%nat.
Proof.
  intros H. apply validate_body_Ok in H. cbv zeta in H.
  destruct H as [[_ ->] | (_ & _ & _ & ? & _ & -> & _)].
  - lia.
  - rewrite length_delete_lt by assumption. lia.
Qed.

(** C7.  The second and the third pass never add an entry: in every state
    their loops go through, and so when they return, Segmentation has at
    most the entries it had when the pass began.  In [compute] the second
    pass begins with the entries of the first and the third with those of
    the second. *)
Theorem later_passes_never_add_entries (cp : Real) (o : outputs Real) :
  (forall i dm f,
     reaches fine_cond (fine_body cfg features cp i) (mkFine 0 dm o) f ->
     (length (segmentation (f_out f)) <= length (segmentation o))%nat) /\
  (forall i dm f,
     fine_pass cfg features cp i dm o = Ok f ->
     (length (segmentation (f_out f)) <= length (segmentation o))%nat) /\
  (forall v,
     reaches validate_cond (validate_body cfg features cp) (mkValidate 1 0 o) v ->
     (length (segmentation (v_out v)) <= length (segmentation o))%nat) /\
  (forall o',
     validate_pass cfg features cp o = Ok o' ->
     (length (segmentation o') <= length (segmentation o))%nat).
Proof.
  assert (Hfine : forall i dm f,
     reaches fine_cond (fine_body cfg features cp i) (mkFine 0 dm o) f ->
     (length (segmentation (f_out f)) <= length (segmentation o))%nat).
  { intros i dm f Hr.
    refine (reaches_invariant _ _
      (fun st : fine_state Real => (length (segmentation (f_out st)) <= length (segmentation o))%nat)
      _ _ _ Hr _); [| simpl; lia].
    intros st st' Hle _ Hb. apply fine_body_length in Hb. lia. }
  assert (Hval : forall v,
     reaches validate_cond (validate_body cfg features cp) (mkValidate 1 0 o) v ->
     (length (segmentation (v_out v)) <= length (segmentation o))%nat).
  { intros v Hr.
    refine (reaches_invariant _ _
      (fun st : validate_state Real => (length (segmentation (v_out st)) <= length (segmentation o))%nat)
      _ _ _ Hr _); [| simpl; lia].
    intros st st' Hle _ Hb. apply validate_body_length in Hb. lia. }
  split; [exact Hfine |]. split; [| split; [exact Hval |]].
  - intros i dm f Hf. apply while_reaches in Hf as [Hr _]. eapply Hfine, Hr.
  - intros o'. unfold validate_pass. destruct (_ =? _).
    + intros [= <-]. lia.
    + intros H. apply bind_Ok in H as (v & Hw & [= <-]).
      apply while_reaches in Hw as [Hr _]. apply Hval, Hr.
Qed.

(** *** What the first pass keeps true *)

(** An iteration of the first pass that finds a change finds it inside the
    window, at least [inc1] frames before the window end. *)
Lemma coarse_body_found (cp : Real) (st st' : coarse_state Real) :
  1 <= inc1 cfg -> real_max_positive ->
  coarse_body cfg features cp st = Ok st' -> c_i st' <> 0 ->
  c_currSeg st <= c_i st' /\
  c_i st' + inc1 cfg <= coarse_window_end cfg features st /\
  0 <= c_currSeg st /\
  coarse_window_end cfg features st < dim2 features /\
  c_currSeg st' = c_i st' + inc1 cfg /\
  c_endSeg st' = c_i st' + inc1 cfg - 1 /\
  segmentation (c_out st') = segmentation (c_out st) ++ [of_int (c_i st')].
Proof.
  intros Hinc Hmax Hb Hi.
  apply coarse_body_Ok in Hb as (w & samples & Hw & Hs & Hcase).
  destruct Hcase as [[Hz _] | (_ & Hcur & Hend & Hseg & _)]; [contradiction |].
  destruct (bicChangeSearch_total cfg cp w (inc1 cfg) (c_currSeg st) Hinc Hmax)
    as (first & samples' & dm & Heq & Hfirst).
  rewrite Heq in Hs. injection Hs as Hf _ _. subst first.
  destruct Hfirst as [Hz | (s & Hfs & Hlo & Hhi)]; [contradiction |].
  apply subarray_Ok in Hw as [[-> _] | (_ & Hj & Hj1 & _ & _ & ->)];
    simpl in Hhi; [lia |].
  repeat split; try assumption; lia.
Qed.

Lemma coarse_inv_step (cp : Real) (st st' : coarse_state Real) :
  1 <= inc1 cfg -> real_max_positive ->
  coarse_inv features st -> coarse_body cfg features cp st = Ok st' ->
  coarse_inv features st'.
Proof.
  intros Hinc Hmax [Hcur _] Hb. unfold coarse_inv.
  destruct (Z.eq_dec (c_i st') 0) as [Hz | Hnz].
  - apply coarse_body_Ok in Hb as (w & samples & _ & _ & Hcase).
    destruct Hcase as [(_ & -> & _) | [Hnz _]]; [| contradiction].
    split; [assumption | intros; contradiction].
  - destruct (coarse_body_found cp st st' Hinc Hmax Hb Hnz)
      as (? & ? & ? & ? & -> & -> & _).
    split; [lia | intros _; lia].
Qed.

Lemma coarse_valid_step (cp : Real) (st st' : coarse_state Real) :
  1 <= inc1 cfg -> real_max_positive ->
  coarse_inv features st -> coarse_body cfg features cp st = Ok st' ->
  Forall (valid_frame features) (segmentation (c_out st)) ->
  Forall (valid_frame features) (segmentation (c_out st')).
Proof.
  intros Hinc Hmax [Hcur _] Hb Hall.
  destruct (Z.eq_dec (c_i st') 0) as [Hz | Hnz].
  - apply coarse_body_Ok in Hb as (w & samples & _ & _ & Hcase).
    destruct Hcase as [(_ & _ & _ & -> & _) | [Hnz _]]; [assumption | contradiction].
  - destruct (coarse_body_found cp st st' Hinc Hmax Hb Hnz)
      as (? & ? & ? & ? & _ & _ & ->).
    apply Forall_app. split; [assumption |].
    apply Forall_cons. split; [| apply Forall_nil_2].
    exists (c_i st'). split; [reflexivity | lia].
Qed.

(** The first pass leaves the loop with [i = 0]: an iteration that finds a
    change sets [endSeg] before the last frame, so another iteration
    follows it. *)
Lemma coarse_pass_leaves_i_zero (cp : Real) (o : outputs Real)
    (c : coarse_state Real) :
  1 <= inc1 cfg -> real_max_positive ->
  coarse_pass cfg features cp o = Ok c -> c_i c = 0.
Proof.
  intros Hinc Hmax Hc. unfold coarse_pass in Hc.
  apply (while_invariant _ _ (coarse_inv features)) in Hc as [[_ Hi] Hcond].
  - unfold coarse_cond in Hcond. apply Z.ltb_ge in Hcond.
    destruct (Z.eq_dec (c_i c) 0) as [Hz | Hnz]; [assumption |].
    specialize (Hi Hnz). lia.
  - intros st st' Hinv _ Hb. eapply coarse_inv_step; eassumption.
  - split; simpl; [lia | intros H; contradiction].
Qed.

(** With [i = 0] an iteration of the second pass changes no output. *)
Lemma fine_body_i_zero (cp : Real) (st st' : fine_state Real) :
  fine_body cfg features cp 0 st = Ok st' -> f_out st' = f_out st.
Proof.
  intros H. apply fine_body_Ok in H as (_ & H). cbv zeta in H.
  destruct H as [[_ ->] | [(Hi & _) | (Hi & _)]];
    [reflexivity | contradiction | contradiction].
Qed.

Lemma fine_reaches_i_zero (cp dm : Real) (o : outputs Real) (f : fine_state Real) :
  reaches fine_cond (fine_body cfg features cp 0) (mkFine 0 dm o) f ->
  f_out f = o.
Proof.
  intros Hr.
  refine (reaches_invariant _ _ (fun st : fine_state Real => f_out st = o)
            _ _ _ Hr eq_refl).
  intros st st' Ho _ Hb. apply fine_body_i_zero in Hb. congruence.
Qed.

(** The second pass of [compute] returns the outputs of the first pass
    unchanged, whatever its searches find. *)
Lemma fine_pass_after_coarse (cp : Real) (o : outputs Real)
    (c : coarse_state Real) (f : fine_state Real) :
  1 <= inc1 cfg -> real_max_positive ->
  coarse_pass cfg features cp o = Ok c ->
  fine_pass cfg features cp (c_i c) (c_dmin c) (c_out c) = Ok f ->
  f_out f = c_out c.
Proof.
  intros Hinc Hmax Hc Hf.
  rewrite (coarse_pass_leaves_i_zero cp o c Hinc Hmax Hc) in Hf.
  apply while_reaches in Hf as [Hr _]. eapply fine_reaches_i_zero, Hr.
Qed.

Lemma vec_at_in_range {A : Type} (v : list A) (i : Z) :
  0 <= i < size v -> exists x, vec_at (Real:=Real) v i = Ok x.
Proof.
  intros Hi. unfold vec_at, size in *.
  replace (i <? 0) with false by (symmetry; apply Z.ltb_ge; lia).
  destruct (lookup_lt_is_Some_2 v (Z.to_nat i)) as [x ->]; [lia | eauto].
Qed.

(** With [i = 0] and a scan step of at least one frame the second pass
    returns, with the outputs it was given. *)
Lemma fine_pass_i_zero (cp dm : Real) (o : outputs Real) :
  1 <= inc1 cfg -> real_max_positive ->
  exists f, fine_pass cfg features cp 0 dm o = Ok f /\ f_out f = o.
Proof.
  intros Hinc Hmax. unfold fine_pass.
  destruct (while_total fine_cond (fine_body cfg features cp 0)
              (fun st => f_out st = o /\ 0 <= f_currIdx st)
              (fun st => Z.to_nat (size (segmentation o) - f_currIdx st)))
    with (fuel := length (segmentation o)) (st := mkFine 0 dm o)
    as (f & Hf & [Ho _] & _).
  - intros st [Ho Hidx] Hc. unfold fine_cond in Hc. rewrite Ho in Hc.
    apply Z.ltb_lt in Hc. split; [lia |].
    unfold fine_body. cbv zeta. rewrite Ho.
    destruct (vec_at_in_range (segmentation o) (f_currIdx st)) as [cur ->]; [lia |].
    cbn [bind].
    match goal with
    | |- context [subarray features 0 _ ?a ?b] =>
        destruct (subarray_in_range features a b) as [w ->]
    end.
    { destruct (_ <? 0) eqn:Hlt; [lia | apply Z.ltb_ge in Hlt; lia]. }
    { destruct (_ >=? _) eqn:Hge; [lia |].
      rewrite Z.geb_leb in Hge. apply Z.leb_gt in Hge. lia. }
    cbn [bind].
    match goal with
    | |- context [bicChangeSearch cfg cp w (inc1 cfg) ?c] =>
        destruct (bicChangeSearch_total cfg cp w (inc1 cfg) c Hinc Hmax)
          as (first & samples & dm' & -> & _)
    end.
    cbn [bind negb Z.eqb]. eexists. split; [reflexivity |].
    cbn [f_out f_currIdx]. split; [split; [reflexivity | lia] | lia].
  - split; [reflexivity | simpl; lia].
  - unfold size. simpl. lia.
  - eauto.
Qed.

Lemma Forall_delete_valid (l : list Real) (k : nat) :
  Forall (valid_frame features) l -> Forall (valid_frame features) (delete k l).
Proof.
  intros H. rewrite delete_take_drop. apply Forall_app.
  split; [apply Forall_take | apply Forall_drop]; assumption.
Qed.

Lemma validate_body_valid (cp : Real) (st st' : validate_state Real) :
  validate_body cfg features cp st = Ok st' ->
  Forall (valid_frame features) (segmentation (v_out st)) ->
  Forall (valid_frame features) (segmentation (v_out st')).
Proof.
  intros H Hall. apply validate_body_Ok in H. cbv zeta in H.
  destruct H as [[_ ->] | (_ & _ & _ & _ & _ & -> & _)]; [assumption |].
  apply Forall_delete_valid, Hall.
Qed.

(** C10.  Run on empty output vectors with a scan step of at least one
    frame, [compute] only ever holds frame indices of the matrix in
    Segmentation: in every state the loop of the first pass goes through, in
    every state the loops of the second and the third pass go through after
    it, and in the Segmentation it returns, each value is [Real(k)] for an
    [int] [k] with [0 <= k <= nFrames - 1]. *)
Theorem segmentation_holds_frame_indices :
  1 <= inc1 cfg -> real_max_positive ->
  let cp := of_int (2 * dim1 features) in
  (forall c,
     reaches (coarse_cond features) (coarse_body cfg features cp)
       (coarse_init no_outputs) c ->
     Forall (valid_frame features) (segmentation (c_out c))) /\
  (forall c f,
     coarse_pass cfg features cp no_outputs = Ok c ->
     reaches fine_cond (fine_body cfg features cp (c_i c))
       (mkFine 0 (c_dmin c) (c_out c)) f ->
     Forall (valid_frame features) (segmentation (f_out f))) /\
  (forall c f v,
     coarse_pass cfg features cp no_outputs = Ok c ->
     fine_pass cfg features cp (c_i c) (c_dmin c) (c_out c) = Ok f ->
     reaches validate_cond (validate_body cfg features cp)
       (mkValidate 1 0 (f_out f)) v ->
     Forall (valid_frame features) (segmentation (v_out v))) /\
  (forall o',
     compute cfg features no_outputs = Ok o' ->
     Forall (valid_frame features) (segmentation o')).
Proof.
  intros Hinc Hmax cp.
  assert (Hcoarse : forall c,
     reaches (coarse_cond features) (coarse_body cfg features cp)
       (coarse_init no_outputs) c ->
     Forall (valid_frame features) (segmentation (c_out c))).
  { intros c Hr.
    refine (proj2 (reaches_invariant _ _
      (fun st : coarse_state Real =>
         coarse_inv features st /\
         Forall (valid_frame features) (segmentation (c_out st)))
      _ _ _ Hr _)).
    - intros st st' [Hinv Hall] _ Hb. split.
      + eapply coarse_inv_step; eassumption.
      + eapply coarse_valid_step; eassumption.
    - split; [split; simpl; [lia | intros H; contradiction] | apply Forall_nil_2]. }
  assert (Hfine : forall c f,
     coarse_pass cfg features cp no_outputs = Ok c ->
     reaches fine_cond (fine_body cfg features cp (c_i c))
       (mkFine 0 (c_dmin c) (c_out c)) f ->
     Forall (valid_frame features) (segmentation (f_out f))).
  { intros c f Hc Hr.
    rewrite (coarse_pass_leaves_i_zero cp _ c Hinc Hmax Hc) in Hr.
    rewrite (fine_reaches_i_zero _ _ _ _ Hr).
    apply Hcoarse. apply while_reaches in Hc as [Hc _]. exact Hc. }
  assert (Hval : forall c f v,
     coarse_pass cfg features cp no_outputs = Ok c ->
     fine_pass cfg features cp (c_i c) (c_dmin c) (c_out c) = Ok f ->
     reaches validate_cond (validate_body cfg features cp)
       (mkValidate 1 0 (f_out f)) v ->
     Forall (valid_frame features) (segmentation (v_out v))).
  { intros c f v Hc Hf Hr.
    refine (reaches_invariant _ _
      (fun st : validate_state Real =>
         Forall (valid_frame features) (segmentation (v_out st)))
      _ _ _ Hr _).
    - intros st st' Hall _ Hb. eapply validate_body_valid; eassumption.
    - simpl. apply (Hfine c f Hc). apply while_reaches in Hf as [Hf _]. exact Hf. }
  split; [exact Hcoarse |]. split; [exact Hfine |]. split; [exact Hval |].
  intros o'. unfold compute. cbv zeta. destruct (_ <? 2); [discriminate |].
  intros H. apply bind_Ok in H as (c & Hc & H).
  apply bind_Ok in H as (f & Hf & H).
  unfold validate_pass in H. destruct (_ =? 0).
  - injection H as <-. apply (Hfine c f Hc).
    apply while_reaches in Hf as [Hf _]. exact Hf.
  - apply bind_Ok in H as (v & Hv & [= <-]).
    apply while_reaches in Hv as [Hv _]. exact (Hval c f v Hc Hf Hv).
Qed.

(** *** Running the third pass twice *)

(** The third pass returns the outputs it was given or fewer entries. *)
Lemma validate_pass_same_or_fewer (cp : Real) (o o' : outputs Real) :
  validate_pass cfg features cp o = Ok o' ->
  o' = o \/ (length (segmentation o') < length (segmentation o))%nat.
Proof.
  unfold validate_pass. destruct (_ =? 0); [intros [= <-]; left; reflexivity |].
  intros H. apply bind_Ok in H as (st & Hw & [= <-]).
  apply (while_invariant _ _
           (fun st : validate_state Real =>
              v_out st = o \/
              (length (segmentation (v_out st)) < length (segmentation o))%nat))
    in Hw as [Hst _]; [exact Hst | | left; reflexivity].
  intros s1 s2 Hs1 _ Hb. apply validate_body_Ok in Hb. cbv zeta in Hb.
  destruct Hb as [[_ ->] | (_ & _ & _ & Hk & _ & Hseg & _)]; [exact Hs1 |].
  right. rewrite Hseg, length_delete_lt by exact Hk.
  destruct Hs1 as [Ho | Hlt]; [rewrite Ho in * |]; lia.
Qed.

(** With at most two entries the third pass has no entry to test. *)
Lemma validate_pass_up_to_two (cp : Real) (o : outputs Real) :
  (length (segmentation o) <= 2)%nat -> validate_pass cfg features cp o = Ok o.
Proof.
  intros Hlen. unfold validate_pass. destruct (_ =? 0); [reflexivity |].
  rewrite while_exit; [reflexivity |].
  unfold validate_cond, size. cbn [v_i v_out]. apply Z.ltb_ge. lia.
Qed.

(** C8, as the code has it.  On a Segmentation of at most three entries the
    third pass is idempotent: run again on the outputs it returned, it
    returns them unchanged.  (With more entries it need not be: an entry is
    tested on the window that ends at the entry after it, and that entry can
    be erased later in the same run.) *)
Theorem validate_pass_idempotent_up_to_three_entries (cp : Real)
    (o o' : outputs Real) :
  (length (segmentation o) <= 3)%nat ->
  validate_pass cfg features cp o = Ok o' ->
  validate_pass cfg features cp o' = Ok o'.
Proof.
  intros Hlen Hv.
  destruct (validate_pass_same_or_fewer cp o o' Hv) as [-> | Hlt];
    [exact Hv |].
  apply validate_pass_up_to_two. lia.
Qed.

(** C5.  [compute] throws exactly when the matrix has fewer than two frames;
    it does so before the first pass, so the exception leaves the three
    output vectors as they were given: nothing has been appended to
    Segmentation, SegValues or BicValues.  With two frames or more no part
    of [compute] throws. *)
Theorem compute_throws_iff_fewer_than_two_frames (o : outputs Real) :
  (dim2 features < 2 -> compute cfg features o = Throw o) /\
  (2 <= dim2 features -> forall o', compute cfg features o <> Throw o').
Proof.
  unfold compute. cbv zeta. split; intros Hn.
  - apply Z.ltb_lt in Hn. rewrite Hn. reflexivity.
  - apply Z.ltb_ge in Hn. rewrite Hn.
    change (no_throw
      (bind (coarse_pass cfg features (of_int (2 * dim1 features)) o) (fun c =>
       bind (fine_pass cfg features (of_int (2 * dim1 features))
               (c_i c) (c_dmin c) (c_out c)) (fun f =>
       validate_pass cfg features (of_int (2 * dim1 features)) (f_out f))))).
    apply no_throw_bind.
    { apply no_throw_while. apply coarse_body_no_throw. }
    intros c. apply no_throw_bind.
    { apply no_throw_while. apply fine_body_no_throw. }
    intros f. unfold validate_pass. destruct (_ =? _); [apply no_throw_Ok |].
    apply no_throw_bind; [| intros ?; apply no_throw_Ok].
    apply no_throw_while. apply validate_body_no_throw.
Qed.

(** *** The bounds on the loops *)

Lemma subarray_within_bound (m : Array2D Real) (i0 i1 j0 j1 : Z) :
  within_bound (subarray m i0 i1 j0 j1).
Proof.
  unfold subarray.
  repeat match goal with |- context [if ?c then _ else _] => destruct c end;
    discriminate.
Qed.

Lemma vec_at_within_bound {A : Type} (v : list A) (i : Z) :
  within_bound (vec_at (Real:=Real) v i).
Proof.
  unfold vec_at. destruct (_ <? _); [discriminate |].
  destruct (_ !! _); discriminate.
Qed.

Lemma vec_set_within_bound {A : Type} (v : list A) (i : Z) (x : A) :
  within_bound (vec_set (Real:=Real) v i x).
Proof. unfold vec_set. destruct (_ || _); discriminate. Qed.

Lemma vec_erase_within_bound {A : Type} (v : list A) (i : Z) :
  within_bound (vec_erase (Real:=Real) v i).
Proof. unfold vec_erase. destruct (_ || _); discriminate. Qed.

Lemma append_samples_within_bound (tmp : list Real) (offset n : Z)
    (bic : list Real) :
  within_bound (append_samples tmp offset n bic).
Proof.
  unfold append_samples. generalize (upto n) as js.
  assert (H : forall (js : list Z) (acc : outcome Real (list Real)),
             within_bound acc ->
             within_bound (fold_left
               (fun acc j => bind acc (fun b =>
                  bind (vec_at tmp (j + offset)) (fun x => Ok (push_back b x))))
               js acc)).
  { induction js as [|j js IH]; intros acc Hacc; simpl; [assumption |].
    apply IH. apply within_bound_bind; [assumption | intros b].
    apply within_bound_bind; [apply vec_at_within_bound |].
    intros x. apply within_bound_Ok. }
  intros js. apply H, within_bound_Ok.
Qed.

Lemma delta_bic_within_bound (cp : Real) (m : Array2D Real) (segPoint : Real) :
  within_bound (delta_bic cfg cp m segPoint).
Proof.
  unfold delta_bic.
  repeat (apply within_bound_bind; [apply subarray_within_bound | intros ?]).
  apply within_bound_Ok.
Qed.

(** The search goes through fewer positions than the window has frames. *)
Lemma bicChangeSearch_within_bound (cp : Real) (m : Array2D Real)
    (inc current : Z) :
  1 <= inc -> within_bound (bicChangeSearch cfg cp m inc current).
Proof.
  intros Hinc. unfold bicChangeSearch.
  destruct (search_loop_total cfg cp m inc Hinc) as (st & -> & _).
  apply within_bound_Ok.
Qed.

Create HintDb within_bound.

#[local] Hint Resolve within_bound_Ok within_bound_Undefined
  subarray_within_bound bicChangeSearch_within_bound
  append_samples_within_bound vec_at_within_bound vec_set_within_bound
  vec_erase_within_bound delta_bic_within_bound : within_bound.

Ltac within_bound_steps :=
  repeat first
    [ progress auto with within_bound
    | apply within_bound_bind; [| intros ?]
    | match goal with
      | |- within_bound (match ?x with _ => _ end) => destruct x
      | |- within_bound (let _ := _ in _) => cbv zeta
      end ].

Lemma coarse_body_within_bound (cp : Real) (st : coarse_state Real) :
  1 <= inc1 cfg -> within_bound (coarse_body cfg features cp st).
Proof. intros Hinc. unfold coarse_body. cbv zeta. within_bound_steps. Qed.

Lemma fine_body_within_bound (cp : Real) (i : Z) (st : fine_state Real) :
  1 <= inc1 cfg -> within_bound (fine_body cfg features cp i st).
Proof. intros Hinc. unfold fine_body. cbv zeta. within_bound_steps. Qed.

Lemma validate_body_within_bound (cp : Real) (st : validate_state Real) :
  within_bound (validate_body cfg features cp st).
Proof. unfold validate_body. cbv zeta. within_bound_steps. Qed.

(** An iteration of the first pass moves [endSeg] towards the last frame,
    or finds a change and restarts after it, further in the matrix. *)
Lemma coarse_cursor_step (cp : Real) (st st' : coarse_state Real) :
  1 <= size1 cfg -> 1 <= inc1 cfg -> real_max_positive ->
  coarse_cursor st -> coarse_cond features st = true ->
  coarse_body cfg features cp st = Ok st' ->
  coarse_cursor st' /\
  (coarse_measure features st' < coarse_measure features st)%nat.
Proof.
  intros Hsize Hinc Hmax [Hcur Hend] Hc Hb.
  unfold coarse_cond in Hc. apply Z.ltb_lt in Hc.
  unfold coarse_cursor, coarse_measure.
  destruct (Z.eq_dec (c_i st') 0) as [Hz | Hnz].
  - apply coarse_body_Ok in Hb as (w & samples & _ & _ & Hcase).
    destruct Hcase as [(_ & -> & -> & _) | [Hnz _]]; [| contradiction].
    unfold coarse_window_end. cbv zeta.
    destruct (_ >=? _) eqn:Hge.
    + split; [lia | nia].
    + rewrite Z.geb_leb in Hge. apply Z.leb_gt in Hge. split; [lia | nia].
  - destruct (coarse_body_found cp st st' Hinc Hmax Hb Hnz)
      as (Hlo & Hhi & _ & Hw & -> & -> & _).
    split; [lia | nia].
Qed.

(** The first pass exits within its bound, for a window and a step of at
    least one frame. *)
Lemma coarse_pass_within_bound (cp : Real) (o : outputs Real) :
  1 <= size1 cfg -> 1 <= inc1 cfg -> real_max_positive ->
  within_bound (coarse_pass cfg features cp o).
Proof.
  intros Hsize Hinc Hmax. unfold coarse_pass.
  apply (while_enough_fuel _ _ coarse_cursor (coarse_measure features)).
  - intros st [Hcur Hend] Hc. split; [| apply coarse_body_within_bound, Hinc].
    unfold coarse_cond in Hc. apply Z.ltb_lt in Hc.
    unfold coarse_measure. nia.
  - intros st st' Hinv Hc Hb. eapply coarse_cursor_step; eassumption.
  - unfold coarse_cursor, coarse_init. simpl. lia.
  - unfold coarse_measure, coarse_fuel, coarse_init. simpl. nia.
Qed.

(** The second pass exits within its bound: an iteration moves to the next
    entry or erases one. *)
Lemma fine_pass_within_bound (cp : Real) (i : Z) (dm : Real) (o : outputs Real) :
  1 <= inc1 cfg -> within_bound (fine_pass cfg features cp i dm o).
Proof.
  intros Hinc. unfold fine_pass.
  apply (while_enough_fuel _ _ (fun _ => True)
           (fun st => Z.to_nat (size (segmentation (f_out st)) - f_currIdx st))).
  - intros st _ Hc. split; [| apply fine_body_within_bound, Hinc].
    unfold fine_cond in Hc. apply Z.ltb_lt in Hc. lia.
  - intros st st' _ Hc Hb. split; [exact I |].
    unfold fine_cond in Hc. apply Z.ltb_lt in Hc.
    apply fine_body_Ok in Hb as (Hidx & Hb). cbv zeta in Hb. unfold size in *.
    destruct Hb as [[-> ->] | [(_ & -> & _ & _ & -> & _) | (_ & -> & Hk & _ & -> & _)]].
    + lia.
    + rewrite length_insert. lia.
    + rewrite length_delete_lt by exact Hk. lia.
  - exact I.
  - unfold size. simpl. lia.
Qed.

(** So does the third pass. *)
Lemma validate_pass_within_bound (cp : Real) (o : outputs Real) :
  within_bound (validate_pass cfg features cp o).
Proof.
  unfold validate_pass. destruct (_ =? 0); [apply within_bound_Ok |].
  apply within_bound_bind; [| intros st; apply within_bound_Ok].
  apply (while_enough_fuel _ _ (fun _ => True)
           (fun st => Z.to_nat (size (segmentation (v_out st)) - 1 - v_i st))).
  - intros st _ Hc. split; [| apply validate_body_within_bound].
    unfold validate_cond in Hc. apply Z.ltb_lt in Hc. lia.
  - intros st st' _ Hc Hb. split; [exact I |].
    unfold validate_cond in Hc. apply Z.ltb_lt in Hc.
    apply validate_body_Ok in Hb. cbv zeta in Hb. unfold size in *.
    destruct Hb as [[-> ->] | (-> & _ & _ & Hk & _ & -> & _)].
    + lia.
    + rewrite length_delete_lt by exact Hk. lia.
  - exact I.
  - unfold size. simpl. lia.
Qed.

(** X17.  With a window and a step of at least one frame every loop of
    [compute] exits: the first pass within [(nFrames + 1)^2] iterations, the
    searches within [nFrames] and the second and the third pass within the
    number of entries of Segmentation.  [compute] returns, throws or is
    undefined. *)
Theorem compute_within_bound (o : outputs Real) :
  1 <= size1 cfg -> 1 <= inc1 cfg -> real_max_positive ->
  within_bound (compute cfg features o).
Proof.
  intros Hsize Hinc Hmax. unfold compute. cbv zeta.
  destruct (_ <? 2); [discriminate |].
  apply within_bound_bind; [apply coarse_pass_within_bound; assumption |].
  intros c. apply within_bound_bind; [apply fine_pass_within_bound, Hinc |].
  intros f. apply validate_pass_within_bound.
Qed.

End Passes.

(** ** The log-determinant over the real numbers *)

Section LogDet.

#[local] Open Scope R_scope.

Ltac unfold_scalar :=
  cbn [of_int to_int radd rsub rmul rdiv rlt rlog real_max one_half cov_floor
       real_scalar] in *.

Lemma fold_left_Rsum (f : Z -> R) (js : list Z) (a : R) :
  fold_left (fun acc j => acc + f j) js a = a + Rsum f js.
Proof.
  revert a. induction js as [|j js IH]; intros a; simpl; [lra |].
  rewrite IH. lra.
Qed.

Lemma Rsum_ext (f g : Z -> R) (js : list Z) :
  (forall j, In j js -> f j = g j) -> Rsum f js = Rsum g js.
Proof.
  induction js as [|j js IH]; intros H; simpl; [reflexivity |].
  rewrite (H j), IH; [reflexivity | | ]; intros; try apply H; simpl; auto.
Qed.

Lemma Rsum_const (c : R) (js : list Z) :
  Rsum (fun _ => c) js = INR (length js) * c.
Proof.
  induction js as [|j js IH]; [simpl; lra |].
  change (length (j :: js)) with (S (length js)). rewrite S_INR.
  simpl. rewrite IH. lra.
Qed.

Lemma In_upto (n j : Z) : In j (upto n) <-> (0 <= j < n)%Z.
Proof.
  unfold upto. rewrite in_map_iff. split.
  - intros (k & <- & Hk). apply in_seq in Hk. lia.
  - intros Hj. exists (Z.to_nat j). split; [lia |]. apply in_seq. lia.
Qed.

Lemma length_upto (n : Z) : length (upto n) = Z.to_nat n.
Proof. unfold upto. rewrite length_map, length_seq. reflexivity. Qed.

Lemma INR_length_upto (n : Z) : (0 <= n)%Z -> INR (length (upto n)) = IZR n.
Proof.
  intros Hn. rewrite length_upto, INR_IZR_INZ, Z2Nat.id by assumption.
  reflexivity.
Qed.

(** The accumulators [mp[i]] and [vp[i]] are the sum and the sum of squares;
    [vp[j] * z - mp[j] * mp[j] * zz] is [sumSq/d2 - (sum/d2)^2]. *)
Lemma logDet_unfold (m : Array2D R) :
  (1 <= dim2 m)%Z ->
  logDet m = logDet_spec m.
Proof.
  intros Hd2. unfold logDet, logDet_spec. unfold_scalar. cbv zeta.
  rewrite fold_left_Rsum, Rplus_0_l.
  apply Rsum_ext. intros i _.
  rewrite !fold_left_Rsum, !Rplus_0_l.
  assert (Hd : IZR (dim2 m) <> 0) by (apply not_0_IZR; lia).
  replace (_ * (1 / IZR (dim2 m)) - _ * _ * _) with (diagCov m i);
    [reflexivity |].
  unfold diagCov. cbv zeta.
  change (fun j => elem m i j) with (elem m i). field. assumption.
Qed.

Lemma diagCov_constant (m : Array2D R) (c : R) (i : Z) :
  (1 <= dim2 m)%Z ->
  (forall j, (0 <= j < dim2 m)%Z -> elem m i j = c) ->
  diagCov m i = 0.
Proof.
  intros Hd2 Hc. unfold diagCov. cbv zeta.
  assert (Hsum : Rsum (fun j => elem m i j) (upto (dim2 m)) = IZR (dim2 m) * c).
  { rewrite (Rsum_ext _ (fun _ => c)).
    - rewrite Rsum_const, INR_length_upto by lia. reflexivity.
    - intros j Hj. apply In_upto in Hj. apply Hc. assumption. }
  assert (Hsq : Rsum (fun j => elem m i j * elem m i j) (upto (dim2 m))
                = IZR (dim2 m) * (c * c)).
  { rewrite (Rsum_ext _ (fun _ => c * c)).
    - rewrite Rsum_const, INR_length_upto by lia. reflexivity.
    - intros j Hj. apply In_upto in Hj. rewrite Hc by assumption. reflexivity. }
  rewrite Hsum, Hsq.
  assert (Hd : IZR (dim2 m) <> 0) by (apply not_0_IZR; lia).
  field. assumption.
Qed.

Lemma Rltb_true (a b : R) : a < b -> Rltb a b = true.
Proof. intros H. unfold Rltb. destruct (Rlt_dec a b); [reflexivity | contradiction]. Qed.

Lemma Rltb_false (a b : R) : b <= a -> Rltb a b = false.
Proof. intros H. unfold Rltb. destruct (Rlt_dec a b); [lra | reflexivity]. Qed.


End LogDet.

(** ** The log-determinant with rounding *)

Section Rounding.

Variable flog : spec_float -> spec_float.

(** [0 + y] is [y] or a zero. *)
Lemma SFadd_zero_l (prec emax : Z) (y : spec_float) :
  SFadd prec emax (S754_zero false) y = y \/
  exists s, SFadd prec emax (S754_zero false) y = S754_zero s.
Proof.
  destruct y as [s | s | | s m e]; cbn; try (left; reflexivity).
  right. exists false. destruct s; reflexivity.
Qed.

(** C2.  With rounding, [logDet] of a matrix whose entries are all the same
    is not always the floor [-5 * d1].  In single precision, on one feature
    over 31 frames that are all [12], the sum is [372], the sum of squares
    [4464], and [vp * z - mp * mp * zz] is [2^-16], which is above [1e-5]:
    [logDet] returns [0 + log(2^-16)] (about [-11.09]) whatever function
    computes [log], and so not [-5] unless that function returns [-5] there.
    On 31 frames that are all [0] it returns [-5].  In double precision 7
    frames that are all [310000.5] give [2^-16] as well. *)
Theorem logDet_of_equal_entries_is_not_always_the_floor :
  let diag_cov32 := S754_finite false 8388608 (-39) in
  let diag_cov64 := S754_finite false 4503599627370496 (-68) in
  SFltb (@cov_floor _ (binary32 flog)) diag_cov32 = true /\
  @logDet _ (binary32 flog) (@from_rows _ (binary32 flog) (thirty_one 12))
  = SFadd 24 128 (float_of_int 24 128 0) (flog diag_cov32) /\
  (flog diag_cov32 <> float_of_int 24 128 (-5) ->
   @logDet _ (binary32 flog) (@from_rows _ (binary32 flog) (thirty_one 12))
   <> float_of_int 24 128 (-5 * 1)) /\
  @logDet _ (binary32 flog) (@from_rows _ (binary32 flog) (thirty_one 0))
  = float_of_int 24 128 (-5 * 1) /\
  SFltb (@cov_floor _ (binary64 flog)) diag_cov64 = true /\
  @logDet _ (binary64 flog) seven_halves
  = SFadd 53 1024 (float_of_int 53 1024 0) (flog diag_cov64).
Proof.
  intros diag_cov32 diag_cov64.
  assert (H12 : @logDet _ (binary32 flog) (@from_rows _ (binary32 flog) (thirty_one 12))
                = SFadd 24 128 (float_of_int 24 128 0) (flog diag_cov32))
    by (vm_compute; reflexivity).
  split; [vm_compute; reflexivity |]. split; [exact H12 |].
  split.
  { intros Hlog. rewrite H12.
    change (float_of_int 24 128 0) with (S754_zero false).
    destruct (SFadd_zero_l 24 128 (flog diag_cov32)) as [-> | [s ->]];
      [exact Hlog | vm_compute; discriminate]. }
  split; [vm_compute; reflexivity |].
  split; vm_compute; reflexivity.
Qed.

End Rounding.

(** ** Windows of matrices of integers *)

Section IntegerWindows.

#[local] Open Scope R_scope.

Lemma upto_succ (n : nat) :
  upto (Z.of_nat (S n)) = 0%Z :: map Z.succ (upto (Z.of_nat n)).
Proof.
  unfold upto. rewrite !Nat2Z.id. simpl. f_equal.
  rewrite <- seq_shift, !map_map. apply map_ext. intros k. lia.
Qed.

Lemma Rsum_map (f : Z -> R) (g : Z -> Z) (js : list Z) :
  Rsum f (map g js) = Rsum (fun j => f (g j)) js.
Proof. induction js as [|j js IH]; simpl; [reflexivity | rewrite IH; reflexivity]. Qed.

(** A sum over the indices of a list is a sum over its elements. *)
Lemma Rsum_upto_nth {A : Type} (g : A -> R) (l : list A) (dflt : A) :
  Rsum (fun i => g (nth (Z.to_nat i) l dflt)) (upto (size l))
  = fold_right (fun x acc => g x + acc) 0 l.
Proof.
  induction l as [|x l IH]; [reflexivity |].
  unfold size in *. change (length (x :: l)) with (S (length l)).
  rewrite upto_succ. simpl. f_equal.
  rewrite Rsum_map, <- IH. apply Rsum_ext. intros j Hj.
  apply In_upto in Hj. replace (Z.to_nat (Z.succ j)) with (S (Z.to_nat j)) by lia.
  reflexivity.
Qed.

Lemma fold_IZR (xs : list Z) :
  fold_right (fun x acc => IZR x + acc) 0 xs = IZR (Zsum xs).
Proof.
  induction xs as [|x xs IH]; simpl; [reflexivity |].
  rewrite IH, plus_IZR. reflexivity.
Qed.

Lemma fold_IZR_sq (xs : list Z) :
  fold_right (fun x acc => IZR x * IZR x + acc) 0 xs
  = IZR (Zsum (map (fun x => (x * x)%Z) xs)).
Proof.
  induction xs as [|x xs IH]; simpl; [reflexivity |].
  rewrite IH, plus_IZR, mult_IZR. reflexivity.
Qed.

Lemma length_row_cols (row : list Z) (a b : Z) :
  (0 <= a <= b)%Z -> (b < size row)%Z -> size (row_cols row a b) = (b - a + 1)%Z.
Proof.
  intros Hab Hb. unfold row_cols, size in *.
  rewrite length_take, length_drop. lia.
Qed.

Lemma nth_row_cols (row : list Z) (a b j : Z) :
  (0 <= a <= b)%Z -> (0 <= j < b - a + 1)%Z ->
  nth (Z.to_nat j) (row_cols row a b) 0%Z = nth (Z.to_nat (j + a)) row 0%Z.
Proof.
  intros Hab Hj. unfold row_cols.
  rewrite nth_firstn. 
  replace (Z.to_nat j <? Z.to_nat (b - a + 1))%nat with true
    by (symmetry; apply Nat.ltb_lt; lia).
  rewrite nth_skipn. f_equal. lia.
Qed.

Lemma diagCov_from_rows (rows : list (list Z)) (a b i : Z) :
  (0 <= a <= b)%Z -> (0 <= i)%Z ->
  (b < size (nth (Z.to_nat i) rows []))%Z ->
  let xs := row_cols (nth (Z.to_nat i) rows []) a b in
  let n := size xs in
  diagCov (cols (from_rows rows) a b) i
  = IZR (n * Zsum (map (fun x => x * x)%Z xs) - Zsum xs * Zsum xs) / IZR (n * n).
Proof.
  intros Hab Hi Hb xs n.
  assert (Hn : n = (b - a + 1)%Z) by (apply length_row_cols; assumption).
  unfold diagCov. cbv zeta.
  change (dim2 (cols (from_rows rows) a b)) with (b - a + 1)%Z.
  rewrite <- Hn.
  assert (Hsum : Rsum (fun j => elem (cols (from_rows rows) a b) i j) (upto n)
                 = IZR (Zsum xs)).
  { rewrite <- fold_IZR. unfold n.
    rewrite <- (Rsum_upto_nth IZR xs 0%Z). apply Rsum_ext.
    intros j Hj. apply In_upto in Hj. fold n in Hj. simpl.
    unfold xs. rewrite nth_row_cols by lia.
    replace (i + 0)%Z with i by lia. reflexivity. }
  assert (Hsq : Rsum (fun j => elem (cols (from_rows rows) a b) i j
                               * elem (cols (from_rows rows) a b) i j) (upto n)
                = IZR (Zsum (map (fun x => x * x)%Z xs))).
  { rewrite <- fold_IZR_sq. unfold n.
    rewrite <- (Rsum_upto_nth (fun x => IZR x * IZR x) xs 0%Z). apply Rsum_ext.
    intros j Hj. apply In_upto in Hj. fold n in Hj. simpl.
    unfold xs. rewrite nth_row_cols by lia.
    replace (i + 0)%Z with i by lia. reflexivity. }
  rewrite Hsum, Hsq.
  assert (Hd : IZR n <> 0) by (apply not_0_IZR; lia).
  rewrite minus_IZR, !mult_IZR. field. assumption.
Qed.

Lemma term_value_cov_term_of (xs : list Z) :
  (1 <= size xs)%Z ->
  let n := size xs in
  let q := IZR (n * Zsum (map (fun x => x * x)%Z xs) - Zsum xs * Zsum xs)
           / IZR (n * n) in
  term_value (cov_term_of xs) = if Rltb 1e-5 q then ln q else -5.
Proof.
  intros Hn n q. unfold cov_term_of. fold n.
  set (c := (n * Zsum (map (fun x => x * x)%Z xs) - Zsum xs * Zsum xs)%Z) in *.
  set (d := (n * n)%Z) in *.
  assert (Hd : (0 < d)%Z) by (unfold d; nia).
  assert (HdR : 0 < IZR d) by (apply IZR_lt; assumption).
  assert (Hqd : q * IZR d = IZR c) by (unfold q; field; lra).
  destruct (d <? 100000 * c)%Z eqn:Hlt.
  - apply Z.ltb_lt in Hlt.
    assert (Hq : 1e-5 < q).
    { apply Rmult_lt_reg_r with (IZR d); [assumption |]. rewrite Hqd.
      apply IZR_lt in Hlt. rewrite mult_IZR in Hlt. lra. }
    rewrite (Rltb_true _ _ Hq). cbv zeta. simpl. f_equal.
    set (g := Z.gcd c d).
    assert (Hg : (0 < g)%Z).
    { pose proof (Z.gcd_nonneg c d).
      destruct (Z.eq_dec g 0%Z) as [Hz | Hnz]; [| fold g in H; lia].
      apply Z.gcd_eq_0_r in Hz. lia. }
    destruct (Z.gcd_divide_l c d) as [c' Hc]. fold g in Hc.
    destruct (Z.gcd_divide_r c d) as [d' Hd']. fold g in Hd'.
    unfold q. rewrite Hc at 1 2. rewrite Hd' at 1 2.
    rewrite !Z.div_mul by lia. rewrite !mult_IZR.
    assert (IZR g <> 0) by (apply not_0_IZR; lia).
    assert (IZR d' <> 0) by (apply not_0_IZR; nia).
    field. split; assumption.
  - apply Z.ltb_ge in Hlt.
    assert (Hq : q <= 1e-5).
    { apply Rmult_le_reg_r with (IZR d); [assumption |]. rewrite Hqd.
      apply IZR_le in Hlt. rewrite mult_IZR in Hlt. lra. }
    rewrite (Rltb_false _ _ Hq). reflexivity.
Qed.

Lemma rows_reach_nth (rows : list (list Z)) (b : Z) (i : nat) :
  rows_reach rows b = true -> (i < length rows)%nat ->
  (b < size (nth i rows []))%Z.
Proof.
  unfold rows_reach. rewrite forallb_forall. intros H Hi.
  apply Z.ltb_lt, H, nth_In, Hi.
Qed.

(** The log-determinant of a window of a matrix of integers, from integer
    arithmetic on its rows. *)
Lemma logDet_from_rows (rows : list (list Z)) (a b : Z) :
  (0 <= a <= b)%Z -> rows_reach rows b = true ->
  logDet (cols (from_rows rows) a b) = terms_value (logDet_terms rows a b).
Proof.
  intros Hab Hreach.
  rewrite logDet_unfold by (simpl; lia).
  unfold logDet_spec, terms_value, logDet_terms.
  change (dim1 (cols (from_rows rows) a b)) with (size rows).
  replace (fold_right _ 0 (map _ rows))
    with (fold_right
            (fun row acc => term_value (cov_term_of (row_cols row a b)) + acc) 0 rows)
    by (clear; induction rows as [|row rows' IH]; simpl; [| rewrite IH]; reflexivity).
  rewrite <- (Rsum_upto_nth (fun row => term_value (cov_term_of (row_cols row a b)))
                rows []).
  apply Rsum_ext. intros i Hi. apply In_upto in Hi. unfold size in Hi.
  assert (Hb : (b < size (nth (Z.to_nat i) rows []))%Z)
    by (apply rows_reach_nth; [assumption | lia]).
  rewrite term_value_cov_term_of
    by (rewrite length_row_cols by (assumption || lia); lia).
  cbv zeta. rewrite <- diagCov_from_rows by (assumption || lia).
  reflexivity.
Qed.

End IntegerWindows.

(** ** The result of the change search *)

Section SearchResult.

Variable cfg : config R.

Lemma Rltb_spec (a b : R) : Rltb a b = true <-> (a < b)%R.
Proof.
  unfold Rltb. destruct (Rlt_dec a b); split; intros H;
    try assumption; try reflexivity; try discriminate; contradiction.
Qed.

Lemma search_min_inv_init (cp : R) (m : Array2D R) (inc : Z) :
  search_min_inv cfg cp m inc (mkSearch (inc - 1) 0 real_max []).
Proof.
  unfold search_min_inv, scan_position. simpl.
  split; [lia |]. split; [intros k v H; discriminate |].
  split; [intros v [] | left; split; reflexivity].
Qed.

Lemma search_min_inv_step (cp : R) (m : Array2D R) (inc : Z)
    (st st' : search_state R) :
  search_min_inv cfg cp m inc st -> search_cond m inc st = true ->
  search_body cfg cp m inc st = Ok st' -> search_min_inv cfg cp m inc st'.
Proof.
  intros (Hshift & Hd & Hmin & Hseg) Hc Hb.
  unfold search_cond in Hc. apply Z.ltb_lt in Hc.
  unfold search_body in Hb. apply bind_Ok in Hb as (v & Hv & Hb).
  assert (Hd' : forall k u, push_back (d st) v !! k = Some u ->
            scan_position inc k < dim2 m - inc /\
            dBicValue cfg cp m (scan_position inc k) = Ok u).
  { intros k u Hk. unfold push_back in Hk.
    apply lookup_app_Some in Hk as [Hk | [Hlen Hk]]; [apply Hd, Hk |].
    destruct (k - length (d st))%nat eqn:Hkk; [| destruct n; discriminate].
    injection Hk as <-. replace k with (length (d st)) by lia.
    rewrite <- Hshift. split; assumption. }
  assert (Hshift' : shift st + inc = scan_position inc (length (push_back (d st) v))).
  { unfold push_back. rewrite length_app. simpl. unfold scan_position in *. lia. }
  cbn [rlt real_scalar] in Hb.
  destruct (Rltb v (dmin st)) eqn:Hlt; injection Hb as <-;
    unfold search_min_inv; cbn [shift seg dmin d];
    (split; [exact Hshift' |]); (split; [exact Hd' |]).
  - apply Rltb_spec in Hlt.
    assert (Hvmax : (v < real_max)%R).
    { destruct Hseg as [[_ Hm] | (k & _ & _ & Hm & _)]; [rewrite <- Hm; lra | lra]. }
    split.
    + intros u Hu. unfold push_back in Hu. apply in_app_or in Hu as [Hu | [<- | []]];
        [apply Hmin in Hu |]; lra.
    + right. exists (length (d st)). split; [| split; [| split]].
      * unfold push_back. rewrite lookup_app_r, Nat.sub_diag by lia. reflexivity.
      * exact Hshift.
      * exact Hvmax.
      * intros j u Hj Hu. unfold push_back in Hu.
        rewrite lookup_app_l in Hu by assumption.
        apply list_elem_of_lookup_2, list_elem_of_In, Hmin in Hu. lra.
  - assert (Hge : (dmin st <= v)%R).
    { unfold Rltb in Hlt. destruct (Rlt_dec v (dmin st)); [discriminate | lra]. }
    split.
    + intros u Hu. unfold push_back in Hu. apply in_app_or in Hu as [Hu | [<- | []]];
        [apply Hmin, Hu | exact Hge].
    + destruct Hseg as [Hseg | (k & Hk & Hs & Hm & Hfirst)]; [left; exact Hseg |].
      right. exists k. split; [| split; [| split]]; try assumption.
      * unfold push_back. apply lookup_app_l_Some, Hk.
      * intros j u Hj Hu. apply (Hfirst j u Hj).
        unfold push_back in Hu. rewrite lookup_app_l in Hu; [exact Hu |].
        apply lookup_lt_Some in Hk. lia.
Qed.

(** C3, as the code has it.  With a step of at least one frame the search
    returns.  The samples are the differentials of the positions [inc-1],
    [2*inc-1], ... before [nFrames - inc], in order, and [dmin] is the least
    of them (and of its initial value, the largest [Real]).  The offset
    returned is [0] when [dmin > 0], and [current] plus the first position
    whose differential is [dmin] when [dmin <= 0]: a minimum of exactly [0]
    is reported as a change. *)
Theorem bicChangeSearch_reports_first_minimum (cp : R) (m : Array2D R)
    (inc current : Z) :
  1 <= inc ->
  exists first samples dm,
    bicChangeSearch cfg cp m inc current = Ok (first, samples, dm) /\
    (forall k v, samples !! k = Some v ->
       scan_position inc k < dim2 m - inc /\
       dBicValue cfg cp m (scan_position inc k) = Ok v) /\
    dim2 m - inc <= scan_position inc (length samples) /\
    (forall v, In v samples -> (dm <= v)%R) /\
    (dm <= real_max)%R /\
    ((0 < dm)%R -> first = 0) /\
    ((dm <= 0)%R ->
       exists k, samples !! k = Some dm /\
                 (forall j v, (j < k)%nat -> samples !! j = Some v -> (dm < v)%R) /\
                 first = current + scan_position inc k).
Proof.
  intros Hinc. unfold bicChangeSearch. cbv zeta.
  destruct (search_loop_total cfg cp m inc Hinc) as (st & Hw & _ & Hcond).
  pose proof Hw as Hinv.
  apply (while_invariant _ _ (search_min_inv cfg cp m inc)) in Hinv
    as [(Hshift & Hd & Hmin & Hseg) _];
    [| intros s1 s2; apply search_min_inv_step | apply search_min_inv_init].
  rewrite Hw. cbn [bind]. do 3 eexists. split; [reflexivity |].
  unfold search_cond in Hcond. apply Z.ltb_ge in Hcond.
  split; [exact Hd |]. split; [rewrite <- Hshift; exact Hcond |].
  split; [exact Hmin |].
  cbn [rlt of_int real_scalar].
  assert (Hmax : (0 < real_max)%R) by (cbn [real_max real_scalar]; lra).
  split; [| split].
  - destruct Hseg as [[_ ->] | (k & _ & _ & Hlt & _)]; lra.
  - intros Hpos. rewrite (Rltb_true _ _ Hpos). reflexivity.
  - intros Hneg. rewrite Rltb_false by exact Hneg.
    destruct Hseg as [[_ Hm] | (k & Hk & Hs & _ & Hfirst)]; [lra |].
    exists k. split; [exact Hk |]. split; [exact Hfirst |]. rewrite Hs. reflexivity.
Qed.

End SearchResult.

(** ** Windows of windows and the size of a curve *)

Section Curves.

Context {Real : Type} {scalar : Scalar Real} (cfg : config Real).

(** X1.  A window of a window is a window of the matrix: when [subarray]
    returns [w] for the rows [i0..i1] and the columns [j0..j1] of [m], and
    [w'] for the rows [a..b] and the columns [c..e] of [w], then it returns
    for the rows [i0+a..i0+b] and the columns [j0+c..j0+e] of [m] an array of
    the dimensions and the elements of [w'] (the null array when the inner
    range is empty). *)
Theorem subarray_of_subarray (m w w' : Array2D Real)
    (i0 i1 j0 j1 a b c e : Z) :
  subarray m i0 i1 j0 j1 = Ok w ->
  subarray w a b c e = Ok w' ->
  exists w'',
    subarray m (i0 + a) (i0 + b) (j0 + c) (j0 + e) = Ok w'' /\
    dim1 w'' = dim1 w' /\ dim2 w'' = dim2 w' /\
    forall i j, elem w'' i j = elem w' i j.
Proof.
  intros Hw Hw'.
  apply subarray_Ok in Hw as [[-> Hempty] | (Hi & Hj & Hj1 & Hi0 & Hi1 & ->)];
    apply subarray_Ok in Hw' as [[-> Hempty'] | (Ha & Hc & He & Ha0 & Hb & ->)];
    cbn [dim1 dim2 null_array] in *; try lia.
  - exists null_array. unfold subarray. cbv zeta.
    replace (_ || _) with true by (symmetry; apply orb_true_iff; lia).
    auto.
  - exists null_array. unfold subarray. cbv zeta.
    replace (_ || _) with true by (symmetry; apply orb_true_iff; lia).
    auto.
  - eexists. unfold subarray. cbv zeta.
    replace (_ || _) with false by (symmetry; apply orb_false_iff; lia).
    replace (_ && _) with true
      by (symmetry; rewrite !andb_true_iff; repeat split; lia).
    split; [reflexivity |]. cbn [dim1 dim2 elem].
    split; [lia |]. split; [lia |].
    intros i j. f_equal; lia.
Qed.

(** The loop of the search has stored one differential per position it has
    gone through, and the last of these positions is in the window. *)
Lemma search_count_step (cp : Real) (m : Array2D Real) (inc : Z)
    (st st' : search_state Real) :
  search_cond m inc st = true ->
  search_body cfg cp m inc st = Ok st' ->
  d st' <> [] /\ shift st' - inc < dim2 m - inc.
Proof.
  intros Hc Hb. unfold search_cond in Hc. apply Z.ltb_lt in Hc.
  unfold search_body in Hb. apply bind_Ok in Hb as (v & _ & Hb).
  destruct (rlt _ _); injection Hb as <-; cbn [d shift]; unfold push_back;
    (split; [destruct (d st); discriminate | lia]).
Qed.

(** The number of differentials the loop of the search has stored when it
    exits. *)
Lemma search_curve_size (cp : Real) (m : Array2D Real) (inc : Z) :
  1 <= inc ->
  exists st,
    while (Z.to_nat (dim2 m)) (search_cond m inc) (search_body cfg cp m inc)
      (mkSearch (inc - 1) 0 real_max []) = Ok st /\
    search_inv m inc st /\
    size (d st) = Z.max 0 (dim2 m / inc - 1).
Proof.
  intros Hinc.
  destruct (search_loop_total cfg cp m inc Hinc) as (st & Hw & Hinv & Hcond).
  exists st. split; [exact Hw |]. split; [exact Hinv |].
  apply (while_invariant _ _
           (fun s : search_state Real => d s = [] \/ shift s - inc < dim2 m - inc))
    in Hw as [Hlast _].
  - destruct Hinv as [Hshift _]. unfold search_cond in Hcond.
    apply Z.ltb_ge in Hcond. unfold size.
    destruct Hlast as [Hnil | Hlast].
    + rewrite Hnil in *. cbn [length] in *.
      assert (dim2 m / inc < 2) by (apply Z.div_lt_upper_bound; lia).
      lia.
    + assert (Hq : dim2 m / inc = Z.of_nat (length (d st)) + 1).
      { symmetry. apply (Z.div_unique _ _ _ (dim2 m - (Z.of_nat (length (d st)) + 1) * inc)); nia. }
      lia.
  - intros s1 s2 _ Hc Hb. right. eapply search_count_step; eassumption.
  - left. reflexivity.
Qed.

(** The curve of a search that returns. *)
Lemma bicChangeSearch_size (cp : Real) (m : Array2D Real) (inc current first : Z)
    (samples : list Real) (dm : Real) :
  1 <= inc ->
  bicChangeSearch cfg cp m inc current = Ok (first, samples, dm) ->
  size samples = Z.max 0 (dim2 m / inc - 1).
Proof.
  intros Hinc Hs. unfold bicChangeSearch in Hs. cbv zeta in Hs.
  destruct (search_curve_size cp m inc Hinc) as (st & Hw & _ & Hsize).
  rewrite Hw in Hs. cbn [bind] in Hs. injection Hs as _ <- _. exact Hsize.
Qed.

(** A window of fewer than [2*inc] frames is not searched. *)
Lemma search_short_window (cp : Real) (m : Array2D Real) (inc current : Z) :
  1 <= inc -> dim2 m < 2 * inc -> real_max_positive ->
  bicChangeSearch cfg cp m inc current = Ok (0, [], real_max).
Proof.
  intros Hinc Hshort Hmax. unfold bicChangeSearch. cbv zeta.
  rewrite while_exit by (unfold search_cond; cbn [shift]; apply Z.ltb_ge; lia).
  cbn [bind dmin seg d]. rewrite Hmax. reflexivity.
Qed.

(** X2.  With a step of at least one frame the search returns a curve of
    [max(0, nFrames/inc - 1)] samples, [nFrames] the frames of the window and
    [/] the division of [int].  A window of fewer than [2*inc] frames (the
    null array among them) is not searched at all: the curve is empty,
    [dmin] is left at the largest [Real] and the offset is [0]. *)
Theorem bicChangeSearch_curve_size (cp : Real) (m : Array2D Real)
    (inc current : Z) :
  1 <= inc ->
  exists first samples dm,
    bicChangeSearch cfg cp m inc current = Ok (first, samples, dm) /\
    size samples = Z.max 0 (dim2 m / inc - 1) /\
    (dim2 m < 2 * inc -> real_max_positive ->
     first = 0 /\ samples = [] /\ dm = real_max).
Proof.
  intros Hinc.
  destruct (search_curve_size cp m inc Hinc) as (st & Hw & _ & Hsize).
  do 3 eexists. split; [| split].
  - unfold bicChangeSearch. cbv zeta. rewrite Hw. cbn [bind]. reflexivity.
  - exact Hsize.
  - intros Hshort Hmax.
    pose proof (search_short_window cp m inc current Hinc Hshort Hmax) as Hs.
    unfold bicChangeSearch in Hs. cbv zeta in Hs. rewrite Hw in Hs.
    cbn [bind] in Hs. injection Hs as -> -> ->. auto.
Qed.

End Curves.

(** ** What the passes write to the outputs *)

Section Copies.

Context {Real : Type} {scalar : Scalar Real} (cfg : config Real).
Variable features : Array2D Real.

Lemma append_fold_Ok (tmp : list Real) (offset : Z) (js : list Z)
    (b b' : list Real) :
  fold_left
    (fun acc j => bind acc (fun b =>
       bind (vec_at tmp (j + offset)) (fun x => Ok (push_back b x))))
    js (@Ok Real (list Real) b) = Ok b' ->
  exists l, b' = b ++ l.
Proof.
  revert b. induction js as [|j js IH]; intros b; cbn [fold_left].
  - intros [= <-]. exists []. rewrite app_nil_r. reflexivity.
  - cbn [bind]. destruct (vec_at tmp (j + offset)) as [x| | |]; cbn [bind].
    + intros H. apply IH in H as [l ->]. exists (x :: l).
      unfold push_back. rewrite <- app_assoc. reflexivity.
    + intros H. exfalso. revert H. clear.
      induction js as [|j' js IH]; cbn [fold_left bind]; [discriminate | exact IH].
    + rewrite append_fold_Undefined. discriminate.
    + intros H. exfalso. revert H. clear.
      induction js as [|j' js IH]; cbn [fold_left bind]; [discriminate | exact IH].
Qed.

Lemma append_samples_Ok (tmp : list Real) (offset n : Z) (bic bic' : list Real) :
  append_samples tmp offset n bic = Ok bic' -> exists l, bic' = bic ++ l.
Proof. unfold append_samples. apply append_fold_Ok. Qed.

(** What an iteration of the first pass that returns has copied to
    BicValues. *)
Lemma coarse_body_copies (cp : Real) (st st' : coarse_state Real) :
  coarse_body cfg features cp st = Ok st' ->
  exists w samples bic1,
    subarray features 0 (dim1 features - 1) (c_currSeg st)
      (coarse_window_end cfg features st) = Ok w /\
    bicChangeSearch cfg cp w (inc1 cfg) (c_currSeg st)
      = Ok (c_i st', samples, c_dmin st') /\
    (if c_i st' =? 0 then bic1 = bicValues (c_out st)
     else append_samples samples 0 (c_i st' - c_currSeg st + 1)
            (bicValues (c_out st)) = Ok bic1) /\
    (if c_endSeg st' =? dim2 features - 1
     then append_samples samples (c_currSeg st') (size samples) bic1
          = Ok (bicValues (c_out st'))
     else bicValues (c_out st') = bic1).
Proof.
  unfold coarse_body, coarse_window_end. cbv zeta. intros H.
  apply bind_Ok in H as (w & Hw & H).
  apply bind_Ok in H as ([[i samples] dm] & Hs & H).
  apply bind_Ok in H as ([[cs es] o] & Hfound & H).
  apply bind_Ok in H as (bic' & Hend & H). injection H as <-.
  cbn [c_i c_dmin c_out c_endSeg c_currSeg bicValues].
  destruct (i =? 0) eqn:Hi; cbn [negb] in Hfound.
  - injection Hfound as <- <- <-.
    exists w, samples, (bicValues (c_out st)).
    split; [exact Hw |]. split; [exact Hs |]. split; [reflexivity |].
    revert Hend.
    match goal with
    | |- context [?a =? dim2 features - 1] => destruct (a =? dim2 features - 1)
    end; intros Hend; [exact Hend | injection Hend as <-; reflexivity].
  - apply bind_Ok in Hfound as (bic1 & Hcopy & Hfound).
    injection Hfound as <- <- <-. cbn [bicValues] in Hend.
    exists w, samples, bic1.
    split; [exact Hw |]. split; [exact Hs |]. split; [exact Hcopy |].
    revert Hend.
    match goal with
    | |- context [?a =? dim2 features - 1] => destruct (a =? dim2 features - 1)
    end; intros Hend; [exact Hend | injection Hend as <-; reflexivity].
Qed.

Lemma coarse_body_bicValues (cp : Real) (st st' : coarse_state Real) :
  coarse_body cfg features cp st = Ok st' ->
  exists l, bicValues (c_out st') = bicValues (c_out st) ++ l.
Proof.
  intros H. apply coarse_body_copies in H as (w & samples & bic1 & _ & _ & H1 & H2).
  assert (Hb1 : exists l, bic1 = bicValues (c_out st) ++ l).
  { destruct (_ =? 0); [exists []; rewrite app_nil_r; exact H1 |].
    eapply append_samples_Ok, H1. }
  destruct Hb1 as [l1 ->].
  destruct (_ =? _).
  - apply append_samples_Ok in H2 as [l2 ->]. exists (l1 ++ l2).
    rewrite app_assoc. reflexivity.
  - exists l1. exact H2.
Qed.

Lemma fine_body_bicValues (cp : Real) (i : Z) (st st' : fine_state Real) :
  fine_body cfg features cp i st = Ok st' ->
  bicValues (f_out st') = bicValues (f_out st).
Proof.
  intros H. apply fine_body_Ok in H as (_ & H). cbv zeta in H.
  destruct H as [[_ ->] | [H | H]]; [reflexivity | |];
    destruct H as (_ & _ & _ & _ & _ & _ & ->); reflexivity.
Qed.

Lemma validate_body_bicValues (cp : Real) (st st' : validate_state Real) :
  validate_body cfg features cp st = Ok st' ->
  bicValues (v_out st') = bicValues (v_out st).
Proof.
  intros H. apply validate_body_Ok in H. cbv zeta in H.
  destruct H as [[_ ->] | (_ & _ & _ & _ & _ & _ & _ & ->)]; reflexivity.
Qed.

Lemma coarse_reaches_appends (cp : Real) (o : outputs Real) (c : coarse_state Real) :
  reaches (coarse_cond features) (coarse_body cfg features cp) (coarse_init o) c ->
  exists s v b,
    segmentation (c_out c) = segmentation o ++ s /\
    segValues (c_out c) = segValues o ++ v /\
    bicValues (c_out c) = bicValues o ++ b.
Proof.
  intros Hr.
  refine (reaches_invariant _ _
    (fun st : coarse_state Real => exists s v b,
       segmentation (c_out st) = segmentation o ++ s /\
       segValues (c_out st) = segValues o ++ v /\
       bicValues (c_out st) = bicValues o ++ b) _ _ _ Hr _).
  - intros st st' (s & v & b & Hs & Hv & Hb) _ Hbody.
    destruct (coarse_body_bicValues _ _ _ Hbody) as [l Hl].
    apply coarse_body_Ok in Hbody as (_ & _ & _ & _ & Hcase).
    destruct Hcase as [(_ & _ & _ & Hs' & Hv') | (_ & _ & _ & Hs' & Hv')].
    + exists s, v, (b ++ l). rewrite Hs', Hv', Hl, Hb, app_assoc. auto.
    + exists (s ++ [of_int (c_i st')]), (v ++ [c_dmin st']), (b ++ l).
      rewrite Hs', Hv', Hl, Hs, Hv, Hb. unfold push_back.
      rewrite !app_assoc. auto.
  - exists [], [], []. cbn [coarse_init c_out]. rewrite !app_nil_r. auto.
Qed.

Lemma fine_reaches_bicValues (cp : Real) (i : Z) (dm : Real) (o : outputs Real)
    (f : fine_state Real) :
  reaches fine_cond (fine_body cfg features cp i) (mkFine 0 dm o) f ->
  bicValues (f_out f) = bicValues o.
Proof.
  intros Hr.
  refine (reaches_invariant _ _
    (fun st : fine_state Real => bicValues (f_out st) = bicValues o)
    _ _ _ Hr eq_refl).
  intros st st' Hst _ Hbody. apply fine_body_bicValues in Hbody. congruence.
Qed.

Lemma validate_reaches_bicValues (cp : Real) (o : outputs Real)
    (v : validate_state Real) :
  reaches validate_cond (validate_body cfg features cp) (mkValidate 1 0 o) v ->
  bicValues (v_out v) = bicValues o.
Proof.
  intros Hr.
  refine (reaches_invariant _ _
    (fun st : validate_state Real => bicValues (v_out st) = bicValues o)
    _ _ _ Hr eq_refl).
  intros st st' Hst _ Hbody. apply validate_body_bicValues in Hbody. congruence.
Qed.

(** X7.  [compute] never clears its outputs and only the first pass writes
    to BicValues.  In every state of the loop of the first pass Segmentation,
    SegValues and BicValues begin with what they held when [compute] was
    called; the second and the third pass leave BicValues as it is; so the
    BicValues [compute] returns begins with the BicValues it was given. *)
Theorem compute_appends_to_the_outputs_it_is_given (o : outputs Real) :
  (forall cp c,
     reaches (coarse_cond features) (coarse_body cfg features cp) (coarse_init o) c ->
     exists s v b,
       segmentation (c_out c) = segmentation o ++ s /\
       segValues (c_out c) = segValues o ++ v /\
       bicValues (c_out c) = bicValues o ++ b) /\
  (forall cp i dm f,
     reaches fine_cond (fine_body cfg features cp i) (mkFine 0 dm o) f ->
     bicValues (f_out f) = bicValues o) /\
  (forall cp v,
     reaches validate_cond (validate_body cfg features cp) (mkValidate 1 0 o) v ->
     bicValues (v_out v) = bicValues o) /\
  (forall o',
     compute cfg features o = Ok o' ->
     exists b, bicValues o' = bicValues o ++ b).
Proof.
  split; [intros cp c; apply coarse_reaches_appends |].
  split; [intros cp i dm f; apply fine_reaches_bicValues |].
  split; [intros cp v; apply validate_reaches_bicValues |].
  intros o'. unfold compute. cbv zeta. destruct (_ <? 2); [discriminate |].
  intros H. apply bind_Ok in H as (c & Hc & H).
  apply bind_Ok in H as (f & Hf & H).
  apply while_reaches in Hc as [Hc _].
  destruct (coarse_reaches_appends _ _ _ Hc) as (_ & _ & b & _ & _ & Hb).
  exists b. apply while_reaches in Hf as [Hf _].
  apply fine_reaches_bicValues in Hf.
  unfold validate_pass in H. destruct (_ =? 0).
  - injection H as <-. congruence.
  - apply bind_Ok in H as (v & Hv & [= <-]).
    apply while_reaches in Hv as [Hv _].
    apply validate_reaches_bicValues in Hv. congruence.
Qed.

(** *** What the first pass stores *)

Lemma bicChangeSearch_found (cp : Real) (m : Array2D Real) (inc current first : Z)
    (samples : list Real) (dm : Real) :
  1 <= inc -> real_max_positive ->
  bicChangeSearch cfg cp m inc current = Ok (first, samples, dm) ->
  first <> 0 ->
  rlt (of_int 0) dm = false /\
  current + inc - 1 <= first /\ first + inc < current + dim2 m /\
  size samples = Z.max 0 (dim2 m / inc - 1).
Proof.
  intros Hinc Hmax Hs Hnz. unfold bicChangeSearch in Hs. cbv zeta in Hs.
  destruct (search_curve_size cfg cp m inc Hinc) as (st & Hw & [_ Hseg] & Hsize).
  rewrite Hw in Hs. cbn [bind] in Hs.
  destruct (rlt (of_int 0) (dmin st)) eqn:Hlt; injection Hs as <- <- <-;
    [contradiction |].
  split; [exact Hlt |]. split; [| split; [| exact Hsize]].
  - destruct Hseg as [[_ Hm] | Hseg]; [| lia].
    rewrite Hm in Hlt. unfold real_max_positive in Hmax. congruence.
  - destruct Hseg as [[_ Hm] | Hseg]; [| lia].
    rewrite Hm in Hlt. unfold real_max_positive in Hmax. congruence.
Qed.

(** An iteration of the first pass that finds a change has found it at
    least [inc1 - 1] frames after [currSeg] and [inc1] frames before the
    window end, and has copied [i - currSeg + 1] samples of the curve. *)
Lemma coarse_body_found_at (cp : Real) (st st' : coarse_state Real) :
  1 <= inc1 cfg -> real_max_positive ->
  coarse_body cfg features cp st = Ok st' -> c_i st' <> 0 ->
  rlt (of_int 0) (c_dmin st') = false /\
  c_currSeg st + inc1 cfg - 1 <= c_i st' /\
  c_i st' + inc1 cfg <= dim2 features - 1 /\
  c_i st' - c_currSeg st + 1 <= dim2 features / inc1 cfg - 1.
Proof.
  intros Hinc Hmax Hb Hnz.
  apply coarse_body_copies in Hb as (w & samples & bic1 & Hw & Hs & Hcopy & _).
  destruct (bicChangeSearch_found _ _ _ _ _ _ _ Hinc Hmax Hs Hnz)
    as (Hlt & Hlo & Hhi & Hsize).
  apply Z.eqb_neq in Hnz. rewrite Hnz in Hcopy.
  assert (Hdim : dim2 w <= dim2 features /\ c_currSeg st + dim2 w <= dim2 features).
  { apply subarray_Ok in Hw as [[-> _] | (_ & Hj & Hj1 & _ & _ & ->)];
      cbn [dim2 null_array] in *; lia. }
  split; [exact Hlt |]. split; [exact Hlo |]. split; [lia |].
  destruct (Z_lt_le_dec (size samples) (c_i st' - c_currSeg st + 1)) as [Hout | Hin].
  - rewrite append_samples_out_of_range in Hcopy by lia. discriminate.
  - assert (dim2 w / inc1 cfg <= dim2 features / inc1 cfg)
      by (apply Z.div_le_mono; lia).
    lia.
Qed.

End Copies.

(** ** The change points [compute] stores *)

Section ChangePoints.

Context {Real : Type} {scalar : Scalar Real} (cfg : config Real).
Variable features : Array2D Real.

Lemma apart_delete (gap : Z) (ks : list Z) (k : nat) :
  apart gap ks -> apart gap (delete k ks).
Proof.
  unfold apart. intros H. rewrite delete_take_drop.
  rewrite <- (take_drop k ks) in H.
  apply StronglySorted_app in H as (Hx & H1 & H2).
  apply StronglySorted_app. split; [| split; [exact H1 |]].
  - intros x1 x2 Hx1 Hx2. apply Hx; [exact Hx1 |].
    rewrite <- (take_drop 1 (drop k ks)), drop_drop.
    apply elem_of_app. right. replace (k + 1)%nat with (S k) by lia. exact Hx2.
  - rewrite <- (take_drop 1 (drop k ks)), drop_drop in H2.
    apply StronglySorted_app in H2 as (_ & _ & H2).
    replace (k + 1)%nat with (S k) in H2 by lia. exact H2.
Qed.

Lemma apart_push (gap : Z) (ks : list Z) (x : Z) :
  apart gap ks -> Forall (fun k => k + gap <= x) ks -> apart gap (ks ++ [x]).
Proof.
  unfold apart. intros H Hall. apply StronglySorted_app.
  split; [| split; [exact H | repeat constructor]].
  intros x1 x2 Hx1 Hx2. apply list_elem_of_singleton in Hx2 as ->.
  rewrite Forall_forall in Hall. apply Hall, Hx1.
Qed.

Lemma delete_map {A B : Type} (f : A -> B) (l : list A) (k : nat) :
  delete k (map f l) = map f (delete k l).
Proof.
  revert k. induction l as [|x l IH]; intros [|k]; cbn; try reflexivity.
  f_equal. apply IH.
Qed.

(** *** Change points in order *)

Lemma coarse_reaches_change_points (cp : Real) (c : coarse_state Real) :
  1 <= inc1 cfg -> real_max_positive ->
  reaches (coarse_cond features) (coarse_body cfg features cp)
    (coarse_init no_outputs) c ->
  change_points cfg features (segmentation (c_out c)) /\
  Forall not_positive (segValues (c_out c)).
Proof.
  intros Hinc Hmax Hr.
  assert (Hinv : exists ks,
            segmentation (c_out c) = map of_int ks /\
            apart (2 * inc1 cfg - 1) ks /\
            Forall (fun k => Z.max 1 (inc1 cfg - 1) <= k <= dim2 features - 1 - inc1 cfg) ks /\
            Forall (fun k => k + inc1 cfg <= c_currSeg c) ks /\
            0 <= c_currSeg c /\
            Forall not_positive (segValues (c_out c))).
  { refine (reaches_invariant _ _
      (fun st : coarse_state Real => exists ks,
         segmentation (c_out st) = map of_int ks /\
         apart (2 * inc1 cfg - 1) ks /\
         Forall (fun k => Z.max 1 (inc1 cfg - 1) <= k <= dim2 features - 1 - inc1 cfg) ks /\
         Forall (fun k => k + inc1 cfg <= c_currSeg st) ks /\
         0 <= c_currSeg st /\
         Forall not_positive (segValues (c_out st)))
      _ _ _ Hr _).
    - intros st st' (ks & Hseg & Hap & Hrange & Hcur & Hpos & Hval) _ Hb.
      destruct (Z.eq_dec (c_i st') 0) as [Hz | Hnz].
      + apply coarse_body_Ok in Hb as (_ & _ & _ & _ & Hcase).
        destruct Hcase as [(_ & Hc & _ & Hs & Hv) | [Hnz _]]; [| contradiction].
        exists ks. rewrite Hs, Hv, Hc. auto 10.
      + destruct (coarse_body_found_at cfg features cp st st' Hinc Hmax Hb Hnz)
          as (Hlt & Hlo & Hhi & _).
        apply coarse_body_Ok in Hb as (_ & _ & _ & _ & Hcase).
        destruct Hcase as [[Hz _] | (_ & Hc & _ & Hs & Hv)]; [contradiction |].
        exists (ks ++ [c_i st']). rewrite Hs, Hv, Hc, Hseg. unfold push_back.
        split; [rewrite map_app; reflexivity |].
        split.
        { apply apart_push; [exact Hap |].
          eapply Forall_impl; [exact Hcur |]. cbv beta. intros k Hk. lia. }
        split.
        { apply Forall_app. split; [exact Hrange |].
          apply Forall_cons. split; [lia | apply Forall_nil_2]. }
        split.
        { apply Forall_app. split.
          - eapply Forall_impl; [exact Hcur |]. cbv beta. intros k Hk. lia.
          - apply Forall_cons. split; [lia | apply Forall_nil_2]. }
        split; [lia |].
        apply Forall_app. split; [exact Hval |].
        apply Forall_cons. split; [exact Hlt | apply Forall_nil_2].
    - exists []. cbn [coarse_init no_outputs c_out c_currSeg segmentation segValues map].
      repeat split; try lia; constructor. }
  destruct Hinv as (ks & Hseg & Hap & Hrange & _ & _ & Hval).
  split; [exists ks; auto | exact Hval].
Qed.

Lemma validate_body_change_points (cp : Real) (st st' : validate_state Real) :
  validate_body cfg features cp st = Ok st' ->
  change_points cfg features (segmentation (v_out st)) /\
  Forall not_positive (segValues (v_out st)) ->
  change_points cfg features (segmentation (v_out st')) /\
  Forall not_positive (segValues (v_out st')).
Proof.
  intros H [(ks & Hseg & Hap & Hrange) Hval].
  apply validate_body_Ok in H. cbv zeta in H.
  destruct H as [[_ ->] | (_ & _ & _ & _ & _ & -> & -> & _)].
  - split; [exists ks; auto | exact Hval].
  - split.
    + exists (delete (Z.to_nat (v_i st)) ks). rewrite Hseg, delete_map.
      split; [reflexivity |]. split; [apply apart_delete, Hap |].
      rewrite delete_take_drop. apply Forall_app.
      split; [apply Forall_take | apply Forall_drop]; exact Hrange.
    + rewrite delete_take_drop. apply Forall_app.
      split; [apply Forall_take | apply Forall_drop]; exact Hval.
Qed.

(** X8.  Run on empty outputs with a step of at least one frame, [compute]
    holds change points in increasing order in Segmentation, in every state
    of the first pass and in what it returns: each is [Real(k)] for a frame
    index [k], at least [2*inc1 - 1] frames after the one before; none is
    frame [0], none is before frame [inc1 - 1], none is less than [inc1]
    frames before the last frame. *)
Theorem segmentation_is_in_increasing_order :
  1 <= inc1 cfg -> real_max_positive ->
  (forall cp c,
     reaches (coarse_cond features) (coarse_body cfg features cp)
       (coarse_init no_outputs) c ->
     change_points cfg features (segmentation (c_out c))) /\
  (forall o',
     compute cfg features no_outputs = Ok o' ->
     change_points cfg features (segmentation o')).
Proof.
  intros Hinc Hmax.
  split; [intros cp c Hr; apply (coarse_reaches_change_points cp c Hinc Hmax Hr) |].
  intros o'. unfold compute. cbv zeta. destruct (_ <? 2); [discriminate |].
  intros H. apply bind_Ok in H as (c & Hc & H).
  apply bind_Ok in H as (f & Hf & H).
  rewrite (fine_pass_after_coarse cfg features _ _ c f Hinc Hmax Hc Hf) in H.
  apply while_reaches in Hc as [Hc _].
  pose proof (coarse_reaches_change_points _ c Hinc Hmax Hc) as Hcp.
  unfold validate_pass in H. destruct (_ =? 0).
  - injection H as <-. apply Hcp.
  - apply bind_Ok in H as (v & Hv & [= <-]).
    apply while_reaches in Hv as [Hv _].
    refine (proj1 (reaches_invariant _ _
      (fun st : validate_state Real =>
         change_points cfg features (segmentation (v_out st)) /\
         Forall not_positive (segValues (v_out st)))
      _ _ _ Hv Hcp)).
    intros st st' Hst _ Hb. eapply validate_body_change_points; eassumption.
Qed.

(** X9.  Run on empty outputs with a step of at least one frame, [compute]
    holds no positive value in SegValues: the first pass stores the [dmin]
    of a search only when the search reports a change, which it does not
    when [dmin > 0]; the second pass stores nothing and the third only
    erases. *)
Theorem segValues_are_not_positive :
  1 <= inc1 cfg -> real_max_positive ->
  (forall cp c,
     reaches (coarse_cond features) (coarse_body cfg features cp)
       (coarse_init no_outputs) c ->
     Forall not_positive (segValues (c_out c))) /\
  (forall o',
     compute cfg features no_outputs = Ok o' ->
     Forall not_positive (segValues o')).
Proof.
  intros Hinc Hmax.
  split; [intros cp c Hr; apply (coarse_reaches_change_points cp c Hinc Hmax Hr) |].
  intros o'. unfold compute. cbv zeta. destruct (_ <? 2); [discriminate |].
  intros H. apply bind_Ok in H as (c & Hc & H).
  apply bind_Ok in H as (f & Hf & H).
  rewrite (fine_pass_after_coarse cfg features _ _ c f Hinc Hmax Hc Hf) in H.
  apply while_reaches in Hc as [Hc _].
  pose proof (coarse_reaches_change_points _ c Hinc Hmax Hc) as Hcp.
  unfold validate_pass in H. destruct (_ =? 0).
  - injection H as <-. apply Hcp.
  - apply bind_Ok in H as (v & Hv & [= <-]).
    apply while_reaches in Hv as [Hv _].
    refine (proj2 (reaches_invariant _ _
      (fun st : validate_state Real =>
         change_points cfg features (segmentation (v_out st)) /\
         Forall not_positive (segValues (v_out st)))
      _ _ _ Hv Hcp)).
    intros st st' Hst _ Hb. eapply validate_body_change_points; eassumption.
Qed.

(** *** What the third pass keeps *)

Lemma head_delete {A : Type} (l : list A) (k : nat) :
  (1 <= k)%nat -> head (delete k l) = head l.
Proof. intros Hk. destruct l as [|x l], k as [|k]; cbn; try reflexivity; lia. Qed.

Lemma last_delete {A : Type} (l : list A) (k : nat) :
  (S k < length l)%nat -> last (delete k l) = last l.
Proof.
  intros Hk. rewrite !last_lookup, length_delete by (apply lookup_lt_is_Some; lia).
  rewrite list_lookup_delete_ge by lia. f_equal. lia.
Qed.

(** X10.  The third pass returns a subsequence of the Segmentation and of
    the SegValues it is given, and never erases the first or the last entry
    of Segmentation: its loop tests the entries [1], ..., [size - 2]. *)
Theorem validate_pass_keeps_the_first_and_the_last_entry (cp : Real)
    (o o' : outputs Real) :
  validate_pass cfg features cp o = Ok o' ->
  sublist (segmentation o') (segmentation o) /\
  sublist (segValues o') (segValues o) /\
  head (segmentation o') = head (segmentation o) /\
  last (segmentation o') = last (segmentation o).
Proof.
  unfold validate_pass. destruct (_ =? 0); [intros [= <-]; auto |].
  intros H. apply bind_Ok in H as (st & Hw & [= <-]).
  apply (while_invariant _ _
           (fun st : validate_state Real =>
              1 <= v_i st /\
              sublist (segmentation (v_out st)) (segmentation o) /\
              sublist (segValues (v_out st)) (segValues o) /\
              head (segmentation (v_out st)) = head (segmentation o) /\
              last (segmentation (v_out st)) = last (segmentation o)))
    in Hw as [(_ & Hst) _];
    [exact Hst | | cbn [v_i v_out]; repeat split; try reflexivity; lia].
  intros s1 s2 (Hi & Hs & Hv & Hh & Hl) Hc Hb.
  unfold validate_cond, size in Hc. apply Z.ltb_lt in Hc.
  apply validate_body_Ok in Hb. cbv zeta in Hb.
  destruct Hb as [[-> ->] | (-> & _ & _ & _ & _ & -> & -> & _)].
  - split; [lia | auto].
  - split; [exact Hi |].
    split; [etransitivity; [apply sublist_delete | exact Hs] |].
    split; [etransitivity; [apply sublist_delete | exact Hv] |].
    split.
    + rewrite head_delete by lia. exact Hh.
    + rewrite last_delete by lia. exact Hl.
Qed.

End ChangePoints.

(** ** Matrices too short for the step *)

Section ShortInputs.

Context {Real : Type} {scalar : Scalar Real} (cfg : config Real).
Variable features : Array2D Real.

(** X12.  An iteration of the first pass that finds a change at frame [i]
    copies the samples [tmpBicValues[0]], ..., [tmpBicValues[i - currSeg]],
    one for each frame up to the change; the curve has one sample for each
    [inc1] frames.  In a matrix of fewer than [inc1 * (inc1 + 1)] frames the
    copy is never inside the curve: no iteration that returns has found a
    change, and [compute], run on empty outputs, returns an empty
    Segmentation and empty SegValues whenever it returns. *)
Theorem coarse_pass_finds_nothing_in_a_short_matrix :
  1 <= inc1 cfg -> real_max_positive ->
  dim2 features < inc1 cfg * (inc1 cfg + 1) ->
  (forall cp st st',
     coarse_body cfg features cp st = Ok st' ->
     c_i st' = 0 /\
     segmentation (c_out st') = segmentation (c_out st) /\
     segValues (c_out st') = segValues (c_out st)) /\
  (forall o',
     compute cfg features no_outputs = Ok o' ->
     segmentation o' = [] /\ segValues o' = []).
Proof.
  intros Hinc Hmax Hshort.
  assert (Hbody : forall cp st st',
     coarse_body cfg features cp st = Ok st' ->
     c_i st' = 0 /\
     segmentation (c_out st') = segmentation (c_out st) /\
     segValues (c_out st') = segValues (c_out st)).
  { intros cp st st' Hb.
    destruct (Z.eq_dec (c_i st') 0) as [Hz | Hnz].
    - apply coarse_body_Ok in Hb as (_ & _ & _ & _ & Hcase).
      destruct Hcase as [(_ & _ & _ & Hs & Hv) | [Hnz _]]; [auto | contradiction].
    - exfalso.
      destruct (coarse_body_found_at cfg features cp st st' Hinc Hmax Hb Hnz)
        as (_ & Hlo & _ & Hcopy).
      assert (dim2 features / inc1 cfg < inc1 cfg + 1)
        by (apply Z.div_lt_upper_bound; lia).
      lia. }
  split; [exact Hbody |].
  intros o'. unfold compute. cbv zeta. destruct (_ <? 2); [discriminate |].
  intros H. apply bind_Ok in H as (c & Hc & H).
  apply bind_Ok in H as (f & Hf & H).
  rewrite (fine_pass_after_coarse cfg features _ _ c f Hinc Hmax Hc Hf) in H.
  apply while_reaches in Hc as [Hc _].
  assert (Hempty : segmentation (c_out c) = [] /\ segValues (c_out c) = []).
  { refine (reaches_invariant _ _
      (fun st : coarse_state Real =>
         segmentation (c_out st) = [] /\ segValues (c_out st) = [])
      _ _ _ Hc _); [| split; reflexivity].
    intros st st' [Hs Hv] _ Hb. apply Hbody in Hb as (_ & -> & ->). auto. }
  destruct Hempty as [Hs Hv].
  unfold validate_pass in H. rewrite Hs in H. cbn in H.
  injection H as <-. auto.
Qed.

(** X11.  With a step of one frame an iteration of the first pass whose
    search finds a change at frame [i] returns: it has appended [Real(i)] to
    Segmentation, [dmin] to SegValues and the first [i - currSeg + 1]
    samples of the curve to BicValues, and the next window begins at frame
    [i + 1]. *)
Theorem coarse_iteration_with_step_one_copies_up_to_the_change
    (cp : Real) (st : coarse_state Real) (w : Array2D Real) (i : Z)
    (samples : list Real) (dm : Real) :
  inc1 cfg = 1 -> real_max_positive ->
  subarray features 0 (dim1 features - 1) (c_currSeg st)
    (coarse_window_end cfg features st) = Ok w ->
  bicChangeSearch cfg cp w 1 (c_currSeg st) = Ok (i, samples, dm) ->
  i <> 0 ->
  coarse_body cfg features cp st
  = Ok (mkCoarse (i + 1) i i dm
          (mkOutputs (segmentation (c_out st) ++ [of_int i])
                     (segValues (c_out st) ++ [dm])
                     (bicValues (c_out st)
                      ++ take (Z.to_nat (i - c_currSeg st + 1)) samples))).
Proof.
  intros Hone Hmax Hw Hs Hnz.
  destruct (bicChangeSearch_found cfg cp w 1 (c_currSeg st) i samples dm)
    as (_ & Hlo & Hhi & Hsize); [lia | exact Hmax | exact Hs | exact Hnz |].
  assert (Hdim : c_currSeg st + dim2 w <= dim2 features).
  { pose proof Hw as Hw'.
    apply subarray_Ok in Hw' as [[-> _] | (_ & Hj & Hj1 & _ & _ & ->)];
      cbn [dim2 null_array] in *; lia. }
  rewrite Z.div_1_r in Hsize.
  unfold coarse_body. cbv zeta. unfold coarse_window_end in Hw. cbv zeta in Hw.
  rewrite Hw. cbn [bind]. rewrite Hone, Hs. cbn [bind].
  apply Z.eqb_neq in Hnz. rewrite Hnz. cbn [negb].
  rewrite append_samples_in_range by lia. cbn [bind].
  replace (i + 1 - 1 =? dim2 features - 1) with false
    by (symmetry; apply Z.eqb_neq; lia).
  cbn [bind segmentation segValues bicValues]. unfold push_back.
  replace (i + 1 - 1) with i by lia. rewrite drop_0. reflexivity.
Qed.

(** *** A pass that finds no change *)

(** When the search of every window that begins at the first frame finds no
    change, the first pass returns: it has left Segmentation and SegValues
    as they were and appended the curve of the window of the whole
    matrix. *)
Lemma coarse_pass_without_change (cp : Real) (o : outputs Real)
    (Q : list Real -> Prop) :
  1 <= size1 cfg -> 1 <= dim2 features ->
  (forall e, 0 <= e < dim2 features ->
     exists w samples dm,
       subarray features 0 (dim1 features - 1) 0 e = Ok w /\
       bicChangeSearch cfg cp w (inc1 cfg) 0 = Ok (0, samples, dm) /\
       (e = dim2 features - 1 -> Q samples)) ->
  exists c samples,
    coarse_pass cfg features cp o = Ok c /\ c_i c = 0 /\
    c_out c = mkOutputs (segmentation o) (segValues o) (bicValues o ++ samples) /\
    Q samples.
Proof.
  intros Hsize Hdim Hsearch. unfold coarse_pass.
  destruct (while_total (coarse_cond features) (coarse_body cfg features cp)
              (fun st : coarse_state Real =>
                 c_currSeg st = 0 /\ c_i st = 0 /\
                 -1 <= c_endSeg st <= dim2 features - 1 /\
                 ((c_endSeg st < dim2 features - 1 /\ c_out st = o) \/
                  (c_endSeg st = dim2 features - 1 /\
                   exists samples,
                     c_out st = mkOutputs (segmentation o) (segValues o)
                                  (bicValues o ++ samples) /\ Q samples)))
              (fun st => Z.to_nat (dim2 features - 1 - c_endSeg st)))
    with (fuel := coarse_fuel features) (st := coarse_init o)
    as (c & Hc & (_ & Hi & Hend & Hout) & Hcond).
  - intros st (Hcur & Hi & Hend & Hout) Hc.
    unfold coarse_cond in Hc. apply Z.ltb_lt in Hc. split; [lia |].
    destruct Hout as [[_ Hout] | [Hlast _]]; [| lia].
    set (e := if c_endSeg st + size1 cfg >=? dim2 features
              then dim2 features - 1 else c_endSeg st + size1 cfg).
    assert (He : c_endSeg st < e <= dim2 features - 1).
    { unfold e. destruct (_ >=? _) eqn:Hge; [lia |].
      rewrite Z.geb_leb in Hge. apply Z.leb_gt in Hge. lia. }
    destruct (Hsearch e) as (w & samples & dm & Hw & Hs & HQ); [lia |].
    unfold coarse_body. cbv zeta. fold e. rewrite Hcur, Hw. cbn [bind].
    rewrite Hs. cbn [bind negb Z.eqb].
    destruct (e =? dim2 features - 1) eqn:Hlast.
    + apply Z.eqb_eq in Hlast.
      rewrite append_samples_in_range by (unfold size; lia). cbn [bind].
      eexists. split; [reflexivity |]. cbn [c_currSeg c_i c_endSeg c_out].
      split; [| lia].
      split; [reflexivity |]. split; [reflexivity |]. split; [lia |].
      right. split; [exact Hlast |]. exists samples. rewrite Hout, drop_0.
      unfold size. rewrite Nat2Z.id, firstn_all. auto.
    + apply Z.eqb_neq in Hlast. cbn [bind].
      eexists. split; [reflexivity |]. cbn [c_currSeg c_i c_endSeg c_out].
      split; [| lia].
      split; [reflexivity |]. split; [reflexivity |]. split; [lia |].
      left. split; [lia |]. rewrite Hout. destruct o; reflexivity.
  - cbn [coarse_init c_currSeg c_i c_endSeg c_out].
    split; [reflexivity |]. split; [reflexivity |]. split; [lia |].
    left. split; [lia | reflexivity].
  - unfold coarse_fuel, coarse_init. cbn [c_endSeg]. nia.
  - unfold coarse_cond in Hcond. apply Z.ltb_ge in Hcond.
    destruct Hout as [[Hlt _] | (_ & samples & Hout & HQ)]; [lia |].
    exists c, samples. auto.
Qed.

Lemma compute_after_coarse (o : outputs Real) (c : coarse_state Real) :
  1 <= inc1 cfg -> real_max_positive -> 2 <= dim2 features ->
  coarse_pass cfg features (of_int (2 * dim1 features)) o = Ok c ->
  c_i c = 0 ->
  compute cfg features o
  = validate_pass cfg features (of_int (2 * dim1 features)) (c_out c).
Proof.
  intros Hinc Hmax Hdim Hc Hi. unfold compute. cbv zeta.
  replace (dim2 features <? 2) with false by (symmetry; apply Z.ltb_ge; lia).
  rewrite Hc. cbn [bind]. rewrite Hi.
  destruct (fine_pass_i_zero cfg features (of_int (2 * dim1 features))
              (c_dmin c) (c_out c) Hinc Hmax) as (f & -> & Hf).
  cbn [bind]. rewrite Hf. reflexivity.
Qed.

(** X13.  On a matrix of at least two and fewer than [2*inc1] frames no
    window is long enough to be searched: [compute], given outputs with an
    empty Segmentation, returns them as they are. *)
Theorem compute_on_a_matrix_shorter_than_two_steps (o : outputs Real) :
  1 <= size1 cfg -> 1 <= inc1 cfg -> real_max_positive ->
  2 <= dim2 features -> dim2 features < 2 * inc1 cfg ->
  segmentation o = [] ->
  compute cfg features o = Ok o.
Proof.
  intros Hsize Hinc Hmax Hdim Hshort Hseg.
  destruct (coarse_pass_without_change (of_int (2 * dim1 features)) o
              (fun samples => samples = []))
    as (c & samples & Hc & Hi & Hout & ->); [lia | lia | |].
  - intros e He.
    destruct (subarray_in_range features 0 e) as [w Hw]; [lia | lia |].
    exists w, [], real_max. split; [exact Hw |]. split; [| reflexivity].
    apply search_short_window; [exact Hinc | | exact Hmax].
    apply subarray_Ok in Hw as [[-> _] | (_ & _ & _ & _ & _ & ->)];
      cbn [dim2 null_array]; lia.
  - rewrite (compute_after_coarse o c Hinc Hmax Hdim Hc Hi), Hout.
    unfold validate_pass. cbn [segmentation]. rewrite Hseg. cbn.
    rewrite app_nil_r. destruct o; cbn in *. subst. reflexivity.
Qed.

(** X18.  On a matrix of at least two frames and no feature every window
    is the null array, which is not searched: [compute], given outputs with
    an empty Segmentation, returns them as they are. *)
Theorem compute_on_a_matrix_without_features (o : outputs Real) :
  1 <= size1 cfg -> 1 <= inc1 cfg -> real_max_positive ->
  dim1 features <= 0 -> 2 <= dim2 features ->
  segmentation o = [] ->
  compute cfg features o = Ok o.
Proof.
  intros Hsize Hinc Hmax Hd1 Hd2 Hseg.
  destruct (coarse_pass_without_change (of_int (2 * dim1 features)) o
              (fun samples => samples = []))
    as (c & samples & Hc & Hi & Hout & ->); [lia | lia | |].
  - intros e He. exists null_array, [], real_max.
    split; [| split; [| reflexivity]].
    + unfold subarray. cbv zeta.
      replace (_ || _) with true by (symmetry; apply orb_true_iff; lia).
      reflexivity.
    + apply search_short_window; [exact Hinc | cbn [dim2 null_array]; lia | exact Hmax].
  - rewrite (compute_after_coarse o c Hinc Hmax Hd2 Hc Hi), Hout.
    unfold validate_pass. cbn [segmentation]. rewrite Hseg. cbn.
    rewrite app_nil_r. destruct o; cbn in *. subst. reflexivity.
Qed.

End ShortInputs.

(** ** The last change point *)

Section LastChange.

Context {Real : Type} {scalar : Scalar Real} (cfg : config Real).
Variable features : Array2D Real.

(** What the first pass keeps true of the change points it has stored and
    of where its next window begins: the window begins [inc1] frames after
    the last change point, at the first frame when there is none; and a
    window that has reached the last frame without a change begins at the
    first frame or has fewer than [2 * inc1] frames. *)
Lemma coarse_reaches_last_change (cp : Real) (c : coarse_state Real) :
  1 <= inc1 cfg -> real_max_positive -> 1 <= dim1 features ->
  0 <= dim2 features ->
  reaches (coarse_cond features) (coarse_body cfg features cp)
    (coarse_init no_outputs) c ->
  exists ks,
    segmentation (c_out c) = map of_int ks /\
    Forall (fun k => 0 <= k /\ k + inc1 cfg <= dim2 features - 1) ks /\
    0 <= c_currSeg c /\ c_endSeg c <= dim2 features - 1 /\
    match last ks with
    | Some k => c_currSeg c = k + inc1 cfg
    | None => c_currSeg c = 0
    end /\
    (c_endSeg c = dim2 features - 1 ->
     c_currSeg c = 0 \/ dim2 features - c_currSeg c < 2 * inc1 cfg).
Proof.
  intros Hinc Hmax Hd1 Hd2 Hr.
  refine (reaches_invariant _ _
    (fun st : coarse_state Real => exists ks,
       segmentation (c_out st) = map of_int ks /\
       Forall (fun k => 0 <= k /\ k + inc1 cfg <= dim2 features - 1) ks /\
       0 <= c_currSeg st /\ c_endSeg st <= dim2 features - 1 /\
       match last ks with
       | Some k => c_currSeg st = k + inc1 cfg
       | None => c_currSeg st = 0
       end /\
       (c_endSeg st = dim2 features - 1 ->
        c_currSeg st = 0 \/ dim2 features - c_currSeg st < 2 * inc1 cfg))
    _ _ _ Hr _).
  - intros st st' (ks & Hseg & Hrange & Hpos & Hle & Hlast & _) _ Hb.
    destruct (Z.eq_dec (c_i st') 0) as [Hz | Hnz].
    + pose proof Hb as Hcopy.
      apply coarse_body_copies in Hcopy as (w & samples & bic1 & Hw & Hs & _ & Hend).
      apply coarse_body_Ok in Hb as (_ & _ & _ & _ & Hcase).
      destruct Hcase as [(_ & Hc & He & Hs' & _) | [Hnz _]]; [| contradiction].
      exists ks. rewrite Hs', Hc.
      split; [exact Hseg |]. split; [exact Hrange |]. split; [exact Hpos |].
      split.
      { rewrite He. unfold coarse_window_end. cbv zeta.
        destruct (_ >=? _) eqn:Hge; [lia |].
        rewrite Z.geb_leb in Hge. apply Z.leb_gt in Hge. lia. }
      split; [exact Hlast |].
      intros Hlastframe. rewrite Hlastframe, Z.eqb_refl, Hc in Hend.
      destruct (Z.eq_dec (c_currSeg st) 0) as [H0 | Hcur]; [left; exact H0 | right].
      pose proof (bicChangeSearch_size cfg cp w (inc1 cfg) (c_currSeg st) _ _ _
                    Hinc Hs) as Hsize.
      destruct (Z_lt_le_dec 0 (size samples)) as [Hne | Hempty].
      { rewrite append_samples_out_of_range in Hend by lia. discriminate. }
      rewrite He in Hlastframe. rewrite Hlastframe in Hw.
      apply subarray_Ok in Hw as [[-> Hnull] | (_ & _ & _ & _ & _ & ->)];
        cbn [dim2 null_array] in *; [lia |].
      assert (Hq : (dim2 features - 1 - c_currSeg st + 1) / inc1 cfg < 2) by lia.
      pose proof (Z.mul_succ_div_gt (dim2 features - 1 - c_currSeg st + 1)
                    (inc1 cfg) ltac:(lia)).
      nia.
    + destruct (coarse_body_found_at cfg features cp st st' Hinc Hmax Hb Hnz)
        as (_ & Hlo & Hhi & _).
      apply coarse_body_Ok in Hb as (_ & _ & _ & _ & Hcase).
      destruct Hcase as [[Hz _] | (_ & Hc & He & Hs' & _)]; [contradiction |].
      exists (ks ++ [c_i st']). rewrite Hs', Hc, He, Hseg. unfold push_back.
      split; [rewrite map_app; reflexivity |].
      split.
      { apply Forall_app. split; [exact Hrange |].
        apply Forall_cons. split; [lia | apply Forall_nil_2]. }
      split; [lia |]. split; [lia |]. rewrite last_snoc.
      split; [reflexivity | intros; lia].
  - exists []. cbn [coarse_init no_outputs c_out c_currSeg c_endSeg segmentation map last].
    split; [reflexivity |]. split; [apply Forall_nil_2 |]. split; [lia |].
    split; [lia |].
    split; [reflexivity | intros; left; reflexivity].
Qed.

(** X16.  Run on empty outputs, [compute] returns only with a last change
    point less than [3*inc1] frames before the end of the matrix (or with
    none): the window that reaches the last frame begins [inc1] frames after
    the last change point, and the copy of its curve to BicValues is inside
    the curve only when the curve is empty, that is when the window has
    fewer than [2*inc1] frames. *)
Theorem the_last_change_point_is_near_the_end :
  1 <= inc1 cfg -> real_max_positive -> 1 <= dim1 features ->
  forall o',
    compute cfg features no_outputs = Ok o' ->
    exists ks,
      segmentation o' = map of_int ks /\
      forall k, last ks = Some k ->
                dim2 features - 3 * inc1 cfg < k <= dim2 features - 1 - inc1 cfg.
Proof.
  intros Hinc Hmax Hd1 o'. unfold compute. cbv zeta.
  destruct (_ <? 2) eqn:Hd2; [discriminate |]. apply Z.ltb_ge in Hd2.
  intros H. apply bind_Ok in H as (c & Hc & H).
  apply bind_Ok in H as (f & Hf & H).
  rewrite (fine_pass_after_coarse cfg features _ _ c f Hinc Hmax Hc Hf) in H.
  pose proof Hc as Hr. apply while_reaches in Hr as [Hr Hcond].
  destruct (coarse_reaches_last_change _ c Hinc Hmax Hd1 ltac:(lia) Hr)
    as (ks & Hseg & Hrange & Hpos & Hle & Hlast & Hend).
  unfold coarse_cond in Hcond. apply Z.ltb_ge in Hcond.
  assert (Hnear : forall k, last ks = Some k ->
            dim2 features - 3 * inc1 cfg < k <= dim2 features - 1 - inc1 cfg).
  { intros k Hk. rewrite Hk in Hlast.
    assert (Hin : 0 <= k /\ k + inc1 cfg <= dim2 features - 1).
    { rewrite Forall_forall in Hrange. apply Hrange.
      rewrite last_lookup in Hk. eapply list_elem_of_lookup_2, Hk. }
    destruct (Hend ltac:(lia)) as [H0 | Hshort]; lia. }
  unfold validate_pass in H. destruct (_ =? 0).
  { injection H as <-. exists ks. auto. }
  apply bind_Ok in H as (v & Hv & [= <-]).
  apply (while_invariant _ _
           (fun st : validate_state Real =>
              1 <= v_i st /\
              exists ks', segmentation (v_out st) = map of_int ks' /\
                          last ks' = last ks))
    in Hv as [(_ & ks' & Hseg' & Hlast') _].
  - exists ks'. split; [exact Hseg' |]. rewrite Hlast'. exact Hnear.
  - intros s1 s2 (Hi & ks' & Hseg' & Hlast') Hcv Hb.
    unfold validate_cond, size in Hcv. apply Z.ltb_lt in Hcv.
    apply validate_body_Ok in Hb. cbv zeta in Hb.
    destruct Hb as [[-> ->] | (-> & _ & _ & _ & _ & -> & _)].
    + split; [lia |]. exists ks'. auto.
    + split; [exact Hi |]. exists (delete (Z.to_nat (v_i s1)) ks').
      rewrite Hseg', delete_map. split; [reflexivity |].
      rewrite Hseg', length_map in Hcv.
      rewrite last_delete by lia. exact Hlast'.
  - cbn [v_i v_out]. split; [lia |]. exists ks. auto.
Qed.

End LastChange.

(** ** Runs on matrices of integers *)

Section Runs.

#[local] Open Scope R_scope.

(** The bounds on the logarithm that decide the comparisons of the runs. *)
Lemma ln_bounds (y : R) : 0 < y -> 1 - / y <= ln y <= y - 1.
Proof.
  intros Hy. split.
  - pose proof (exp_ineq1_le (- ln y)) as H.
    rewrite exp_Ropp, exp_ln in H by assumption. lra.
  - pose proof (exp_ineq1_le (ln y)) as H.
    rewrite exp_ln in H by assumption. lra.
Qed.

Lemma dim2_cols (m : Array2D R) (a b : Z) : dim2 (cols m a b) = (b - a + 1)%Z.
Proof. reflexivity. Qed.

Lemma dim1_cols (m : Array2D R) (a b : Z) : dim1 (cols m a b) = dim1 m.
Proof. reflexivity. Qed.

Lemma dim1_from_rows (rows : list (list Z)) :
  dim1 (from_rows (Real:=R) rows) = size rows.
Proof. reflexivity. Qed.

Lemma dim2_from_rows (row : list Z) (rows : list (list Z)) :
  dim2 (from_rows (Real:=R) (row :: rows)) = size row.
Proof. reflexivity. Qed.

Lemma Rtrunc_IZR (z : Z) : Rtrunc (IZR z) = z.
Proof.
  unfold Rtrunc. destruct (Rle_dec 0 (IZR z)); [apply ZfloorZ |].
  apply Zceil_eq. lra.
Qed.

Lemma real_max_positive_R : real_max_positive (Real:=R).
Proof. unfold real_max_positive. cbn. apply Rltb_true. lra. Qed.

(** [delta_bic] on the window of the frames [a], ..., [b], at the gap
    between two entries of Segmentation that hold the integers [x] and
    [y]. *)
Lemma delta_bic_at_gap (cfg : config R) (cp : R) (m : Array2D R) (a b x y : Z) :
  (1 <= dim1 m)%Z -> (0 <= x - y <= b - a)%Z ->
  delta_bic cfg cp (cols m a b) (IZR x - IZR y) =
  Ok (0.5 *
      ((IZR x - IZR y) * logDet (cols m a (a + (x - y)))
       + (IZR (b - a + 1) - (IZR x - IZR y))
         * (if (x - y + 1 <=? b - a)%Z
            then logDet (cols m (a + (x - y + 1)) b) else 0)
       - IZR (b - a + 1) * logDet (cols m a b)
       + cpw cfg * cp * ln (IZR (b - a + 1)))).
Proof.
  intros Hd Hp.
  rewrite (delta_bic_cols cfg cp m a b (IZR x - IZR y) (x - y) (x - y + 1)).
  - reflexivity.
  - assumption.
  - cbn. rewrite <- minus_IZR. apply Rtrunc_IZR.
  - cbn. rewrite <- minus_IZR, <- plus_IZR. apply Rtrunc_IZR.
  - assumption.
  - lia.
Qed.

(** *** Tactics that run the program *)

Ltac is_pos_lit p :=
  lazymatch p with
  | xH => idtac
  | xO ?q => is_pos_lit q
  | xI ?q => is_pos_lit q
  end.

Ltac is_nat_lit n :=
  lazymatch n with
  | O => idtac
  | S ?m => is_nat_lit m
  end.

Ltac is_lit z :=
  lazymatch z with
  | Z0 => idtac
  | Zpos ?p => is_pos_lit p
  | Zneg ?p => is_pos_lit p
  | true => idtac
  | false => idtac
  | O => idtac
  | S ?m => is_nat_lit m
  end.

(** Replaces the closed integer, boolean and natural-number expressions of
    the goal by their values. *)
Ltac zcompute :=
  repeat match goal with
         | |- context [?z] =>
             lazymatch type of z with
             | Z => idtac
             | bool => idtac
             | nat => idtac
             end;
             tryif is_lit z then fail
             else (let z' := eval vm_compute in z in
                   is_lit z'; change z with z')
         end.

Ltac zsimp :=
  rewrite ?dim2_cols, ?dim1_cols;
  cbn [shift seg dmin d bind push_back app fst snd
       c_currSeg c_endSeg c_i c_dmin c_out f_currIdx f_dmin f_out
       v_i v_currSeg v_out segmentation segValues bicValues
       size1 inc1 size2 inc2 cpw];
  zcompute; cbv beta iota.

Ltac dims :=
  rewrite ?dim1_from_rows, ?dim2_from_rows; unfold size; cbn [length]; zsimp.

Ltac zside :=
  first [ lia
        | reflexivity
        | vm_compute; first [discriminate | reflexivity | split; discriminate] ].

Ltac size_side :=
  unfold size;
  repeat match goal with H : length _ = _ |- _ => rewrite H end;
  zside.

Ltac scalar_ops :=
  cbn [of_int to_int radd rsub rmul rdiv rlt rlog real_max one_half cov_floor
       real_scalar].

Ltac ln_facts :=
  repeat match goal with
         | |- context [ln ?y] =>
             lazymatch goal with
             | H : 1 - / y <= ln y <= y - 1 |- _ => fail
             | _ => pose proof (ln_bounds y ltac:(lra))
             end
         end.

Ltac decide_Rltb :=
  match goal with
  | |- context [Rltb ?x ?y] =>
      first [ rewrite (Rltb_true x y) by (ln_facts; lra)
            | rewrite (Rltb_false x y) by (ln_facts; lra) ]
  end.

Ltac eval_logDets rows :=
  repeat match goal with
         | |- context [logDet (cols (from_rows rows) ?a ?b)] =>
             rewrite (logDet_from_rows rows a b) by zside;
             let t := eval vm_compute in (logDet_terms rows a b) in
             change (logDet_terms rows a b) with t;
             cbn [terms_value term_value fold_right]
         end.

(** One iteration of the loop of [bicChangeSearch]. *)
Ltac search_step rows :=
  erewrite while_step;
  [ | reflexivity
    | unfold search_body; zsimp;
      rewrite dBicValue_cols by (dims; zside);
      zsimp; unfold penalty; zsimp; scalar_ops;
      eval_logDets rows; zsimp;
      decide_Rltb; reflexivity ].

Ltac search_run rows :=
  unfold bicChangeSearch; cbv zeta; zsimp;
  repeat search_step rows;
  rewrite while_exit by reflexivity;
  zsimp; scalar_ops; decide_Rltb.

(** A search returns the given position and that many samples. *)
Ltac search_lemma rows :=
  do 2 eexists; split; [search_run rows; reflexivity | reflexivity].

Ltac use_search :=
  match goal with
  | H : bicChangeSearch _ _ _ _ _ = _ |- _ => rewrite H
  end.

Ltac appends :=
  first [ rewrite append_samples_none by size_side
        | rewrite append_samples_in_range by size_side
        | rewrite append_samples_out_of_range by size_side ].

(** One iteration of the loops of [compute]. *)
Ltac coarse_body_run :=
  unfold coarse_body; cbv zeta; dims;
  rewrite subarray_cols by (dims; zside);
  cbn [bind]; scalar_ops; use_search;
  repeat (progress (cbn [bind]; dims; try appends)).

Ltac coarse_step :=
  erewrite while_step; [ | reflexivity | coarse_body_run; reflexivity ].

Ltac validate_body_run rows :=
  unfold validate_body; cbv zeta; zsimp;
  unfold vec_at; zsimp; cbn [lookup list_lookup]; cbn [bind];
  scalar_ops; rewrite ?Rtrunc_IZR;
  rewrite subarray_cols by (dims; zside);
  cbn [bind];
  rewrite delta_bic_at_gap by (dims; zside);
  cbn [bind]; zsimp; eval_logDets rows; zsimp;
  decide_Rltb;
  unfold vec_erase; zsimp; cbn [delete list_delete bind];
  rewrite <- ?plus_IZR, ?Rtrunc_IZR; zsimp.

Ltac validate_step rows :=
  erewrite while_step; [ | reflexivity | validate_body_run rows; reflexivity ].


(** *** The differential of [delta_bic] and of the search *)

(** [delta_bic] weighs the halves by [segPoint] and [nFrames - segPoint],
    the search by their numbers of frames [segPoint + 1] and
    [nFrames - segPoint - 1]: at the same split of the same window the two
    differ by half the difference of the log-determinants of the halves. *)
Lemma delta_bic_versus_search (cfg : config R) (cp : R) (m : Array2D R)
    (a b p : Z) :
  (1 <= dim1 m)%Z -> (0 <= p)%Z -> (p + 1 <= b - a)%Z ->
  exists v v',
    delta_bic cfg cp (cols m a b) (IZR p) = Ok v /\
    dBicValue cfg cp (cols m a b) p = Ok v' /\
    v - v' = 0.5 * (logDet (cols m (a + p + 1) b) - logDet (cols m a (a + p))).
Proof.
  intros Hd Hp Hpb.
  rewrite (delta_bic_cols cfg cp m a b (IZR p) p (p + 1)); try lia.
  - rewrite dBicValue_cols by lia.
    replace (p + 1 <=? b - a)%Z with true by (symmetry; apply Z.leb_le; lia).
    do 2 eexists. split; [reflexivity |]. split; [reflexivity |].
    unfold penalty. scalar_ops.
    replace (a + (p + 1))%Z with (a + p + 1)%Z by lia.
    rewrite !minus_IZR, !plus_IZR. lra.
  - scalar_ops. apply Rtrunc_IZR.
  - scalar_ops. rewrite <- plus_IZR. apply Rtrunc_IZR.
Qed.

(** C1 at an input.  On the window [0, 0, 0, 2] split after its second frame
    the halves [0, 0] and [0, 2] have the log-determinants [-5] and [0]:
    [delta_bic] is [5/2] above the differential the search computes
    there. *)
Theorem delta_bic_differs_from_search_differential :
  exists v v',
    delta_bic example_cfg 2 (cols late_step 0 3) 1 = Ok v /\
    dBicValue example_cfg 2 (cols late_step 0 3) 1 = Ok v' /\
    v - v' = 5 / 2.
Proof.
  destruct (delta_bic_versus_search example_cfg 2 late_step 0 3 1)
    as (v & v' & Hv & Hv' & Hdiff); [zside | zside | zside |].
  exists v, v'. split; [exact Hv |]. split; [exact Hv' |].
  rewrite Hdiff. unfold late_step. zsimp.
  eval_logDets [[0; 0; 0; 2]]%Z. ln_facts. lra.
Qed.


(** *** The run on [spike] *)

Lemma spike_search_0_2 :
  exists d dm, bicChangeSearch example_cfg 2 (cols spike 0 2) 1 0
               = Ok (1%Z, d, dm) /\ length d = 2%nat.
Proof. unfold spike, example_cfg. search_lemma [[0; 0; 2; 0]]%Z. Qed.

Lemma spike_search_2_3 :
  exists d dm, bicChangeSearch example_cfg 2 (cols spike 2 3) 1 2
               = Ok (2%Z, d, dm) /\ length d = 1%nat.
Proof. unfold spike, example_cfg. search_lemma [[0; 0; 2; 0]]%Z. Qed.

Lemma spike_search_3_3 :
  exists d dm, bicChangeSearch example_cfg 2 (cols spike 3 3) 1 3
               = Ok (0%Z, d, dm) /\ length d = 0%nat.
Proof. unfold spike, example_cfg. search_lemma [[0; 0; 2; 0]]%Z. Qed.

(** The search of the second pass for the entry [2]: the window of the
    frames [1] and [2]. *)
Lemma spike_search_1_2 :
  exists d dm, bicChangeSearch example_cfg 2 (cols spike 1 2) 1 1
               = Ok (1%Z, d, dm) /\ dm < 0.
Proof.
  unfold spike, example_cfg. do 2 eexists. split.
  - search_run [[0; 0; 2; 0]]%Z. reflexivity.
  - ln_facts. lra.
Qed.

Lemma spike_coarse :
  exists dm v1 v2 bic,
    coarse_pass example_cfg spike 2 no_outputs
    = Ok (mkCoarse 3 3 0 dm (mkOutputs [1; 2] [v1; v2] bic)).
Proof.
  destruct spike_search_0_2 as (d1 & dm1 & Hs1 & Hl1).
  destruct spike_search_2_3 as (d2 & dm2 & Hs2 & Hl2).
  destruct spike_search_3_3 as (d3 & dm3 & Hs3 & Hl3).
  unfold example_cfg, spike in *.
  unfold coarse_pass, coarse_fuel, coarse_init, no_outputs. dims.
  do 3 coarse_step.
  rewrite while_exit by reflexivity.
  do 4 eexists. reflexivity.
Qed.

Lemma spike_compute :
  exists v1 v2 bic,
    compute example_cfg spike no_outputs = Ok (mkOutputs [1; 2] [v1; v2] bic).
Proof.
  destruct spike_coarse as (dm & v1 & v2 & bic & Hc).
  exists v1, v2, bic. unfold compute. cbv zeta.
  replace (dim2 spike <? 2)%Z with false by reflexivity.
  replace (of_int (2 * dim1 spike)) with 2 by (unfold spike; dims; reflexivity).
  rewrite Hc. cbn [bind c_i c_dmin c_out].
  destruct (fine_pass_i_zero example_cfg spike 2 dm (mkOutputs [1; 2] [v1; v2] bic))
    as (f & -> & Hf); [zside | apply real_max_positive_R |].
  cbn [bind]. rewrite Hf. apply validate_pass_up_to_two. cbn. lia.
Qed.


Ltac fine_body_run :=
  unfold fine_body; cbv zeta; zsimp;
  unfold vec_at; zsimp; cbn [lookup list_lookup]; cbn [bind];
  scalar_ops; rewrite <- ?minus_IZR, ?Rtrunc_IZR; dims;
  rewrite subarray_cols by (dims; zside);
  cbn [bind]; use_search; cbn [bind]; zsimp;
  unfold vec_at; zsimp; cbn [lookup list_lookup]; cbn [bind];
  scalar_ops; rewrite ?Rtrunc_IZR; dims;
  unfold vec_set, vec_erase; zsimp;
  cbn [insert list_insert delete list_delete bind].

(** C4 at an input.  [compute] returns the Segmentation [1, 2] of the first
    pass.  For the entry [2] the second pass searches the window of the
    frames [1] and [2]; that search finds a change at frame [1], between the
    entry before ([1]) and the last frame ([3]), with a negative [dmin].
    The iteration of the second pass tests the [i] the first pass left
    ([0]) and keeps the entry; given the position its search found ([1]),
    the same iteration moves the entry to frame [1]. *)
Theorem fine_pass_ignores_its_search :
  exists v1 v2 bic samples dm,
    compute example_cfg spike no_outputs = Ok (mkOutputs [1; 2] [v1; v2] bic) /\
    bicChangeSearch example_cfg 2 (cols spike 1 2) 1 1 = Ok (1%Z, samples, dm) /\
    dm < 0 /\
    (forall dm0,
       fine_body example_cfg spike 2 0
         (mkFine 1 dm0 (mkOutputs [1; 2] [v1; v2] bic))
       = Ok (mkFine 2 dm (mkOutputs [1; 2] [v1; v2] bic))) /\
    (forall dm0,
       fine_body example_cfg spike 2 1
         (mkFine 1 dm0 (mkOutputs [1; 2] [v1; v2] bic))
       = Ok (mkFine 2 dm (mkOutputs [1; 1] [v1; dm] bic))).
Proof.
  destruct spike_compute as (v1 & v2 & bic & Hc).
  destruct spike_search_1_2 as (samples & dm & Hs & Hdm).
  exists v1, v2, bic, samples, dm.
  split; [exact Hc |]. split; [exact Hs |]. split; [exact Hdm |].
  unfold example_cfg, spike in *.
  split; intros dm0; fine_body_run; reflexivity.
Qed.


(** *** The run on [step_then_flat] *)

Lemma step_then_flat_search_0_2 :
  exists d dm, bicChangeSearch example_cfg 2 (cols step_then_flat 0 2) 1 0
               = Ok (1%Z, d, dm) /\ length d = 2%nat.
Proof. unfold step_then_flat, example_cfg. search_lemma [[0; 0; 2; 2]]%Z. Qed.

Lemma step_then_flat_search_2_3 :
  exists d dm, bicChangeSearch example_cfg 2 (cols step_then_flat 2 3) 1 2
               = Ok (0%Z, d, dm) /\ length d = 1%nat.
Proof. unfold step_then_flat, example_cfg. search_lemma [[0; 0; 2; 2]]%Z. Qed.

(** C9 at an input.  The first window (frames [0] to [2]) gives the change
    point [1]; the next window (frames [2] and [3]) ends at the last frame,
    finds no change and has one sample.  The copy of its samples to
    BicValues reads [tmpBicValues[j + currSeg]] with [currSeg = 2]: index
    [2] of a vector of one element. *)
Theorem compute_reads_past_the_samples :
  compute example_cfg step_then_flat no_outputs = Undefined.
Proof.
  destruct step_then_flat_search_0_2 as (d1 & dm1 & Hs1 & Hl1).
  destruct step_then_flat_search_2_3 as (d2 & dm2 & Hs2 & Hl2).
  unfold compute, example_cfg, step_then_flat in *. cbv zeta. dims.
  unfold coarse_pass, coarse_fuel, coarse_init. dims.
  coarse_step.
  erewrite while_stuck; [ | reflexivity | coarse_body_run; reflexivity ].
  reflexivity.
Qed.

(** *** The run on [two_bursts] *)

Lemma two_bursts_search_0_2 :
  exists d dm, bicChangeSearch example_cfg 2 (cols two_bursts 0 2) 1 0
               = Ok (1%Z, d, dm) /\ length d = 2%nat.
Proof. unfold two_bursts, example_cfg. search_lemma [[0; 0; 4; 2; 0; 0; 2; 4]]%Z. Qed.

Lemma two_bursts_search_2_4 :
  exists d dm, bicChangeSearch example_cfg 2 (cols two_bursts 2 4) 1 2
               = Ok (2%Z, d, dm) /\ length d = 2%nat.
Proof. unfold two_bursts, example_cfg. search_lemma [[0; 0; 4; 2; 0; 0; 2; 4]]%Z. Qed.

Lemma two_bursts_search_3_5 :
  exists d dm, bicChangeSearch example_cfg 2 (cols two_bursts 3 5) 1 3
               = Ok (3%Z, d, dm) /\ length d = 2%nat.
Proof. unfold two_bursts, example_cfg. search_lemma [[0; 0; 4; 2; 0; 0; 2; 4]]%Z. Qed.

Lemma two_bursts_search_4_6 :
  exists d dm, bicChangeSearch example_cfg 2 (cols two_bursts 4 6) 1 4
               = Ok (5%Z, d, dm) /\ length d = 2%nat.
Proof. unfold two_bursts, example_cfg. search_lemma [[0; 0; 4; 2; 0; 0; 2; 4]]%Z. Qed.

Lemma two_bursts_search_6_7 :
  exists d dm, bicChangeSearch example_cfg 2 (cols two_bursts 6 7) 1 6
               = Ok (6%Z, d, dm) /\ length d = 1%nat.
Proof. unfold two_bursts, example_cfg. search_lemma [[0; 0; 4; 2; 0; 0; 2; 4]]%Z. Qed.

Lemma two_bursts_search_7_7 :
  exists d dm, bicChangeSearch example_cfg 2 (cols two_bursts 7 7) 1 7
               = Ok (0%Z, d, dm) /\ length d = 0%nat.
Proof. unfold two_bursts, example_cfg. search_lemma [[0; 0; 4; 2; 0; 0; 2; 4]]%Z. Qed.

Lemma two_bursts_coarse :
  exists dm v1 v2 v3 v4 v5 bic,
    coarse_pass example_cfg two_bursts 2 no_outputs
    = Ok (mkCoarse 7 7 0 dm
            (mkOutputs [1; 2; 3; 5; 6] [v1; v2; v3; v4; v5] bic)).
Proof.
  destruct two_bursts_search_0_2 as (d1 & dm1 & Hs1 & Hl1).
  destruct two_bursts_search_2_4 as (d2 & dm2 & Hs2 & Hl2).
  destruct two_bursts_search_3_5 as (d3 & dm3 & Hs3 & Hl3).
  destruct two_bursts_search_4_6 as (d4 & dm4 & Hs4 & Hl4).
  destruct two_bursts_search_6_7 as (d5 & dm5 & Hs5 & Hl5).
  destruct two_bursts_search_7_7 as (d6 & dm6 & Hs6 & Hl6).
  unfold example_cfg, two_bursts in *.
  unfold coarse_pass, coarse_fuel, coarse_init, no_outputs. dims.
  do 6 coarse_step.
  rewrite while_exit by reflexivity.
  do 7 eexists. reflexivity.
Qed.

Lemma two_bursts_validate (v1 v2 v3 v4 v5 : R) (bic : list R) :
  validate_pass example_cfg two_bursts 2
    (mkOutputs [1; 2; 3; 5; 6] [v1; v2; v3; v4; v5] bic)
  = Ok (mkOutputs [1; 2; 3; 6] [v1; v2; v3; v5] bic).
Proof.
  unfold validate_pass, example_cfg, two_bursts. dims.
  do 3 validate_step [[0; 0; 4; 2; 0; 0; 2; 4]]%Z.
  rewrite while_exit by reflexivity.
  reflexivity.
Qed.

Lemma two_bursts_validate_again (v1 v2 v3 v5 : R) (bic : list R) :
  validate_pass example_cfg two_bursts 2
    (mkOutputs [1; 2; 3; 6] [v1; v2; v3; v5] bic)
  = Ok (mkOutputs [1; 2; 6] [v1; v2; v5] bic).
Proof.
  unfold validate_pass, example_cfg, two_bursts. dims.
  do 2 validate_step [[0; 0; 4; 2; 0; 0; 2; 4]]%Z.
  rewrite while_exit by reflexivity.
  reflexivity.
Qed.

(** C8 is not what the code does.  On [two_bursts] the first pass finds the
    change points [1, 2, 3, 5, 6]; the third pass keeps [3], tested on the
    window that ends at the entry [5], and then erases [5]: [compute]
    returns [1, 2, 3, 6].  Run again on that output, the third pass tests
    [3] on the window that ends at [6] and erases it. *)
Lemma validate_pass_again_removes_an_entry :
  exists v1 v2 v3 v5 bic,
    compute example_cfg two_bursts no_outputs
    = Ok (mkOutputs [1; 2; 3; 6] [v1; v2; v3; v5] bic) /\
    validate_pass example_cfg two_bursts (of_int (2 * dim1 two_bursts))
      (mkOutputs [1; 2; 3; 6] [v1; v2; v3; v5] bic)
    = Ok (mkOutputs [1; 2; 6] [v1; v2; v5] bic).
Proof.
  destruct two_bursts_coarse as (dm & v1 & v2 & v3 & v4 & v5 & bic & Hc).
  exists v1, v2, v3, v5, bic.
  replace (of_int (2 * dim1 two_bursts)) with 2
    by (unfold two_bursts; dims; reflexivity).
  split; [| apply two_bursts_validate_again].
  unfold compute. cbv zeta.
  replace (dim2 two_bursts <? 2)%Z with false by reflexivity.
  replace (of_int (2 * dim1 two_bursts)) with 2
    by (unfold two_bursts; dims; reflexivity).
  rewrite Hc. cbn [bind c_i c_dmin c_out].
  destruct (fine_pass_i_zero example_cfg two_bursts 2 dm
              (mkOutputs [1; 2; 3; 5; 6] [v1; v2; v3; v4; v5] bic))
    as (f & -> & Hf); [zside | apply real_max_positive_R |].
  cbn [bind]. rewrite Hf. apply two_bursts_validate.
Qed.


(** *** Instances of the general statements *)

(** C3 is not what the code does: on the window of four equal frames, with
    no penalty and a step of two frames, the only position gone through is
    [1] and its differential is [0]; [dmin = 0] is not negative and the
    search returns the offset [1], not [0]. *)
Lemma zero_minimum_is_reported_as_change :
  exists samples dm,
    bicChangeSearch no_penalty_cfg 2 (cols flat 0 3) 2 0 = Ok (1%Z, samples, dm) /\
    dm = 0.
Proof.
  unfold flat, no_penalty_cfg. do 2 eexists. split.
  - search_run [[0; 0; 0; 0]]%Z. reflexivity.
  - lra.
Qed.

(** The search of the first three frames of [spike] with a step of one
    frame. *)
Lemma bicChangeSearch_reports_first_minimum_spike :
  (1 <= 1)%Z /\
  exists first samples dm,
    bicChangeSearch example_cfg 2 (cols spike 0 2) 1 0 = Ok (first, samples, dm) /\
    (forall k v, samples !! k = Some v ->
       (scan_position 1 k < dim2 (cols spike 0 2) - 1)%Z /\
       dBicValue example_cfg 2 (cols spike 0 2) (scan_position 1 k) = Ok v) /\
    (dim2 (cols spike 0 2) - 1 <= scan_position 1 (length samples))%Z /\
    (forall v, In v samples -> dm <= v) /\
    dm <= real_max /\
    (0 < dm -> first = 0%Z) /\
    (dm <= 0 ->
       exists k, samples !! k = Some dm /\
                 (forall j v, (j < k)%nat -> samples !! j = Some v -> dm < v) /\
                 first = (0 + scan_position 1 k)%Z).
Proof.
  split; [lia |].
  apply (bicChangeSearch_reports_first_minimum example_cfg 2 (cols spike 0 2) 1 0).
  lia.
Defined.


(** The Segmentation [compute] returns on [spike]. *)
Lemma segmentation_of_spike_holds_frame_indices :
  (1 <= inc1 example_cfg)%Z /\ real_max_positive (Real:=R) /\
  forall o',
    compute example_cfg spike no_outputs = Ok o' ->
    Forall (valid_frame spike) (segmentation o').
Proof.
  assert (H1 : (1 <= inc1 example_cfg)%Z) by (vm_compute; discriminate).
  split; [exact H1 |]. split; [exact real_max_positive_R |].
  exact (proj2 (proj2 (proj2
    (segmentation_holds_frame_indices example_cfg spike H1 real_max_positive_R)))).
Defined.

Lemma two_bursts_validate_three_entries :
  validate_pass example_cfg two_bursts 2 three_entries
  = Ok (mkOutputs [1; 7] [0; 0] []).
Proof.
  unfold validate_pass, example_cfg, two_bursts, three_entries. dims.
  validate_step [[0; 0; 4; 2; 0; 0; 2; 4]]%Z.
  rewrite while_exit by reflexivity.
  reflexivity.
Qed.

(** The third pass on [two_bursts] with the entries [1, 4, 7] erases [4];
    run again on what it returned, it returns the same. *)
Lemma validate_pass_twice_on_three_entries :
  (length (segmentation three_entries) <= 3)%nat /\
  validate_pass example_cfg two_bursts 2 three_entries
  = Ok (mkOutputs [1; 7] [0; 0] []) /\
  validate_pass example_cfg two_bursts 2 (mkOutputs [1; 7] [0; 0] [])
  = Ok (mkOutputs [1; 7] [0; 0] []).
Proof.
  assert (Hlen : (length (segmentation three_entries) <= 3)%nat)
    by (simpl; lia).
  split; [exact Hlen |]. split; [exact two_bursts_validate_three_entries |].
  exact (validate_pass_idempotent_up_to_three_entries example_cfg two_bursts 2
           three_entries (mkOutputs [1; 7] [0; 0] [])
           Hlen two_bursts_validate_three_entries).
Defined.

(** *** Further properties over the real numbers *)

(** *** The log-determinant *)




(** *** The search *)

(** X3.  The offset [0] is both "no change" and the split after the first
    frame: a search with step [1] from offset [0] whose least differential
    is that of the split after frame [0] returns [0], whatever the sign of
    [dmin]. *)
Theorem change_after_the_first_frame_is_not_reported (cfg : config R) (cp : R)
    (m : Array2D R) :
  exists first samples dm,
    bicChangeSearch cfg cp m 1 0 = Ok (first, samples, dm) /\
    (head samples = Some dm -> first = 0%Z).
Proof.
  unfold bicChangeSearch. cbv zeta.
  destruct (search_loop_total cfg cp m 1) as (st & Hw & _ & _); [lia |].
  pose proof Hw as Hinv.
  apply (while_invariant _ _ (search_min_inv cfg cp m 1)) in Hinv
    as [(_ & _ & _ & Hseg) _];
    [| intros s1 s2; apply search_min_inv_step | apply search_min_inv_init].
  rewrite Hw. cbn [bind]. do 3 eexists. split; [reflexivity |].
  intros Hhead. destruct (rlt _ _); [reflexivity |].
  destruct Hseg as [[-> _] | (k & Hk & -> & _ & Hfirst)]; [reflexivity |].
  destruct k as [|k]; [reflexivity |].
  exfalso. specialize (Hfirst 0%nat (dmin st)).
  assert (Hlt : dmin st < dmin st).
  { apply Hfirst; [lia |]. destruct (d st); [discriminate | exact Hhead]. }
  lra.
Qed.


(** *** Features that do not change, without rounding *)

Lemma logDet_constant_window (m : Array2D R) (c : Z -> R) (a b : Z) :
  (0 <= dim1 m)%Z -> (0 <= a <= b)%Z -> (b < dim2 m)%Z ->
  (forall i j, (0 <= i < dim1 m)%Z -> (0 <= j < dim2 m)%Z -> elem m i j = c i) ->
  logDet (cols m a b) = -5 * IZR (dim1 m).
Proof.
  intros Hd1 Hab Hb Hc.
  rewrite logDet_unfold by (rewrite dim2_cols; lia). unfold logDet_spec.
  rewrite dim1_cols.
  rewrite (Rsum_ext _ (fun _ => -5)).
  - rewrite Rsum_const, INR_length_upto by exact Hd1. lra.
  - intros i Hi. apply In_upto in Hi.
    rewrite (diagCov_constant (cols m a b) (c i) i).
    + rewrite Rltb_false; [reflexivity | lra].
    + rewrite dim2_cols. lia.
    + rewrite dim2_cols. intros j Hj. cbn [cols elem].
      rewrite Hc by lia. f_equal. lia.
Qed.

(** On a window of features that do not change every differential is half
    the penalty. *)
Lemma dBicValue_constant_window (cfg : config R) (cp : R) (m : Array2D R)
    (c : Z -> R) (a b s : Z) :
  (1 <= dim1 m)%Z -> (0 <= a)%Z -> (b < dim2 m)%Z ->
  (0 <= s)%Z -> (s + 1 <= b - a)%Z ->
  (forall i j, (0 <= i < dim1 m)%Z -> (0 <= j < dim2 m)%Z -> elem m i j = c i) ->
  dBicValue cfg cp (cols m a b) s
  = Ok (0.5 * (cpw cfg * cp * ln (IZR (b - a + 1)))).
Proof.
  intros Hd1 Ha Hb Hs Hsb Hc.
  rewrite dBicValue_cols by lia.
  rewrite !(logDet_constant_window m c) by (try exact Hc; lia).
  unfold penalty. scalar_ops. f_equal.
  rewrite !minus_IZR, !plus_IZR. ring.
Qed.

Lemma search_constant_window (cfg : config R) (cp : R) (m : Array2D R)
    (c : Z -> R) (e : Z) :
  (1 <= inc1 cfg)%Z -> (1 <= dim1 m)%Z -> (0 <= e < dim2 m)%Z ->
  0 < cpw cfg * cp ->
  (forall i j, (0 <= i < dim1 m)%Z -> (0 <= j < dim2 m)%Z -> elem m i j = c i) ->
  exists samples dm,
    bicChangeSearch cfg cp (cols m 0 e) (inc1 cfg) 0 = Ok (0%Z, samples, dm) /\
    size samples = Z.max 0 ((e + 1) / inc1 cfg - 1) /\
    Forall (fun v => v = 0.5 * (cpw cfg * cp * ln (IZR (e + 1)))) samples.
Proof.
  intros Hinc Hd1 He Hpen Hc. unfold bicChangeSearch. cbv zeta.
  destruct (search_curve_size cfg cp (cols m 0 e) (inc1 cfg) Hinc)
    as (st & Hw & _ & Hsize).
  pose proof Hw as Hinv.
  apply (while_invariant _ _
           (fun s : search_state R =>
              search_inv (cols m 0 e) (inc1 cfg) s /\ 0 < dmin s /\
              Forall (fun v => v = 0.5 * (cpw cfg * cp * ln (IZR (e + 1)))) (d s)))
    in Hinv as [(_ & Hpos & Hall) _].
  - rewrite Hw. cbn [bind]. scalar_ops. rewrite (Rltb_true _ _ Hpos).
    do 2 eexists. split; [reflexivity |].
    rewrite dim2_cols in Hsize. replace (e - 0 + 1)%Z with (e + 1)%Z in Hsize by lia.
    split; [exact Hsize | exact Hall].
  - intros s1 s2 (Hsi & Hpos & Hall) Hcond Hb.
    split; [eapply search_inv_step; eassumption |].
    unfold search_cond in Hcond. apply Z.ltb_lt in Hcond. rewrite dim2_cols in Hcond.
    assert (Hshift : (inc1 cfg - 1 <= shift s1)%Z)
      by (destruct Hsi as [-> _]; nia).
    unfold search_body in Hb.
    rewrite (dBicValue_constant_window cfg cp m c 0 e (shift s1)) in Hb
      by (try exact Hc; lia).
    replace (e - 0 + 1)%Z with (e + 1)%Z in Hb by lia.
    cbn [bind] in Hb.
    assert (Hv : 0 < 0.5 * (cpw cfg * cp * ln (IZR (e + 1)))).
    { assert (0 < ln (IZR (e + 1))).
      { rewrite <- ln_1. apply ln_increasing; [lra |]. apply IZR_lt. lia. }
      nra. }
    cbn [rlt real_scalar] in Hb.
    destruct (Rltb _ _); injection Hb as <-; cbn [dmin d]; unfold push_back;
      (split; [lra |]); apply Forall_app; (split; [exact Hall |]);
      apply Forall_cons; (split; [reflexivity | apply Forall_nil_2]).
  - split; [apply search_inv_init |]. cbn [dmin d].
    split; [scalar_ops; lra | apply Forall_nil_2].
Qed.

(** The run of [compute] on features that do not change, in the arithmetic
    without rounding (with rounding the log-determinant of such a window
    need not be the floor). *)
Lemma constant_features_run (cfg : config R) (m : Array2D R)
    (c : Z -> R) :
  (1 <= size1 cfg)%Z -> (1 <= inc1 cfg)%Z -> 0 < cpw cfg ->
  (1 <= dim1 m)%Z -> (2 <= dim2 m)%Z ->
  (forall i j, (0 <= i < dim1 m)%Z -> (0 <= j < dim2 m)%Z -> elem m i j = c i) ->
  exists bic,
    compute cfg m no_outputs = Ok (mkOutputs [] [] bic) /\
    size bic = Z.max 0 (dim2 m / inc1 cfg - 1) /\
    Forall (fun v => v = cpw cfg * IZR (dim1 m) * ln (IZR (dim2 m))) bic.
Proof.
  intros Hsize Hinc Hcpw Hd1 Hd2 Hc.
  assert (Hcp : 0 < cpw cfg * of_int (2 * dim1 m)).
  { scalar_ops. assert (0 < IZR (2 * dim1 m)) by (apply IZR_lt; lia). nra. }
  destruct (coarse_pass_without_change cfg m (of_int (2 * dim1 m)) no_outputs
              (fun samples =>
                 size samples = Z.max 0 (dim2 m / inc1 cfg - 1) /\
                 Forall (fun v => v = cpw cfg * IZR (dim1 m) * ln (IZR (dim2 m)))
                   samples))
    as (st & samples & Hst & Hi & Hout & Hsz & Hall); [exact Hsize | lia | |].
  - intros e He.
    destruct (search_constant_window cfg (of_int (2 * dim1 m)) m c e
                Hinc Hd1 He Hcp Hc) as (samples & dm & Hs & Hsz & Hall).
    exists (cols m 0 e), samples, dm.
    split; [apply subarray_cols; lia |]. split; [exact Hs |].
    intros ->. replace (dim2 m - 1 + 1)%Z with (dim2 m) in * by lia.
    split; [exact Hsz |].
    eapply Forall_impl; [exact Hall |]. cbv beta. intros v ->.
    scalar_ops. rewrite mult_IZR. lra.
  - exists samples.
    rewrite (compute_after_coarse cfg m no_outputs st Hinc real_max_positive_R
               Hd2 Hst Hi), Hout.
    split; [reflexivity |]. split; [exact Hsz | exact Hall].
Qed.


(** *** The second and the third pass stay inside their vectors *)

Lemma apart_lookup (gap : Z) (ks : list Z) (i j : nat) (a b : Z) :
  apart gap ks -> (i < j)%nat -> ks !! i = Some a -> ks !! j = Some b ->
  (a + gap <= b)%Z.
Proof.
  unfold apart. intros H. revert i j.
  induction H as [|x l Hs IH Hall]; intros i j Hij Hi Hj; [discriminate |].
  destruct j as [|j]; [lia |]. cbn in Hj.
  destruct i as [|i].
  - injection Hi as <-. rewrite Forall_forall in Hall.
    apply Hall. eapply list_elem_of_lookup_2, Hj.
  - cbn in Hi. apply (IH i j); [lia | exact Hi | exact Hj].
Qed.

Lemma lookup_map_IZR (ks : list Z) (k : nat) (x : Z) :
  ks !! k = Some x -> map IZR ks !! k = Some (IZR x).
Proof.
  revert k. induction ks as [|y ks IH]; intros [|k] H; try discriminate.
  - injection H as <-. reflexivity.
  - cbn in *. apply IH, H.
Qed.

Lemma vec_at_map_IZR (ks : list Z) (i x : Z) :
  (0 <= i)%Z -> ks !! Z.to_nat i = Some x ->
  vec_at (Real:=R) (map IZR ks) i = Ok (IZR x).
Proof.
  intros Hi Hx. unfold vec_at.
  replace (i <? 0)%Z with false by (symmetry; apply Z.ltb_ge; lia).
  rewrite (lookup_map_IZR _ _ _ Hx). reflexivity.
Qed.

Lemma vec_erase_in_range {A : Type} (v : list A) (i : Z) :
  (0 <= i < size v)%Z ->
  vec_erase (Real:=R) v i = Ok (delete (Z.to_nat i) v).
Proof.
  intros Hi. unfold vec_erase, size in *.
  replace (_ || _) with false; [reflexivity |].
  symmetry. apply orb_false_iff. split; [apply Z.ltb_ge | apply Z.leb_gt]; lia.
Qed.

(** On change points in increasing order, with one value of SegValues per
    entry, the third pass reads inside its vectors and inside the matrix:
    it returns. *)
Lemma validate_pass_on_change_points (cfg : config R) (cp : R) (m : Array2D R)
    (o : outputs R) :
  (1 <= inc1 cfg)%Z -> (1 <= dim1 m)%Z ->
  change_points cfg m (segmentation o) -> same_size o ->
  exists o', validate_pass cfg m cp o = Ok o'.
Proof.
  intros Hinc Hd1 (ks0 & Hseg0 & Hap0 & Hrange0) Hsame0.
  unfold validate_pass. destruct (size (segmentation o) =? 0)%Z eqn:Hsz; [eauto |].
  apply Z.eqb_neq in Hsz.
  destruct (while_total validate_cond (validate_body cfg m cp)
              (fun st : validate_state R => exists ks,
                 segmentation (v_out st) = map IZR ks /\
                 apart (2 * inc1 cfg - 1) ks /\
                 Forall (fun k => Z.max 1 (inc1 cfg - 1) <= k
                                  <= dim2 m - 1 - inc1 cfg)%Z ks /\
                 same_size (v_out st) /\ (1 <= v_i st)%Z /\
                 exists p, ks !! Z.to_nat (v_i st - 1) = Some p /\
                           (0 <= v_currSeg st <= p + 1)%Z)
              (fun st => Z.to_nat (size (segmentation (v_out st)) - 1 - v_i st)))
    with (fuel := length (segmentation o)) (st := mkValidate 1 0 o)
    as (st & -> & _); [| | | cbn [bind]; eauto].
  - intros st (ks & Hseg & Hap & Hrange & Hsame & Hi & p & Hp & Hcur) Hc.
    unfold validate_cond, size in Hc. apply Z.ltb_lt in Hc.
    split; [unfold size; lia |].
    assert (Hlen : length (segmentation (v_out st)) = length ks)
      by (rewrite Hseg, length_map; reflexivity).
    destruct (lookup_lt_is_Some_2 ks (Z.to_nat (v_i st))) as [x Hx]; [lia |].
    destruct (lookup_lt_is_Some_2 ks (Z.to_nat (v_i st + 1))) as [y Hy]; [lia |].
    assert (Hpx : (p + (2 * inc1 cfg - 1) <= x)%Z)
      by (eapply apart_lookup; [exact Hap | | exact Hp | exact Hx]; lia).
    assert (Hxy : (x + (2 * inc1 cfg - 1) <= y)%Z)
      by (eapply apart_lookup; [exact Hap | | exact Hx | exact Hy]; lia).
    assert (Hyr : (y <= dim2 m - 1 - inc1 cfg)%Z).
    { rewrite Forall_forall in Hrange. apply Hrange.
      eapply list_elem_of_lookup_2, Hy. }
    assert (Hpr : (1 <= p)%Z).
    { rewrite Forall_forall in Hrange.
      assert (Z.max 1 (inc1 cfg - 1) <= p <= dim2 m - 1 - inc1 cfg)%Z
        by (apply Hrange; eapply list_elem_of_lookup_2, Hp).
      lia. }
    unfold validate_body. cbv zeta. rewrite Hseg.
    rewrite (vec_at_map_IZR ks (v_i st + 1) y) by (try exact Hy; lia).
    cbn [bind]. scalar_ops. rewrite Rtrunc_IZR.
    rewrite subarray_cols by lia. cbn [bind].
    rewrite (vec_at_map_IZR ks (v_i st) x) by (try exact Hx; lia).
    cbn [bind].
    rewrite (vec_at_map_IZR ks (v_i st - 1) p) by (try exact Hp; lia).
    cbn [bind].
    rewrite delta_bic_at_gap by lia. cbn [bind].
    match goal with |- context [Rltb ?u ?v] => destruct (Rltb u v) end.
    + rewrite (vec_erase_in_range (map IZR ks)) by (unfold size; rewrite length_map; lia).
      cbn [bind].
      rewrite (vec_erase_in_range (segValues (v_out st)))
        by (unfold size; unfold same_size in Hsame; lia).
      cbn [bind]. eexists. split; [reflexivity |].
      cbn [v_out v_i v_currSeg segmentation segValues].
      split.
      * exists (delete (Z.to_nat (v_i st)) ks).
        split; [apply delete_map |]. split; [apply apart_delete, Hap |].
        split.
        { rewrite delete_take_drop. apply Forall_app.
          split; [apply Forall_take | apply Forall_drop]; exact Hrange. }
        split.
        { unfold same_size in *. cbn [segmentation segValues].
          rewrite !length_delete by (apply lookup_lt_is_Some; rewrite ?length_map; lia).
          rewrite length_map. lia. }
        split; [lia |].
        exists p. split; [| exact Hcur].
        replace (v_i st - 1 + 1 - 1)%Z with (v_i st - 1)%Z by lia.
        rewrite list_lookup_delete_lt by lia. exact Hp.
      * unfold size. rewrite length_delete
          by (apply lookup_lt_is_Some; rewrite length_map; lia).
        rewrite !length_map. lia.
    + eexists. split; [reflexivity |].
      cbn [v_out v_i v_currSeg].
      split.
      * exists ks. split; [exact Hseg |]. split; [exact Hap |].
        split; [exact Hrange |]. split; [exact Hsame |]. split; [lia |].
        exists x. replace (v_i st + 1 - 1)%Z with (v_i st) by lia.
        split; [exact Hx |].
        rewrite <- plus_IZR, Rtrunc_IZR. lia.
      * rewrite Hseg. unfold size. rewrite length_map. lia.
  - exists ks0. cbn [v_out v_i v_currSeg].
    split; [exact Hseg0 |]. split; [exact Hap0 |]. split; [exact Hrange0 |].
    split; [exact Hsame0 |]. split; [lia |].
    destruct (lookup_lt_is_Some_2 ks0 0) as [p Hp].
    { unfold size in Hsz. rewrite Hseg0, length_map in Hsz. lia. }
    exists p. split; [exact Hp |].
    rewrite Forall_forall in Hrange0.
    assert (Z.max 1 (inc1 cfg - 1) <= p <= dim2 m - 1 - inc1 cfg)%Z
      by (apply Hrange0; eapply list_elem_of_lookup_2, Hp).
    lia.
  - cbn [v_out v_i]. unfold size. lia.
Qed.

(** X15.  Run on empty outputs over the real numbers, the second and the
    third pass read inside Segmentation, SegValues and the matrix: when the
    first pass returns, [compute] returns. *)
Theorem compute_returns_when_the_first_pass_does (cfg : config R)
    (m : Array2D R) (c : coarse_state R) :
  (1 <= inc1 cfg)%Z -> (1 <= dim1 m)%Z -> (2 <= dim2 m)%Z ->
  coarse_pass cfg m (of_int (2 * dim1 m)) no_outputs = Ok c ->
  exists o', compute cfg m no_outputs = Ok o'.
Proof.
  intros Hinc Hd1 Hd2 Hc.
  rewrite (compute_after_coarse cfg m no_outputs c Hinc real_max_positive_R Hd2 Hc
             (coarse_pass_leaves_i_zero cfg m _ _ c Hinc real_max_positive_R Hc)).
  pose proof Hc as Hr. apply while_reaches in Hr as [Hr _].
  apply validate_pass_on_change_points; [exact Hinc | exact Hd1 | |].
  - apply (coarse_reaches_change_points cfg m _ c Hinc real_max_positive_R Hr).
  - refine (reaches_invariant _ _ (fun st : coarse_state R => same_size (c_out st))
              _ _ _ Hr eq_refl).
    intros st st' Hs _ Hb.
    eapply lockstep_same_size; [eapply coarse_body_lockstep |]; eassumption.
Qed.

(** *** Instances of the further properties *)

(** The columns [1] and [2] of the window of the frames [1] to [3] of
    [spike] are its frames [2] and [3]. *)
Lemma subarray_of_subarray_spike :
  exists w'',
    subarray spike (0 + 0) (0 + 0) (1 + 1) (1 + 2) = Ok w'' /\
    dim1 w'' = dim1 (cols (cols spike 1 3) 1 2) /\
    dim2 w'' = dim2 (cols (cols spike 1 3) 1 2) /\
    forall i j, elem w'' i j = elem (cols (cols spike 1 3) 1 2) i j.
Proof.
  apply (subarray_of_subarray spike (cols spike 1 3) (cols (cols spike 1 3) 1 2)
           0 0 1 3 0 0 1 2); reflexivity.
Defined.

(** The search of the first three frames of [spike] with a step of one
    frame has a curve of two samples. *)
Lemma bicChangeSearch_curve_size_spike :
  (1 <= 1)%Z /\
  exists first samples dm,
    bicChangeSearch example_cfg 2 (cols spike 0 2) 1 0 = Ok (first, samples, dm) /\
    size samples = 2%Z.
Proof.
  split; [lia |].
  destruct (bicChangeSearch_curve_size example_cfg 2 (cols spike 0 2) 1 0)
    as (first & samples & dm & Hs & Hsize & _); [lia |].
  exists first, samples, dm. split; [exact Hs | exact Hsize].
Defined.

(** The Segmentation [compute] returns on [spike] is in increasing order. *)
Lemma segmentation_of_spike_in_increasing_order :
  exists o',
    compute example_cfg spike no_outputs = Ok o' /\
    change_points example_cfg spike (segmentation o').
Proof.
  destruct spike_compute as (v1 & v2 & bic & Hc).
  eexists. split; [exact Hc |].
  assert (H1 : (1 <= inc1 example_cfg)%Z) by (vm_compute; discriminate).
  exact (proj2 (segmentation_is_in_increasing_order example_cfg spike
                  H1 real_max_positive_R) _ Hc).
Defined.

(** The SegValues [compute] returns on [spike]. *)
Lemma segValues_of_spike_not_positive :
  exists o',
    compute example_cfg spike no_outputs = Ok o' /\
    Forall not_positive (segValues o').
Proof.
  destruct spike_compute as (v1 & v2 & bic & Hc).
  eexists. split; [exact Hc |].
  assert (H1 : (1 <= inc1 example_cfg)%Z) by (vm_compute; discriminate).
  exact (proj2 (segValues_are_not_positive example_cfg spike
                  H1 real_max_positive_R) _ Hc).
Defined.

(** The third pass on [two_bursts] with the entries [1, 4, 7] keeps [1] and
    [7]. *)
Lemma validate_pass_keeps_first_and_last_of_three_entries :
  validate_pass example_cfg two_bursts 2 three_entries
  = Ok (mkOutputs [1; 7] [0; 0] []) /\
  sublist [1; 7] (segmentation three_entries) /\
  sublist [0; 0] (segValues three_entries) /\
  head [1; 7] = head (segmentation three_entries) /\
  last [1; 7] = last (segmentation three_entries).
Proof.
  split; [exact two_bursts_validate_three_entries |].
  exact (validate_pass_keeps_the_first_and_the_last_entry example_cfg two_bursts 2
           three_entries (mkOutputs [1; 7] [0; 0] [])
           two_bursts_validate_three_entries).
Defined.

(** The first iteration of the first pass on [spike]: the change at frame
    [1] and the two samples up to it. *)
Lemma first_iteration_on_spike :
  exists samples dm,
    bicChangeSearch example_cfg 2 (cols spike 0 2) 1 0 = Ok (1%Z, samples, dm) /\
    coarse_body example_cfg spike 2 (coarse_init no_outputs)
    = Ok (mkCoarse 2 1 1 dm (mkOutputs [1] [dm] (take 2 samples))).
Proof.
  destruct spike_search_0_2 as (samples & dm & Hs & _).
  exists samples, dm. split; [exact Hs |].
  assert (Hone : inc1 example_cfg = 1%Z) by reflexivity.
  assert (Hnz : (1 <> 0)%Z) by discriminate.
  exact (coarse_iteration_with_step_one_copies_up_to_the_change example_cfg spike
           2 (coarse_init no_outputs) (cols spike 0 2) 1 samples dm
           Hone real_max_positive_R eq_refl Hs Hnz).
Defined.

(** [flat] has four frames, fewer than [2 * 3]: with a step of two frames
    [compute] returns on it, with no change point. *)
Lemma coarse_pass_on_flat_with_wide_step :
  exists bic,
    compute wide_step_cfg flat no_outputs = Ok (mkOutputs [] [] bic) /\
    segmentation (mkOutputs [] [] bic) = [] /\
    segValues (mkOutputs [] [] bic) = [].
Proof.
  destruct (constant_features_run wide_step_cfg flat (fun _ => 0))
    as (bic & Hc & _).
  - vm_compute; discriminate.
  - vm_compute; discriminate.
  - cbn. lra.
  - vm_compute; discriminate.
  - vm_compute; discriminate.
  - intros i j Hi Hj.
    change (dim1 flat) with 1%Z in Hi. change (dim2 flat) with 4%Z in Hj.
    assert (Hi' : i = 0%Z) by lia.
    assert (Hj' : (j = 0 \/ j = 1 \/ j = 2 \/ j = 3)%Z) by lia.
    subst i. destruct Hj' as [-> | [-> | [-> | ->]]]; reflexivity.
  - exists bic. split; [exact Hc |].
    assert (H1 : (1 <= inc1 wide_step_cfg)%Z) by (vm_compute; discriminate).
    assert (H2 : (dim2 flat < inc1 wide_step_cfg * (inc1 wide_step_cfg + 1))%Z)
      by (vm_compute; reflexivity).
    exact (proj2 (coarse_pass_finds_nothing_in_a_short_matrix wide_step_cfg flat
                    H1 real_max_positive_R H2) _ Hc).
Defined.

(** [constant_matrix] has three frames, fewer than two steps of two. *)
Lemma compute_on_three_frames_with_wide_step :
  compute wide_step_cfg constant_matrix no_outputs = Ok no_outputs.
Proof.
  apply (compute_on_a_matrix_shorter_than_two_steps wide_step_cfg constant_matrix).
  - vm_compute; discriminate.
  - vm_compute; discriminate.
  - exact real_max_positive_R.
  - vm_compute; discriminate.
  - vm_compute; reflexivity.
  - reflexivity.
Defined.

(** [compute] on four frames of no feature. *)
Lemma compute_on_no_features :
  compute example_cfg no_features no_outputs = Ok no_outputs.
Proof.
  apply (compute_on_a_matrix_without_features example_cfg no_features).
  - vm_compute; discriminate.
  - vm_compute; discriminate.
  - exact real_max_positive_R.
  - vm_compute; discriminate.
  - vm_compute; discriminate.
  - reflexivity.
Defined.

(** The first pass returns on [spike], and so does [compute]. *)
Lemma compute_on_spike_returns :
  exists o', compute example_cfg spike no_outputs = Ok o'.
Proof.
  destruct spike_coarse as (dm & v1 & v2 & bic & Hc).
  apply (compute_returns_when_the_first_pass_does example_cfg spike
           (mkCoarse 3 3 0 dm (mkOutputs [1; 2] [v1; v2] bic))).
  - vm_compute; discriminate.
  - vm_compute; discriminate.
  - vm_compute; discriminate.
  - exact Hc.
Defined.

(** The last change point [compute] returns on the four frames of [spike]
    is frame [2]. *)
Lemma last_change_point_of_spike :
  exists o' ks,
    compute example_cfg spike no_outputs = Ok o' /\
    segmentation o' = map of_int ks /\
    forall k, last ks = Some k ->
              (dim2 spike - 3 * inc1 example_cfg < k
               <= dim2 spike - 1 - inc1 example_cfg)%Z.
Proof.
  destruct spike_compute as (v1 & v2 & bic & Hc).
  assert (H1 : (1 <= inc1 example_cfg)%Z) by (vm_compute; discriminate).
  assert (H2 : (1 <= dim1 spike)%Z) by (vm_compute; discriminate).
  destruct (the_last_change_point_is_near_the_end example_cfg spike
              H1 real_max_positive_R H2 _ Hc) as (ks & Hseg & Hlast).
  eexists. exists ks. split; [exact Hc |]. split; [exact Hseg | exact Hlast].
Defined.

(** The loops of [compute] on [spike] exit. *)
Lemma compute_on_spike_within_bound :
  within_bound (compute example_cfg spike no_outputs).
Proof.
  apply (compute_within_bound example_cfg spike no_outputs).
  - vm_compute; discriminate.
  - vm_compute; discriminate.
  - exact real_max_positive_R.
Defined.

End Runs.
